(** * database-anonymiser-minimiser: the dependency-aware export core

    A shallow embedding of the Go packages [schema], [fktracker],
    [anonymiser] and of [config.parseDate], with the properties the
    specification states about them.

    Conventions of the embedding.
    - A Go [map[string]V] is a [gmap string V]; reading a missing key gives
      the zero value of [V], written [getd zero m k].
    - A Go [for k, v := range m] visits every key once in an order the
      language leaves unspecified.  Every function that ranges over a map
      takes the order of the visit as an explicit argument, and the theorems
      quantify over every order that is a permutation of the keys
      ([range_order]).
    - Go's [int] is 64 bits wide on the supported platforms; counters that
      stay far below that width are modelled in [Z]. *)

From Stdlib Require Import ZArith Floats.PrimFloat Floats.FloatOps Floats.FloatAxioms
  Floats.SpecFloat Ascii String.
From stdpp Require Import gmap strings list fin_maps relations pretty.

Open Scope Z_scope.

#[local] Set Warnings "-clear-no-such-hyp".

(** ** Go prelude *)

(** A Go [(T, error)] result. *)
Inductive result (A : Type) : Type :=
  | Ok (a : A)
  | Err (msg : string).
Arguments Ok {A} a.
Arguments Err {A} msg.

(** [m[k]] on a Go map: the zero value when the key is missing. *)
Definition getd {V : Type} (zero : V) (m : gmap string V) (k : string) : V :=
  default zero (m !! k).

(** The keys of [m] in the order one [range] loop visits them. *)
Definition range_order {V : Type} (m : gmap string V) (order : list string) : Prop :=
  order ≡ₚ (map_to_list m).*1.

#[global] Instance range_order_dec {V : Type} (m : gmap string V) order :
  Decision (range_order m order).
Proof. unfold range_order. apply _. Defined.

(** ** Package database: the driver interface as far as the core uses it *)

Module Database.

Record ForeignKey : Type := mkForeignKey {
  Table : string;
  Column : string;
  ReferencedTable : string;
  ReferencedColumn : string
}.

Record NullString : Type := mkNullString {
  NullString_String : string;
  NullString_Valid : bool
}.

Record ColumnInfo : Type := mkColumnInfo {
  ColumnInfo_Name : string;
  DataType : string;
  IsNullable : bool;
  Default : NullString
}.

(** Of the [Driver] interface the dependency ordering calls one method. *)
Record Driver : Type := mkDriver {
  GetForeignKeys : result (list ForeignKey)
}.

End Database.

(** ** Package schema: dependency ordering *)

Module Schema.
Import Database.

Record TableInfo : Type := mkTableInfo {
  Name : string;
  CreateStmt : string;
  Columns : list ColumnInfo;
  RowCount : Z
}.

Definition zeroTableInfo : TableInfo :=
  {| Name := ""; CreateStmt := ""; Columns := []; RowCount := 0 |}.

(** First loop of [SortTablesByDependency]: the table set and an empty
    dependency list per table. *)
Definition initTables (tables : list TableInfo)
  : gmap string (list string) * gmap string bool :=
  foldl (fun '(dependencies, tableSet) t =>
           (match dependencies !! Name t with
            | None => <[Name t := []]> dependencies
            | Some _ => dependencies
            end,
            <[Name t := true]> tableSet))
        (∅, ∅) tables.

(** Second loop: one dependency per foreign key between two tables of the
    set, self-references skipped. *)
Definition addForeignKeys (tableSet : gmap string bool) (fks : list ForeignKey)
    (dependencies : gmap string (list string)) : gmap string (list string) :=
  foldl (fun dependencies fk =>
           if getd false tableSet (Table fk) && getd false tableSet (ReferencedTable fk)
           then if bool_decide (Table fk ≠ ReferencedTable fk)
                then <[Table fk := getd [] dependencies (Table fk) ++ [ReferencedTable fk]]>
                       dependencies
                else dependencies
           else dependencies)
        dependencies fks.

Definition buildDependencies (tables : list TableInfo) (fks : list ForeignKey)
  : gmap string (list string) :=
  let '(dependencies, tableSet) := initTables tables in
  addForeignKeys tableSet fks dependencies.

(** [inDegree[t.Name] = 0] for every table. *)
Definition initInDegree (tables : list TableInfo) : gmap string Z :=
  foldl (fun inDegree t => <[Name t := 0]> inDegree) ∅ tables.

(** The inner loop over the dependencies of one table. *)
Definition addDependents (table : string) (deps : list string)
    (acc : gmap string (list string) * gmap string Z)
  : gmap string (list string) * gmap string Z :=
  foldl (fun '(dependents, inDegree) dep =>
           (<[dep := getd [] dependents dep ++ [table]]> dependents,
            <[table := getd 0 inDegree table + 1]> inDegree))
        acc deps.

(** The reverse adjacency list and the in-degrees: the [range] over
    [dependencies], visiting its keys in [order]. *)
Definition buildDependents (order : list string)
    (dependencies : gmap string (list string)) (inDegree : gmap string Z)
  : gmap string (list string) * gmap string Z :=
  foldl (fun acc table => addDependents table (getd [] dependencies table) acc)
        (∅, inDegree) order.

(** The tables with no dependencies, in input order. *)
Definition initQueue (tables : list TableInfo) (inDegree : gmap string Z) : list string :=
  foldl (fun queue t =>
           if getd 0 inDegree (Name t) =? 0 then queue ++ [Name t] else queue)
        [] tables.

Definition buildTableMap (tables : list TableInfo) : gmap string TableInfo :=
  foldl (fun tableMap t => <[Name t := t]> tableMap) ∅ tables.

(** Reducing the in-degree of the dependents of the popped table. *)
Fixpoint reduceDependents (ds : list string) (inDegree : gmap string Z)
    (queue : list string) : gmap string Z * list string :=
  match ds with
  | [] => (inDegree, queue)
  | dependent :: ds' =>
      let inDegree' := <[dependent := getd 0 inDegree dependent - 1]> inDegree in
      let queue' := if getd 0 inDegree' dependent =? 0
                    then queue ++ [dependent] else queue in
      reduceDependents ds' inDegree' queue'
  end.

(** The loop [for len(queue) > 0].  [None] when [fuel] iterations did not
    empty the queue. *)
Fixpoint processQueue (fuel : nat) (dependents : gmap string (list string))
    (tableMap : gmap string TableInfo) (queue : list string)
    (inDegree : gmap string Z) (sorted : list TableInfo) : option (list TableInfo) :=
  match queue with
  | [] => Some sorted
  | current :: rest =>
      match fuel with
      | O => None
      | S fuel' =>
          let sorted' := sorted ++ [getd zeroTableInfo tableMap current] in
          let '(inDegree', queue') :=
            reduceDependents (getd [] dependents current) inDegree rest in
          processQueue fuel' dependents tableMap queue' inDegree' sorted'
      end
  end.

(** The cycle branch: tables the loop did not place, appended in input
    order. *)
Definition appendRemaining (tables sorted : list TableInfo) : list TableInfo :=
  if bool_decide (length sorted ≠ length tables) then
    let sortedSet := foldl (fun s t => <[Name t := true]> s) (∅ : gmap string bool) sorted in
    foldl (fun sorted t =>
             if negb (getd false sortedSet (Name t)) then sorted ++ [t] else sorted)
          sorted tables
  else sorted.

(** [topologicalSort].  The error component of the Go function is always
    [nil]; the outer [option] is [None] only if the queue loop needed more
    than [length tables + length order] iterations, which
    [topologicalSort_terminates] excludes. *)
Definition topologicalSort (order : list string) (tables : list TableInfo)
    (dependencies : gmap string (list string)) : option (result (list TableInfo)) :=
  let '(dependents, inDegree) :=
    buildDependents order dependencies (initInDegree tables) in
  let queue := initQueue tables inDegree in
  let tableMap := buildTableMap tables in
  sorted ← processQueue (length tables + length order) dependents tableMap queue inDegree [];
  Some (Ok (appendRemaining tables sorted)).

(** [SortTablesByDependency]: the only error is the driver's. *)
Definition SortTablesByDependency (driver : Driver) (order : list string)
    (tables : list TableInfo) : option (result (list TableInfo)) :=
  match GetForeignKeys driver with
  | Err e => Some (Err ("failed to get foreign keys: " +:+ e))
  | Ok fks => topologicalSort order tables (buildDependencies tables fks)
  end.

End Schema.

(** ** Go dynamic values *)

(** The dynamic values ([any]) that reach the tracker and the anonymiser:
    the cases [normalizeValue] names, and the scalar types a database
    driver produces.  An integer carries its mathematical value, which lies
    in the range of its Go type.  A [float32] carries the binary64 number
    it denotes, so that the widening [float64(v)] is the identity on the
    payload.  A [[]byte] is a list of 8-bit characters. *)
Inductive any : Type :=
  | VNil
  | VInt (z : Z) | VInt8 (z : Z) | VInt16 (z : Z) | VInt32 (z : Z) | VInt64 (z : Z)
  | VUint (z : Z) | VUint8 (z : Z) | VUint16 (z : Z) | VUint32 (z : Z) | VUint64 (z : Z)
  | VFloat32 (f : float) | VFloat64 (f : float)
  | VBool (b : bool)
  | VString (s : string)
  | VBytes (b : list ascii).

(** The conversion [int64(v)]: the low 64 bits, read in two's complement. *)
Definition int64 (z : Z) : Z := (z + 2 ^ 63) mod 2 ^ 64 - 2 ^ 63.

(** [==] on two interface values used as map keys: equal dynamic types and
    equal values, floats compared as IEEE 754 does (a NaN differs from
    itself).  Slices are not comparable; [normalizeValue] never returns
    one. *)
Definition keyEqb (x y : any) : bool :=
  match x, y with
  | VNil, VNil => true
  | VInt a, VInt b | VInt8 a, VInt8 b | VInt16 a, VInt16 b
  | VInt32 a, VInt32 b | VInt64 a, VInt64 b
  | VUint a, VUint b | VUint8 a, VUint8 b | VUint16 a, VUint16 b
  | VUint32 a, VUint32 b | VUint64 a, VUint64 b => Z.eqb a b
  | VFloat32 a, VFloat32 b | VFloat64 a, VFloat64 b => PrimFloat.eqb a b
  | VBool a, VBool b => Bool.eqb a b
  | VString a, VString b => String.eqb a b
  | _, _ => false
  end.

(** A float NaN, of either width. *)
Definition isNaN (v : any) : bool :=
  match v with
  | VFloat32 f | VFloat64 f => negb (PrimFloat.eqb f f)
  | _ => false
  end.

(** ** Package fktracker *)

Module Fktracker.

(** A Go [map[any]struct{}]: the keys, pairwise different under [==].
    Assigning under a key that is present stores the new key in place of
    the old one; the two can differ, as the floats [+0] and [-0] do. *)
Definition setInsert (k : any) (s : list any) : list any :=
  if existsb (keyEqb k) s
  then (fun x => if keyEqb k x then k else x) <$> s
  else s ++ [k].

Definition setMember (k : any) (s : list any) : bool := existsb (keyEqb k) s.

Record Tracker : Type := mkTracker {
  exportedKeys : gmap string (list any)
}.

Definition NewTracker : Tracker := {| exportedKeys := ∅ |}.

Definition makeKey (table column : string) : string :=
  table +:+ "." +:+ column.

Definition normalizeValue (value : any) : any :=
  match value with
  | VInt v => VInt64 (int64 v)
  | VInt8 v => VInt64 (int64 v)
  | VInt16 v => VInt64 (int64 v)
  | VInt32 v => VInt64 (int64 v)
  | VUint v => VInt64 (int64 v)
  | VUint8 v => VInt64 (int64 v)
  | VUint16 v => VInt64 (int64 v)
  | VUint32 v => VInt64 (int64 v)
  | VUint64 v => VInt64 (int64 v)
  | VFloat32 v => VFloat64 v
  | VBytes v => VString (string_of_list_ascii v)
  | v => v
  end.

Definition RecordValue (t : Tracker) (table column : string) (value : any) : Tracker :=
  match value with
  | VNil => t
  | _ =>
      let key := makeKey table column in
      let keys1 := match exportedKeys t !! key with
                   | None => <[key := []]> (exportedKeys t)
                   | Some _ => exportedKeys t
                   end in
      let normalised := normalizeValue value in
      {| exportedKeys := <[key := setInsert normalised (getd [] keys1 key)]> keys1 |}
  end.

Definition HasValue (t : Tracker) (table column : string) (value : any) : bool :=
  match value with
  | VNil => true
  | _ =>
      let key := makeKey table column in
      match exportedKeys t !! key with
      | None => false
      | Some values => setMember (normalizeValue value) values
      end
  end.

Definition GetExportedValues (t : Tracker) (table column : string) : option (list any) :=
  match exportedKeys t !! makeKey table column with
  | None => None
  | Some values => if bool_decide (length values = 0%nat) then None else Some values
  end.

Definition GetExportedCount (t : Tracker) (table column : string) : Z :=
  match exportedKeys t !! makeKey table column with
  | None => 0
  | Some values => Z.of_nat (length values)
  end.

(** A run of the exporter records one value after the other. *)
Definition recordAll (t : Tracker) (records : list (string * string * any)) : Tracker :=
  foldl (fun t '(table, column, value) => RecordValue t table column value) t records.

End Fktracker.

(** ** Package config *)

Module Config.

(** [TableConfig], with the fields the anonymiser reads.  A nil [Columns]
    map is [None]. *)
Record TableConfig : Type := mkTableConfig {
  Truncate : bool;
  Columns : option (gmap string string)
}.

(** [Config.Configuration]: a possibly nil map to possibly nil pointers. *)
Record Config : Type := mkConfig {
  Configuration : option (gmap string (option TableConfig))
}.

Definition GetTableConfig (c : Config) (tableName : string) : option TableConfig :=
  match Configuration c with
  | None => None
  | Some configuration => getd None configuration tableName
  end.

Section parseDate.
(** [time.Time] and [time.Parse] belong to the Go standard library. *)
Context {Time : Type}.
Context (time_Parse : string → string → result Time).
(** What the verb [%q] of package [fmt] prints for a string. *)
Context (Quote : string → string).

Definition RFC3339 : string := "2006-01-02T15:04:05Z07:00".

Definition formats : list string :=
  [ "2006-01-02"; "2006-01-02T15:04:05"; "2006-01-02 15:04:05"; RFC3339 ].

(** The loop of [parseDate] over the remaining formats. *)
Fixpoint parseDateWith (formats : list string) (s : string) : result Time :=
  match formats with
  | [] => Err "could not parse date, supported formats: YYYY-MM-DD, YYYY-MM-DDTHH:MM:SS"
  | format :: rest =>
      match time_Parse format s with
      | Ok t => Ok t
      | Err _ => parseDateWith rest s
      end
  end.

Definition parseDate (s : string) : result Time := parseDateWith formats s.

Record RetainConfig : Type := mkRetainConfig {
  Count : Z;
  ColumnName : string;
  AfterDate : Time
}.

Record retainConfigRaw : Type := mkRetainConfigRaw {
  raw_ColumnName : string;
  raw_AfterDate : string
}.

(** What the YAML or JSON decoder makes of the [retain] node: it decodes
    as an integer, or else as an object, or as neither. *)
Inductive retainNode : Type :=
  | NodeInt (n : Z)
  | NodeObject (raw : retainConfigRaw)
  | NodeInvalid (err : string).

(** [UnmarshalYAML] and [UnmarshalJSON], which differ in the decoder
    only: the receiver [r] and the error. *)
Definition Unmarshal (r : RetainConfig) (value : retainNode)
  : RetainConfig * option string :=
  match value with
  | NodeInt intVal =>
      ({| Count := intVal; ColumnName := ColumnName r; AfterDate := AfterDate r |}, None)
  | NodeInvalid err =>
      (r, Some ("retain must be an integer or an object with column_name and after_date: "
                +:+ err))
  | NodeObject raw =>
      if bool_decide (raw_ColumnName raw = "") then
        (r, Some "retain object requires column_name")
      else if bool_decide (raw_AfterDate raw = "") then
        (r, Some "retain object requires after_date")
      else
        match parseDate (raw_AfterDate raw) with
        | Err err =>
            (r, Some ("invalid after_date format " +:+ Quote (raw_AfterDate raw)
                      +:+ ": " +:+ err))
        | Ok parsedDate =>
            ({| Count := Count r; ColumnName := raw_ColumnName raw;
                AfterDate := parsedDate |}, None)
        end
  end.
End parseDate.

End Config.

(** ** Package anonymiser *)

Module Anonymiser.
Import Config.

(** *** The pattern [\{\{faker\.(\w+)\}\}] *)

(** [\w]: an ASCII letter, digit or underscore. *)
Definition isWordChar (c : ascii) : bool :=
  let n := N_of_ascii c in
  ((48 <=? n) && (n <=? 57) || (65 <=? n) && (n <=? 90) ||
   (97 <=? n) && (n <=? 122) || (n =? 95))%N.

(** [s] without the prefix [p], when it starts with [p]. *)
Fixpoint stripPrefix (p s : string) : option string :=
  match p with
  | EmptyString => Some s
  | String c p' =>
      match s with
      | EmptyString => None
      | String d s' => if Ascii.eqb c d then stripPrefix p' s' else None
      end
  end.

(** The longest run of word characters at the head of [s], and the rest. *)
Fixpoint spanWord (s : string) : string * string :=
  match s with
  | EmptyString => (EmptyString, EmptyString)
  | String c s' =>
      if isWordChar c
      then let '(w, rest) := spanWord s' in (String c w, rest)
      else (EmptyString, s)
  end.

(** A match of the pattern that starts at the head of [s]: the capture
    group.  No word character is a brace, so the greedy [\w+] takes the
    whole run. *)
Definition matchHere (s : string) : option string :=
  match stripPrefix "{{faker." s with
  | None => None
  | Some s1 =>
      let '(w, rest) := spanWord s1 in
      match w with
      | EmptyString => None
      | _ => match stripPrefix "}}" rest with
             | None => None
             | Some _ => Some w
             end
      end
  end.

(** [fakerPattern.FindStringSubmatch(s)]: the capture group of the
    leftmost match. *)
Fixpoint FindStringSubmatch (s : string) : option string :=
  match matchHere s with
  | Some w => Some w
  | None =>
      match s with
      | EmptyString => None
      | String _ s' => FindStringSubmatch s'
      end
  end.

Definition ParseFakerTemplate (template : string) : string * bool :=
  match FindStringSubmatch template with
  | None => ("", false)
  | Some w => (w, true)
  end.

Definition IsFakerTemplate (s : string) : bool :=
  match FindStringSubmatch s with
  | None => false
  | Some _ => true
  end.

(** *** The generator registry *)

(** The [gofakeit] calls the registry binds. *)
Inductive gofakeitCall : Type :=
  | gofakeit_Name | gofakeit_FirstName | gofakeit_LastName | gofakeit_Email
  | gofakeit_Phone | gofakeit_Street | gofakeit_City | gofakeit_Country
  | gofakeit_Company | gofakeit_UUID | gofakeit_Username | gofakeit_Password32
  | gofakeit_IPv4Address | gofakeit_DateYMD | gofakeit_Sentence10
  | gofakeit_DigitN8.

Definition fakerFunctions : list (string * gofakeitCall) :=
  [ ("name", gofakeit_Name); ("firstName", gofakeit_FirstName);
    ("lastName", gofakeit_LastName); ("email", gofakeit_Email);
    ("phone", gofakeit_Phone); ("address", gofakeit_Street);
    ("city", gofakeit_City); ("country", gofakeit_Country);
    ("company", gofakeit_Company); ("uuid", gofakeit_UUID);
    ("username", gofakeit_Username); ("password", gofakeit_Password32);
    ("ipv4", gofakeit_IPv4Address); ("date", gofakeit_DateYMD);
    ("text", gofakeit_Sentence10); ("number", gofakeit_DigitN8) ].

Fixpoint assoc {A : Type} (k : string) (l : list (string * A)) : option A :=
  match l with
  | [] => None
  | (k', a) :: l' => if String.eqb k k' then Some a else assoc k l'
  end.

(** The key of the consistency map. *)
Definition consistencyKey (col originalStr : string) : string :=
  col +:+ ":" +:+ originalStr.

(** The string the consistency map is keyed on: the value itself when it
    is a string, the empty string otherwise. *)
Definition originalStrOf (originalVal : any) : string :=
  match originalVal with
  | VString v => v
  | _ => ""
  end.

Abbreviation row := (gmap string any).

Section generators.
(** The state of the random source behind [gofakeit], and what each call
    returns from a state. *)
Context {Rng : Type} (gofakeit : gofakeitCall → Rng → string * Rng).

Definition GetFakerFunc (name : string) : option (Rng → string * Rng) :=
  gofakeit <$> assoc name fakerFunctions.

Definition GenerateFakeValue (funcName : string) (rng : Rng) : string * Rng :=
  match GetFakerFunc funcName with
  | Some fn => fn rng
  | None => ("", rng)
  end.

(** The rows live on the heap: a Go map is a reference.  The world also
    holds the consistency map of the one [Anonymiser] of the run and the
    random source. *)
Record world : Type := mkWorld {
  heap : gmap positive row;
  consistencyMap : gmap string string;
  rand : Rng
}.

(** The contents of the map at [l]; a nil map reads as empty. *)
Definition rowAt (w : world) (l : positive) : row :=
  default ∅ (heap w !! l).

(** One iteration of the loop over [tableConfig.Columns]. *)
Definition anonymiseColumn (col rule : string)
    (st : row * gmap string string * Rng) : row * gmap string string * Rng :=
  let '(result, cmap, rng) := st in
  match result !! col with
  | None => st
  | Some originalVal =>
      if bool_decide (rule = "null") || bool_decide (rule = "")
      then (<[col := VNil]> result, cmap, rng)
      else
        let originalStr := originalStrOf originalVal in
        match FindStringSubmatch rule with
        | Some funcName =>
            let key := consistencyKey col originalStr in
            match cmap !! key with
            | Some cached => (<[col := VString cached]> result, cmap, rng)
            | None =>
                let '(newVal, rng') := GenerateFakeValue funcName rng in
                let cmap' := if bool_decide (originalStr ≠ "")
                             then <[key := newVal]> cmap else cmap in
                (<[col := VString newVal]> result, cmap', rng')
            end
        | None => (<[col := VString rule]> result, cmap, rng)
        end
  end.

(** The loop, visiting the keys of [columns] in [order]. *)
Definition anonymiseColumns (columns : gmap string string) (order : list string)
    (st : row * gmap string string * Rng) : row * gmap string string * Rng :=
  foldl (fun st col =>
           match columns !! col with
           | Some rule => anonymiseColumn col rule st
           | None => st
           end)
        st order.

(** [AnonymiseRow]: the reference it returns and the world after the
    call.  [result] is private to the call until it is returned, so the
    model stores it once, after the loop. *)
Definition AnonymiseRow (cfg : Config) (order : list string) (tableName : string)
    (rowRef : positive) (w : world) : positive * world :=
  match GetTableConfig cfg tableName with
  | None => (rowRef, w)
  | Some tableConfig =>
      match Columns tableConfig with
      | None => (rowRef, w)
      | Some columns =>
          let '(result, cmap, rng) :=
            anonymiseColumns columns order (rowAt w rowRef, consistencyMap w, rand w) in
          let resultRef := fresh (dom (heap w)) in
          (resultRef,
           {| heap := <[resultRef := result]> (heap w);
              consistencyMap := cmap; rand := rng |})
      end
  end.

(** The inner loop of [ValidateRules]. *)
Definition validateColumns (tableName : string) (columns : gmap string string)
    (order : list string) (errors : list string) : list string :=
  foldl (fun errors col =>
           match columns !! col with
           | None => errors
           | Some rule =>
               let '(funcName, isFaker) := ParseFakerTemplate rule in
               if isFaker then
                 match GetFakerFunc funcName with
                 | None => errors ++ ["unknown faker function '" +:+ funcName +:+
                                      "' for " +:+ tableName +:+ "." +:+ col]
                 | Some _ => errors
                 end
               else errors
           end)
        errors order.

(** [ValidateRules]: [tableOrder] and [columnOrder] are the orders of the
    two map traversals. *)
Definition ValidateRules (cfg : Config) (tableOrder : list string)
    (columnOrder : string → list string) : list string :=
  match Configuration cfg with
  | None => []
  | Some configuration =>
      foldl (fun errors tableName =>
               match configuration !! tableName with
               | Some (Some tableConfig) =>
                   match Columns tableConfig with
                   | Some columns =>
                       validateColumns tableName columns (columnOrder tableName) errors
                   | None => errors
                   end
               | _ => errors
               end)
            [] tableOrder
  end.

(** What can happen to the world during one export run, whose calls
    follow one another: a call of [AnonymiseRow], or the exporter reading
    and building rows, which leaves the consistency map alone.  The test
    helper [ClearConsistencyMap] is no part of a run. *)
Inductive runStep (cfg : Config) : world → world → Prop :=
  | step_anonymise order tableName rowRef w :
      runStep cfg w (AnonymiseRow cfg order tableName rowRef w).2
  | step_rows w w' :
      consistencyMap w' = consistencyMap w → runStep cfg w w'.
End generators.

End Anonymiser.

(** ** Vocabulary of the statements *)

(** Number of occurrences of [x] in [l]. *)
Definition occ (x : string) (l : list string) : nat := length (filter (x =.) l).

Module SchemaSpec.
Import Database Schema.

(** The ordering constraint the foreign keys put on two tables of the set:
    [a] depends on [b]. *)
Definition dependsOn (tables : list TableInfo) (fks : list ForeignKey)
    (a b : string) : Prop :=
  a ≠ b ∧ a ∈ Name <$> tables ∧ b ∈ Name <$> tables ∧
  ∃ fk, fk ∈ fks ∧ Table fk = a ∧ ReferencedTable fk = b.

(** A numbering of the tables that decreases along every foreign key of
    the restricted edge set; such a numbering shows that the set has no
    cycle ([rankDecreasing_acyclic]). *)
Definition rankDecreasing (rank : string → nat) (tables : list TableInfo)
    (fks : list ForeignKey) : bool :=
  forallb (λ fk,
             negb (bool_decide (Table fk ∈ Name <$> tables) &&
                   bool_decide (ReferencedTable fk ∈ Name <$> tables) &&
                   bool_decide (Table fk ≠ ReferencedTable fk))
             || bool_decide (rank (ReferencedTable fk) < rank (Table fk))%nat)
          fks.

(** The queue loop on names alone. *)
Fixpoint popNames (fuel : nat) (dependents : gmap string (list string))
    (queue : list string) (inDegree : gmap string Z) (done : list string)
  : option (list string) :=
  match queue with
  | [] => Some done
  | current :: rest =>
      match fuel with
      | O => None
      | S fuel' =>
          let '(inDegree', queue') :=
            reduceDependents (getd [] dependents current) inDegree rest in
          popNames fuel' dependents queue' inDegree' (done ++ [current])
      end
  end.

(** The invariant of the queue loop: [done] holds the tables placed so
    far, each after all the tables it depends on. *)
Record queue_inv (names : list string) (dependencies : gmap string (list string))
    (queue : list string) (inDegree : gmap string Z) (done : list string) : Prop := {
  inv_nodup : NoDup (done ++ queue);
  inv_names : ∀ t, t ∈ done ++ queue → t ∈ names;
  inv_degree : ∀ t, t ∈ names →
    getd 0 inDegree t =
    Z.of_nat (length (filter (λ d, d ∉ done) (getd [] dependencies t)));
  inv_ready : ∀ t, t ∈ names → t ∈ done ++ queue ↔ getd 0 inDegree t = 0;
  inv_sorted : ∀ i t, done !! i = Some t →
    ∀ d, d ∈ getd [] dependencies t → d ∈ take i done
}.

(** The measure of the queue loop counts the keys with a positive
    in-degree. *)
Definition posCount (keys : list string) (inDegree : gmap string Z) : nat :=
  length (filter (λ k, 0 < getd 0 inDegree k) keys).

(** The names of a sorted result. *)
Definition sortedNames (r : option (result (list TableInfo))) : option (list string) :=
  match r with
  | Some (Ok sorted) => Some (Name <$> sorted)
  | _ => None
  end.

(** Example inputs. *)
Definition table (n : string) : TableInfo :=
  {| Name := n; CreateStmt := "CREATE TABLE " +:+ n; Columns := []; RowCount := 0 |}.
Definition foreignKey (a b : string) : ForeignKey :=
  {| Table := a; Column := b +:+ "_id"; ReferencedTable := b; ReferencedColumn := "id" |}.

(** A schema with a cycle, a self-reference and a key that leaves the
    set. *)
Definition cyclicTables : list TableInfo := [table "a"; table "b"; table "x"].
Definition cyclicKeys : list ForeignKey :=
  [foreignKey "a" "b"; foreignKey "b" "a"; foreignKey "a" "a";
   foreignKey "x" "elsewhere"].

(** A list that names the table [b] twice. *)
Definition repeatedTables : list TableInfo := [table "a"; table "b"; table "b"].
Definition repeatedKeys : list ForeignKey := [foreignKey "b" "a"].

(** The shop schema of the tests, with a self-reference added. *)
Definition shopTables : list TableInfo :=
  [table "order_items"; table "orders"; table "users"; table "products"].
Definition shopKeys : list ForeignKey :=
  [foreignKey "orders" "users"; foreignKey "order_items" "orders";
   foreignKey "order_items" "products"; foreignKey "users" "users"].
Definition shopRank (n : string) : nat :=
  if bool_decide (n = "order_items") then 2%nat
  else if bool_decide (n = "orders") then 1%nat else 0%nat.

(** A parent with two children. *)
Definition familyTables : list TableInfo := [table "p"; table "c1"; table "c2"].
Definition familyKeys : list ForeignKey := [foreignKey "c1" "p"; foreignKey "c2" "p"].

End SchemaSpec.

Module ConfigSpec.
Import Config.

Section firstMatch.
Context {Time : Type} (time_Parse : string → string → result Time).

(** The result of the first format of [fs] that [time.Parse] accepts. *)
Fixpoint firstMatch (fs : list string) (s : string) : option Time :=
  match fs with
  | [] => None
  | f :: fs' =>
      match time_Parse f s with
      | Ok t => Some t
      | Err _ => firstMatch fs' s
      end
  end.
End firstMatch.

(** A stand-in for [time.Parse] on example inputs: it knows one date in
    two of the layouts and answers with the day number. *)
Definition exampleParse (layout s : string) : result Z :=
  if bool_decide (layout = "2006-01-02 15:04:05") && bool_decide (s = "2024-01-01 00:00:00")
  then Ok 19723
  else if bool_decide (layout = RFC3339) && bool_decide (s = "2024-01-01T00:00:00Z")
  then Ok 19723
  else Err "parsing time: cannot parse".

(** A stand-in for the verb [%q] on example inputs, which hold nothing to
    escape: the string between double quotes. *)
Definition exampleQuote (s : string) : string :=
  String (ascii_of_nat 34) (s +:+ String (ascii_of_nat 34) EmptyString).

End ConfigSpec.

Module AnonymiserSpec.
Import Config Anonymiser.

(** No other ruled column of the row shares the consistency key of [c]. *)
Definition keyClashFree (columns : gmap string string) (r : row) (c : string) : bool :=
  forallb (fun c' =>
             bool_decide (c' = c) ||
             match r !! c' with
             | None => true
             | Some v' =>
                 negb (String.eqb (consistencyKey c' (originalStrOf v'))
                                  (consistencyKey c (originalStrOf (default VNil (r !! c)))))
             end)
          (map_to_list columns).*1.

(** The message [ValidateRules] reports for an unknown generator. *)
Definition unknownFakerMessage (funcName tableName col : string) : string :=
  "unknown faker function '" +:+ funcName +:+ "' for " +:+ tableName +:+ "." +:+ col.

(** Example inputs.  The example random source is a call counter: the
    first three calls return three different strings. *)
Definition exampleFaker (c : gofakeitCall) (n : nat) : string * nat :=
  (match n with
   | O => "alice@example.test"
   | 1%nat => "bob@example.test"
   | _ => "carol@example.test"
   end, S n).

Definition ruled (columns : gmap string string) : option TableConfig :=
  Some {| Truncate := false; Columns := Some columns |}.

Definition usersColumns : gmap string string :=
  {[ "email" := "{{faker.email}}"; "id" := "{{faker.number}}" ]}.
Definition customersColumns : gmap string string := {[ "email" := "{{faker.email}}" ]}.
Definition staffColumns : gmap string string := {[ "email" := "{{faker.unknownFunc}}" ]}.

Definition exampleConfiguration : gmap string (option TableConfig) :=
  {[ "users" := ruled usersColumns; "customers" := ruled customersColumns;
     "staff" := ruled staffColumns ]}.

Definition exampleConfig : Config := {| Configuration := Some exampleConfiguration |}.

(** The world at the start of a run, with [rows] at the references 1, 2,
    and so on. *)
Definition exampleWorld (rows : list row) : world (Rng := nat) :=
  {| heap := list_to_map (zip (Pos.of_nat <$> seq 1 (length rows)) rows);
     consistencyMap := ∅; rand := 0%nat |}.

(** Two rows with the same integer. *)
Definition integerRows : world :=
  exampleWorld [ {[ "id" := VInt 7; "email" := VString "a@x.com" ]};
                 {[ "id" := VInt 7; "email" := VString "b@x.com" ]} ].
Definition integerCall1 : positive * world :=
  AnonymiseRow exampleFaker exampleConfig ["email"; "id"] "users" 1 integerRows.
Definition integerCall2 : positive * world :=
  AnonymiseRow exampleFaker exampleConfig ["email"; "id"] "users" 2 integerCall1.2.

(** Two rows with the same address, for [users] and for [customers]. *)
Definition sameRows : world :=
  exampleWorld [ {[ "id" := VInt 1; "email" := VString "same@example.com" ]};
                 {[ "id" := VInt 2; "email" := VString "same@example.com" ]} ].
Definition sameCall1 : positive * world :=
  AnonymiseRow exampleFaker exampleConfig ["email"; "id"] "users" 1 sameRows.
Definition sameCall2 : positive * world :=
  AnonymiseRow exampleFaker exampleConfig ["id"; "email"] "users" 2 sameCall1.2.
Definition sameCall2' : positive * world :=
  AnonymiseRow exampleFaker exampleConfig ["email"] "customers" 2 sameCall1.2.

(** Two rows with an empty address. *)
Definition emptyRows : world :=
  exampleWorld [ {[ "email" := VString "" ]}; {[ "email" := VString "" ]} ].
Definition emptyCall1 : positive * world :=
  AnonymiseRow exampleFaker exampleConfig ["email"; "id"] "users" 1 emptyRows.
Definition emptyCall2 : positive * world :=
  AnonymiseRow exampleFaker exampleConfig ["email"] "customers" 2 emptyCall1.2.

(** One row, for [staff] (unknown generator), [customers] and [orders]
    (no configuration). *)
Definition johnRow : row := {[ "id" := VInt 1; "email" := VString "john@example.com" ]}.
Definition johnRows : world := exampleWorld [johnRow].
Definition staffCall : positive * world :=
  AnonymiseRow exampleFaker exampleConfig ["email"] "staff" 1 johnRows.
Definition customersCall : positive * world :=
  AnonymiseRow exampleFaker exampleConfig ["email"] "customers" 1 johnRows.
Definition ordersCall : positive * world :=
  AnonymiseRow exampleFaker exampleConfig [] "orders" 1 johnRows.
(** A table whose rule map is empty, not nil. *)
Definition emptyRulesConfig : Config :=
  {| Configuration := Some {[ "logs" := ruled ∅ ]} |}.
Definition emptyRulesCall : positive * world :=
  AnonymiseRow exampleFaker emptyRulesConfig [] "logs" 1 johnRows.
Definition exampleColumnOrder (tableName : string) : list string :=
  if bool_decide (tableName = "users") then ["id"; "email"] else ["email"].

End AnonymiserSpec.

(** * Further packages

    The functions around the export core: the introspection of the schema,
    the queries of the tracker, the drivers' quoting and streaming, and the
    configuration. *)

(** ** Package schema: introspection *)

Module Introspection.
Import Database Schema.

(** The methods of the [Driver] interface that [GetAllTables] calls; the
    answers of the database are a snapshot. *)
Record Introspector : Type := mkIntrospector {
  GetTables : result (list string);
  GetTableSchema : string → result string;
  GetColumns : string → result (list ColumnInfo);
  GetRowCount : string → result Z
}.

(** The loop of [GetAllTables] over the remaining table names. *)
Fixpoint collectTableInfos (driver : Introspector) (tables : list string)
    (tableInfos : list TableInfo) : result (list TableInfo) :=
  match tables with
  | [] => Ok tableInfos
  | table :: rest =>
      match GetTableSchema driver table with
      | Err err => Err ("failed to get schema for " +:+ table +:+ ": " +:+ err)
      | Ok schema =>
          match GetColumns driver table with
          | Err err => Err ("failed to get columns for " +:+ table +:+ ": " +:+ err)
          | Ok columns =>
              match GetRowCount driver table with
              | Err err => Err ("failed to get row count for " +:+ table +:+ ": " +:+ err)
              | Ok rowCount =>
                  collectTableInfos driver rest
                    (tableInfos ++ [{| Name := table; CreateStmt := schema;
                                       Columns := columns; RowCount := rowCount |}])
              end
          end
      end
  end.

Definition GetAllTables (driver : Introspector) : result (list TableInfo) :=
  match GetTables driver with
  | Err err => Err ("failed to get tables: " +:+ err)
  | Ok tables => collectTableInfos driver tables []
  end.

(** [GetForeignKeyMap]: the driver's error is returned as it is. *)
Definition GetForeignKeyMap (driver : Driver) : result (gmap string (list ForeignKey)) :=
  match GetForeignKeys driver with
  | Err err => Err err
  | Ok fks =>
      Ok (foldl (fun fkMap fk => <[Table fk := getd [] fkMap (Table fk) ++ [fk]]> fkMap)
                ∅ fks)
  end.

(** The foreign keys that order two tables of the set. *)
Definition relevantKey (tables : list TableInfo) (fk : ForeignKey) : Prop :=
  Table fk ∈ Name <$> tables ∧ ReferencedTable fk ∈ Name <$> tables ∧
  Table fk ≠ ReferencedTable fk.

#[global] Instance relevantKey_dec tables fk : Decision (relevantKey tables fk).
Proof. unfold relevantKey. apply _. Defined.

(** Example inputs: a database of two tables. *)
Definition exampleIntrospector : Introspector :=
  {| GetTables := Ok ["orders"; "users"];
     GetTableSchema := fun table => Ok ("CREATE TABLE " +:+ table);
     GetColumns := fun _ => Ok [];
     GetRowCount := fun _ => Ok 0 |}.
Definition exampleInfos : list TableInfo := [SchemaSpec.table "orders"; SchemaSpec.table "users"].
Definition exampleKeys : list ForeignKey := [SchemaSpec.foreignKey "orders" "users"].

End Introspection.

(** ** Package fktracker: the exported values *)

Module TrackerOps.
Import Fktracker.

(** A string without a dot. *)
Fixpoint dotFree (s : string) : bool :=
  match s with
  | EmptyString => true
  | String c s' => negb (Ascii.eqb c ".") && dotFree s'
  end.

(** What [GetExportedValues] may return: the traversal of the set has no
    fixed order. *)
Definition exportedValuesResult (t : Tracker) (table column : string)
    (r : option (list any)) : Prop :=
  match exportedKeys t !! makeKey table column with
  | None => r = None
  | Some values =>
      if bool_decide (length values = 0%nat) then r = None
      else ∃ result, r = Some result ∧ result ≡ₚ values
  end.

(** Example inputs. *)
Definition exampleRecords : list (string * string * any) :=
  [("users", "id", VInt32 7); ("users", "uuid", VBytes ["a"%char; "b"%char])].
Definition exampleTracker : Tracker := recordAll NewTracker exampleRecords.

End TrackerOps.

(** ** Package database: the drivers *)

Module Drivers.

Inductive DriverKind : Type := MySQLDriver | PostgresDriver | SQLiteDriver.

Definition NewDriver (dbType : string) : result DriverKind :=
  if bool_decide (dbType = "mysql") then Ok MySQLDriver
  else if bool_decide (dbType = "postgres") then Ok PostgresDriver
  else if bool_decide (dbType = "sqlite") then Ok SQLiteDriver
  else Err ("unsupported database type: " +:+ dbType).

Definition GetDatabaseType (d : DriverKind) : string :=
  match d with
  | MySQLDriver => "mysql"
  | PostgresDriver => "postgres"
  | SQLiteDriver => "sqlite"
  end.

(** [strings.ReplaceAll(s, old, new)] for an [old] of one byte. *)
Fixpoint ReplaceAll (s : string) (old : ascii) (new : string) : string :=
  match s with
  | EmptyString => EmptyString
  | String c s' =>
      if Ascii.eqb c old then new +:+ ReplaceAll s' old new
      else String c (ReplaceAll s' old new)
  end.

(** The backtick of MySQL and the double quote of PostgreSQL and SQLite. *)
Definition backtick : ascii := ascii_of_nat 96.
Definition doubleQuote : ascii := ascii_of_nat 34.

Definition quoteChar (d : DriverKind) : ascii :=
  match d with
  | MySQLDriver => backtick
  | PostgresDriver | SQLiteDriver => doubleQuote
  end.

Definition QuoteIdentifier (d : DriverKind) (name : string) : string :=
  let q := quoteChar d in
  String q (ReplaceAll name q (String q (String q EmptyString)) +:+ String q EmptyString).

(** How SQL reads a quoted identifier: the text up to the closing quote,
    a doubled quote standing for one, and the rest of the input. *)
Fixpoint readQuotedBody (q : ascii) (s : string) : option (string * string) :=
  match s with
  | EmptyString => None
  | String c s' =>
      if Ascii.eqb c q then
        match s' with
        | EmptyString => Some (EmptyString, EmptyString)
        | String c' s'' =>
            if Ascii.eqb c' q then
              match readQuotedBody q s'' with
              | Some (name, rest) => Some (String q name, rest)
              | None => None
              end
            else Some (EmptyString, s')
        end
      else
        match readQuotedBody q s' with
        | Some (name, rest) => Some (String c name, rest)
        | None => None
        end
  end.

Definition readQuoted (q : ascii) (s : string) : option (string * string) :=
  match s with
  | EmptyString => None
  | String c s' => if Ascii.eqb c q then readQuotedBody q s' else None
  end.

Definition startsWith (q : ascii) (s : string) : bool :=
  match s with
  | EmptyString => false
  | String c _ => Ascii.eqb c q
  end.

End Drivers.

(** ** Package config: connection and table registry *)

Module ConfigOps.
Import Config.

Record Connection : Type := mkConnection {
  Type_ : string;
  Host : string;
  Port : Z;
  Username : string;
  Password : string;
  DatabaseName : string;
  File : string
}.

Section validate.
Context (Quote : string → string).

(** [Config.Validate], which reads the connection only: the error, [None]
    for nil.  [Quote] is the verb [%q]. *)
Definition Validate (c : Connection) : option string :=
  if negb (bool_decide (Type_ c = "mysql") || bool_decide (Type_ c = "postgres") ||
           bool_decide (Type_ c = "sqlite"))
  then Some ("invalid connection type " +:+ Quote (Type_ c) +:+
             ", must be mysql, postgres, or sqlite")
  else if bool_decide (Type_ c = "sqlite") then
    if bool_decide (File c = "") then Some "sqlite connection requires 'file' parameter"
    else None
  else if bool_decide (Host c = "") then Some "connection requires 'host' parameter"
  else if bool_decide (DatabaseName c = "") then
    Some "connection requires 'database_name' parameter"
  else None.
End validate.

(** [Connection.DSN]; the verb [%d] prints the port in decimal. *)
Definition DSN (c : Connection) : string :=
  if bool_decide (Type_ c = "mysql") then
    let port := if bool_decide (Port c = 0) then 3306 else Port c in
    Username c +:+ ":" +:+ Password c +:+ "@tcp(" +:+ Host c +:+ ":" +:+ pretty port
      +:+ ")/" +:+ DatabaseName c +:+ "?parseTime=true&multiStatements=true"
  else if bool_decide (Type_ c = "postgres") then
    let port := if bool_decide (Port c = 0) then 5432 else Port c in
    "host=" +:+ Host c +:+ " port=" +:+ pretty port +:+ " user=" +:+ Username c
      +:+ " password=" +:+ Password c +:+ " dbname=" +:+ DatabaseName c
      +:+ " sslmode=disable"
  else if bool_decide (Type_ c = "sqlite") then File c
  else "".

(** [AddTable]: what it returns and the configuration after the call. *)
Definition AddTable (c : Config) (tableName : string) (tableConfig : option TableConfig)
  : bool * Config :=
  let configuration := match Configuration c with
                       | None => ∅
                       | Some configuration => configuration
                       end in
  match configuration !! tableName with
  | Some _ => (false, {| Configuration := Some configuration |})
  | None => (true, {| Configuration := Some (<[tableName := tableConfig]> configuration) |})
  end.

Definition HasTable (c : Config) (tableName : string) : bool :=
  match Configuration c with
  | None => false
  | Some configuration => bool_decide (is_Some (configuration !! tableName))
  end.

(** [ListTables]: nil for a nil configuration, else the keys in the order
    of the traversal. *)
Definition ListTables (c : Config) (order : list string) : option (list string) :=
  match Configuration c with
  | None => None
  | Some configuration =>
      Some (foldl (fun tables name =>
                     match configuration !! name with
                     | Some _ => tables ++ [name]
                     | None => tables
                     end) [] order)
  end.

Section retain.
Context {Time : Type} (IsZero : Time → bool).

Definition IsDateBased (r : RetainConfig (Time := Time)) : bool :=
  negb (bool_decide (ColumnName r = "")) && negb (IsZero (AfterDate r)).

Definition IsCountBased (r : RetainConfig (Time := Time)) : bool :=
  bool_decide (0 < Count r).

Definition IsEmpty (r : RetainConfig (Time := Time)) : bool :=
  bool_decide (Count r = 0) && bool_decide (ColumnName r = "") && IsZero (AfterDate r).

(** What [MarshalYAML] and [MarshalJSON] hand to the encoder: a map of two
    strings, an integer, or nil. *)
Inductive marshalled : Type :=
  | MarshalObject (column_name after_date : string)
  | MarshalInt (n : Z)
  | MarshalNil.

(** [Format] is [time.Time.Format]. *)
Definition Marshal (Format : Time → string → string) (r : RetainConfig (Time := Time))
  : marshalled :=
  if IsDateBased r then MarshalObject (ColumnName r) (Format (AfterDate r) "2006-01-02")
  else if bool_decide (0 < Count r) then MarshalInt (Count r)
  else MarshalNil.
End retain.

(** The two loops of [runSync] between the driver's answer and the saving
    of the file: the tables the configuration lacks, and their entry. *)
Definition newTables (cfg : Config) (dbTables : list string) : list string :=
  foldl (fun newTables table =>
           if negb (HasTable cfg table) then newTables ++ [table] else newTables)
        [] dbTables.

Definition addNewTables (cfg : Config) (newTables : list string) (syncTruncate : bool)
  : Config :=
  foldl (fun cfg table =>
           let tableConfig :=
             if syncTruncate then {| Truncate := true; Columns := None |}
             else {| Truncate := false; Columns := None |} in
           (AddTable cfg table (Some tableConfig)).2)
        cfg newTables.

(** The table map of a configuration, empty for nil. *)
Definition tablesOf (c : Config) : gmap string (option TableConfig) :=
  default ∅ (Configuration c).

(** The entry the sync command makes for a new table. *)
Definition syncEntry (syncTruncate : bool) : TableConfig :=
  {| Truncate := syncTruncate; Columns := None |}.

(** Example inputs. *)
Definition exampleConnection : Connection :=
  {| Type_ := "sqlite"; Host := ""; Port := 0; Username := ""; Password := "";
     DatabaseName := ""; File := "shop.db" |}.
Definition exampleRetain : retainNode :=
  NodeObject {| raw_ColumnName := "created_at"; raw_AfterDate := "2024-01-01 00:00:00" |}.
Definition exampleRetained : RetainConfig (Time := Z) :=
  {| Count := 0; ColumnName := "created_at"; AfterDate := 19723 |}.
Definition exampleIsZero (t : Z) : bool := Z.eqb t 0.
Definition exampleFormat (t : Z) (layout : string) : string := pretty t.

End ConfigOps.

(** ** Package database: streaming the rows *)

Module Stream.

(** [string(b)] for a scanned [[]byte], any other value as it is. *)
Definition scanned (val : any) : any :=
  match val with
  | VBytes b => VString (string_of_list_ascii b)
  | _ => val
  end.

(** The map of one scanned row; [values] is made with the length of
    [colNames]. *)
Definition toRow (colNames : list string) (values : list any) : gmap string any :=
  foldl (fun row '(col, val) => <[col := scanned val]> row) ∅ (zip colNames values).

Section callback.
Context {S : Type} (callback : list (gmap string any) → S → S * option string).

(** The loop of [StreamRows] over the result set and the delivery of the
    last batch.  [scans] is what [rows.Next] and [rows.Scan] produce row
    by row, [rowsErr] what [rows.Err] returns at the end, [S] the state
    the callback works on. *)
Fixpoint streamLoop (colNames : list string) (scans : list (result (list any)))
    (rowsErr : option string) (batchSize : Z) (batch : list (gmap string any)) (s : S)
  : S * option string :=
  match scans with
  | [] =>
      if bool_decide (0 < length batch)%nat then
        match callback batch s with
        | (s', Some err) => (s', Some err)
        | (s', None) => (s', rowsErr)
        end
      else (s, rowsErr)
  | Err err :: _ => (s, Some ("failed to scan row: " +:+ err))
  | Ok values :: rest =>
      let batch := batch ++ [toRow colNames values] in
      if bool_decide (batchSize ≤ Z.of_nat (length batch)) then
        match callback batch s with
        | (s', Some err) => (s', Some err)
        | (s', None) => streamLoop colNames rest rowsErr batchSize [] s'
        end
      else streamLoop colNames rest rowsErr batchSize batch s
  end.

(** [StreamRows] from the allocation of the first batch on; [make] panics
    on a negative capacity ([None]). *)
Definition streamBatches (colNames : list string) (scans : list (result (list any)))
    (rowsErr : option string) (batchSize : Z) (s : S) : option (S * option string) :=
  if bool_decide (batchSize < 0) then None
  else Some (streamLoop colNames scans rowsErr batchSize [] s).

(** Calling the callback on one batch after the other, up to the first
    error. *)
Fixpoint deliver (batches : list (list (gmap string any))) (final : option string) (s : S)
  : S * option string :=
  match batches with
  | [] => (s, final)
  | batch :: rest =>
      match callback batch s with
      | (s', Some err) => (s', Some err)
      | (s', None) => deliver rest final s'
      end
  end.
End callback.

(** The callback that keeps a log of the batches it is given. *)
Definition record (batch : list (gmap string any)) (log : list (list (gmap string any)))
  : list (list (gmap string any)) * option string :=
  (log ++ [batch], None).

(** Batches of [size] rows, the last one of fewer perhaps, none empty. *)
Definition chunked {A} (size : nat) (batches : list (list A)) : Prop :=
  ∀ i b, batches !! i = Some b →
         (0 < length b ≤ size)%nat ∧ ((i + 1 < length batches)%nat → length b = size).

(** Example inputs: a result set of three rows. *)
Definition exampleColumns : list string := ["id"; "name"].
Definition exampleValues : list (list any) :=
  [ [VInt64 1; VBytes ["A"%char]]; [VInt64 2; VString "B"]; [VInt64 3; VNil] ].

End Stream.

(** ** Package anonymiser: the table queries *)

Module AnonymiserOps.
Import Config Anonymiser.

Definition ShouldTruncate (cfg : Config) (tableName : string) : bool :=
  match GetTableConfig cfg tableName with
  | None => false
  | Some tableConfig => Truncate tableConfig
  end.

(** [len(tableConfig.Columns) > 0]; a nil map has length 0. *)
Definition HasAnonymisation (cfg : Config) (tableName : string) : bool :=
  match GetTableConfig cfg tableName with
  | None => false
  | Some tableConfig =>
      match Columns tableConfig with
      | None => false
      | Some columns => bool_decide (0 < size columns)%nat
      end
  end.

(** [GetAnonymisedColumns]: nil without column rules, else the ruled
    columns in the order of the traversal. *)
Definition GetAnonymisedColumns (cfg : Config) (order : list string) (tableName : string)
  : option (list string) :=
  match GetTableConfig cfg tableName with
  | None => None
  | Some tableConfig =>
      match Columns tableConfig with
      | None => None
      | Some columns =>
          Some (foldl (fun cols col =>
                         match columns !! col with
                         | Some _ => cols ++ [col]
                         | None => cols
                         end) [] order)
      end
  end.

Definition ClearConsistencyMap {Rng : Type} (w : world (Rng := Rng)) : world :=
  {| heap := heap w; consistencyMap := ∅; rand := rand w |}.

(** [ListFakerFunctions]: the names of the registry in the order of the
    traversal. *)
Definition ListFakerFunctions (order : list string) : list string :=
  foldl (fun names name =>
           match assoc name fakerFunctions with
           | Some _ => names ++ [name]
           | None => names
           end) [] order.

(** A run of word characters, and one that is not empty. *)
Fixpoint wordChars (w : string) : bool :=
  match w with
  | EmptyString => true
  | String c w' => isWordChar c && wordChars w'
  end.

Definition isWord (w : string) : bool :=
  match w with
  | EmptyString => false
  | _ => wordChars w
  end.

(** The text a template for the generator [w] consists of. *)
Definition template (w : string) : string := "{{faker." +:+ w +:+ "}}".

(** The value a rule without a template puts in place of any other. *)
Definition literalRule (rule : string) : any :=
  if bool_decide (rule = "null") || bool_decide (rule = "") then VNil else VString rule.

(** Example inputs: a table whose rules hold no template, and one with an
    unknown generator. *)
Definition auditColumns : gmap string string := {[ "ip" := "null"; "note" := "redacted" ]}.
Definition auditConfig : Config :=
  {| Configuration := Some {[ "audit" := AnonymiserSpec.ruled auditColumns ]} |}.
Definition auditWorld : world (Rng := nat) :=
  AnonymiserSpec.exampleWorld
    [ {[ "id" := VInt 1; "ip" := VString "10.0.0.1"; "note" := VNil ]} ].
Definition staffConfiguration : gmap string (option TableConfig) :=
  {[ "staff" := AnonymiserSpec.ruled AnonymiserSpec.staffColumns ]}.
Definition staffConfig : Config := {| Configuration := Some staffConfiguration |}.

(** A rule with two templates, the second of an unknown generator. *)
Definition twoTemplatesConfig : Config :=
  {| Configuration :=
       Some {[ "notes" := AnonymiserSpec.ruled
                            {[ "body" := "{{faker.email}} {{faker.bogus}}" ]} ]} |}.

End AnonymiserOps.

(** * Properties *)

Import Database Schema SchemaSpec.

(** ** Maps and traversal orders *)

Lemma getd_insert {V} (z : V) m k v k' :
  getd z (<[k := v]> m) k' = if decide (k = k') then v else getd z m k'.
Proof. unfold getd. rewrite lookup_insert. by case_decide. Qed.

Lemma getd_empty {V} (z : V) k : getd z ∅ k = z.
Proof. unfold getd. by rewrite lookup_empty. Qed.

Lemma range_order_NoDup {V} (m : gmap string V) order :
  range_order m order → NoDup order.
Proof. unfold range_order. intros ->. apply NoDup_fst_map_to_list. Qed.

Lemma range_order_elem_of {V} (m : gmap string V) order k :
  range_order m order → k ∈ order ↔ is_Some (m !! k).
Proof.
  unfold range_order. intros ->. rewrite list_elem_of_fmap. split.
  - intros [[k' v] [-> Hin]]. apply elem_of_map_to_list in Hin. eauto.
  - intros [v Hv]. exists (k, v). split; [done|]. by apply elem_of_map_to_list.
Qed.

Lemma occ_nil x : occ x [] = 0%nat.
Proof. done. Qed.
Lemma occ_cons x y l : occ x (y :: l) = ((if decide (x = y) then 1 else 0) + occ x l)%nat.
Proof. unfold occ. rewrite filter_cons. by case_decide. Qed.
Lemma occ_app x l k : occ x (l ++ k) = (occ x l + occ x k)%nat.
Proof. unfold occ. by rewrite filter_app, length_app. Qed.
Lemma occ_pos x l : (0 < occ x l)%nat ↔ x ∈ l.
Proof.
  induction l as [|y l IH]; [rewrite occ_nil; split; [lia|by intros ?%elem_of_nil]|].
  rewrite occ_cons, elem_of_cons. case_decide; [subst; split; [auto|lia]|].
  rewrite <-IH. simpl. split; [auto|]. intros [?|?]; [done|lia].
Qed.
Lemma occ_zero x l : occ x l = 0%nat ↔ x ∉ l.
Proof. rewrite <-occ_pos. lia. Qed.

Section initial.
Context (tables : list TableInfo).
Local Abbreviation names := (Name <$> tables).

Lemma initTables_lookup n :
  (initTables tables).1 !! n = (if decide (n ∈ names) then Some [] else None) ∧
  (initTables tables).2 !! n = (if decide (n ∈ names) then Some true else None).
Proof.
  unfold initTables. induction tables as [|t ts IH] using rev_ind.
  - simpl. by rewrite !lookup_empty.
  - rewrite foldl_app. simpl.
    destruct (foldl _ _ ts) as [dependencies tableSet] eqn:E. simpl in *.
    destruct IH as [IHd IHs]. rewrite fmap_app. simpl.
    destruct (decide (n = Name t)) as [->|Hne].
    + rewrite lookup_insert_eq.
      rewrite !decide_True by set_solver. split; [|done].
      destruct (dependencies !! Name t) eqn:El.
      * rewrite El. rewrite IHd in El. by case_decide.
      * by rewrite lookup_insert_eq.
    + rewrite lookup_insert_ne by done. split.
      * destruct (dependencies !! Name t); [|rewrite lookup_insert_ne by done];
          rewrite IHd; repeat case_decide; set_solver.
      * rewrite IHs; repeat case_decide; set_solver.
Qed.

Lemma tableSet_true n : getd false (initTables tables).2 n = true ↔ n ∈ names.
Proof.
  unfold getd. rewrite (proj2 (initTables_lookup n)). by case_decide.
Qed.
End initial.

(** ** Dependency ordering *)

Section dependencies.
Context (tables : list TableInfo).
Local Abbreviation names := (Name <$> tables).

Lemma addForeignKeys_lookup fks t :
  addForeignKeys (initTables tables).2 fks (initTables tables).1 !! t =
  if decide (t ∈ names)
  then Some (ReferencedTable <$>
               filter (λ fk, Table fk = t ∧ ReferencedTable fk ∈ names ∧
                             Table fk ≠ ReferencedTable fk) fks)
  else None.
Proof.
  unfold addForeignKeys. induction fks as [|fk fks IH] using rev_ind.
  - simpl. apply initTables_lookup.
  - rewrite foldl_app, filter_app, fmap_app. simpl.
    set (D := foldl _ _ fks) in *.
    destruct (getd false _ (Table fk)) eqn:E1; simpl.
    2:{ rewrite IH. case_decide; [|done]. rewrite filter_cons_False, filter_nil.
        - by rewrite app_nil_r.
        - intros (Ht & _ & _). rewrite Ht in E1. apply tableSet_true in H. congruence. }
    apply tableSet_true in E1.
    destruct (getd false _ (ReferencedTable fk)) eqn:E2; simpl.
    2:{ rewrite IH. case_decide; [|done]. rewrite filter_cons_False, filter_nil.
        - by rewrite app_nil_r.
        - intros (_ & Hin & _). apply tableSet_true in Hin. congruence. }
    apply tableSet_true in E2.
    case_bool_decide as Hne.
    2:{ rewrite IH. case_decide; [|done]. rewrite filter_cons_False, filter_nil.
        - by rewrite app_nil_r.
        - intros (_ & _ & ?). done. }
    destruct (decide (Table fk = t)) as [<-|Hnt].
    + rewrite lookup_insert_eq, decide_True by done.
      rewrite filter_cons_True, filter_nil by done. simpl.
      unfold getd. rewrite IH, decide_True by done. done.
    + rewrite lookup_insert_ne by done. rewrite IH. case_decide; [|done].
      rewrite filter_cons_False, filter_nil; [by rewrite app_nil_r|].
      intros (? & _). done.
Qed.

Lemma buildDependencies_lookup fks t :
  buildDependencies tables fks !! t =
  if decide (t ∈ names)
  then Some (ReferencedTable <$>
               filter (λ fk, Table fk = t ∧ ReferencedTable fk ∈ names ∧
                             Table fk ≠ ReferencedTable fk) fks)
  else None.
Proof.
  unfold buildDependencies. rewrite <-addForeignKeys_lookup.
  by destruct (initTables tables).
Qed.

Lemma buildDependencies_is_Some fks t :
  is_Some (buildDependencies tables fks !! t) ↔ t ∈ names.
Proof.
  rewrite buildDependencies_lookup. case_decide; split; try done.
Qed.

Lemma elem_of_buildDependencies fks t d :
  d ∈ getd [] (buildDependencies tables fks) t ↔ dependsOn tables fks t d.
Proof.
  unfold getd, dependsOn. rewrite buildDependencies_lookup. case_decide; simpl.
  - rewrite list_elem_of_fmap. split.
    + intros (fk & -> & Hin). apply list_elem_of_filter in Hin.
      destruct Hin as [(<- & ? & ?) ?]. eauto 10.
    + intros (? & ? & ? & fk & ? & <- & <-). exists fk. split; [done|].
      apply list_elem_of_filter. eauto.
  - split; [by intros ?%elem_of_nil|]. intros (? & ? & _). done.
Qed.
End dependencies.

Section dependents.
Context (dependencies : gmap string (list string)).
Local Abbreviation depsOf := (getd [] dependencies).

Lemma addDependents_spec table deps dependents inDegree :
  let r := addDependents table deps (dependents, inDegree) in
  (∀ d t, occ t (getd [] r.1 d) =
          (occ t (getd [] dependents d) + if decide (t = table) then occ d deps else 0)%nat) ∧
  (∀ t, getd 0 r.2 t =
        getd 0 inDegree t + if decide (t = table) then Z.of_nat (length deps) else 0).
Proof.
  unfold addDependents.
  revert dependents inDegree. induction deps as [|dep deps IH]; intros dependents inDegree.
  - simpl. split; intros; case_decide; rewrite ?occ_nil; lia.
  - simpl. destruct (IH (<[dep := getd [] dependents dep ++ [table]]> dependents)
                        (<[table := getd 0 inDegree table + 1]> inDegree)) as [IH1 IH2].
    split.
    + intros d t. rewrite IH1, getd_insert, occ_cons.
      destruct (decide (dep = d)) as [->|?].
      * rewrite occ_app, occ_cons, occ_nil.
        rewrite (decide_True (P := d = d)) by done.
        repeat case_decide; try congruence; lia.
      * rewrite (decide_False (P := d = dep)) by congruence.
        repeat case_decide; lia.
    + intros t. rewrite IH2, getd_insert.
      repeat case_decide; subst; try congruence; simpl length; lia.
Qed.

Lemma buildDependents_spec order inDegree0 :
  NoDup order →
  let r := buildDependents order dependencies inDegree0 in
  (∀ d t, occ t (getd [] r.1 d) = if decide (t ∈ order) then occ d (depsOf t) else 0%nat) ∧
  (∀ t, getd 0 r.2 t =
        getd 0 inDegree0 t + if decide (t ∈ order) then Z.of_nat (length (depsOf t)) else 0).
Proof.
  unfold buildDependents. induction order as [|table order IH] using rev_ind; intros Hnd.
  - simpl. split; intros.
    + by rewrite getd_empty, occ_nil.
    + lia.
  - apply NoDup_app in Hnd as (Hnd & Hnin & _).
    rewrite foldl_app. simpl.
    destruct (foldl _ _ order) as [dependents inDegree] eqn:E.
    destruct (IH Hnd) as [IH1 IH2]. simpl in IH1, IH2.
    destruct (addDependents_spec table (depsOf table) dependents inDegree) as [A1 A2].
    split.
    + intros d t. rewrite A1, IH1.
      destruct (decide (t = table)) as [->|?].
      * rewrite decide_False, decide_True by set_solver. done.
      * destruct (decide (t ∈ order)).
        -- rewrite decide_True by set_solver. lia.
        -- rewrite decide_False by set_solver. lia.
    + intros t. rewrite A2, IH2.
      destruct (decide (t = table)) as [->|?].
      * rewrite decide_False, decide_True by set_solver. lia.
      * destruct (decide (t ∈ order)).
        -- rewrite decide_True by set_solver. lia.
        -- rewrite decide_False by set_solver. lia.
Qed.
End dependents.

Lemma initInDegree_getd tables t : getd 0 (initInDegree tables) t = 0.
Proof.
  unfold initInDegree. induction tables as [|x l IH] using rev_ind.
  - apply getd_empty.
  - rewrite foldl_app. simpl. rewrite getd_insert. by case_decide.
Qed.

Lemma reduceDependents_spec ds inDegree queue :
  (∀ t, t ∈ ds → Z.of_nat (occ t ds) ≤ getd 0 inDegree t) →
  ∃ added,
    (reduceDependents ds inDegree queue).2 = queue ++ added ∧
    NoDup added ∧
    (∀ t, t ∈ added ↔ t ∈ ds ∧ getd 0 inDegree t = Z.of_nat (occ t ds)) ∧
    (∀ t, getd 0 (reduceDependents ds inDegree queue).1 t =
          getd 0 inDegree t - Z.of_nat (occ t ds)).
Proof.
  revert inDegree queue. induction ds as [|x ds IH]; intros inDegree queue Hle.
  - exists []. simpl. rewrite app_nil_r.
    split; [done|]. split; [apply NoDup_nil_2|]. split; [|intros; rewrite occ_nil; lia].
    intros t. split; [by intros ?%elem_of_nil|]. by intros [?%elem_of_nil _].
  - simpl. set (inDegree1 := <[x := getd 0 inDegree x - 1]> inDegree).
    assert (Hx1 : getd 0 inDegree1 x = getd 0 inDegree x - 1).
    { unfold inDegree1. rewrite getd_insert. by rewrite decide_True. }
    assert (Hne1 : ∀ t, t ≠ x → getd 0 inDegree1 t = getd 0 inDegree t).
    { intros t ?. unfold inDegree1. rewrite getd_insert. by rewrite decide_False. }
    assert (Hocc : ∀ t, occ t (x :: ds) =
                        ((if decide (t = x) then 1 else 0) + occ t ds)%nat)
      by (intros; apply occ_cons).
    assert (Hle1 : ∀ t, t ∈ ds → Z.of_nat (occ t ds) ≤ getd 0 inDegree1 t).
    { intros t Ht. assert (Ht' : t ∈ x :: ds) by set_solver. specialize (Hle t Ht').
      rewrite Hocc in Hle. destruct (decide (t = x)) as [->|?].
      - rewrite Hx1. lia.
      - rewrite Hne1 by done. lia. }
    assert (Hxin0 : x ∈ x :: ds) by set_solver. pose proof (Hle x Hxin0) as Hlex.
    rewrite Hocc, decide_True in Hlex by done.
    destruct (getd 0 inDegree1 x =? 0) eqn:Ez.
    + apply Z.eqb_eq in Ez.
      destruct (IH inDegree1 (queue ++ [x]) Hle1) as (added & Hq & Hnd & Hin & Hdeg).
      assert (Hx0 : occ x ds = 0%nat) by lia.
      exists (x :: added). split_and!.
      * rewrite Hq. by rewrite <-app_assoc.
      * constructor; [|done]. intros [Hxin _]%Hin. apply occ_pos in Hxin. lia.
      * intros t. rewrite elem_of_cons, Hin, elem_of_cons, Hocc.
        destruct (decide (t = x)) as [->|?].
        -- split; [|auto]. intros _. split; [auto|lia].
        -- rewrite Hne1 by done. split.
           ++ intros [?|[? ?]]; [done|]. split; [auto|lia].
           ++ intros [[?|?] ?]; [done|]. right. split; [done|lia].
      * intros t. rewrite Hdeg, Hocc. destruct (decide (t = x)) as [->|?].
        -- rewrite Hx1. lia.
        -- rewrite Hne1 by done. lia.
    + apply Z.eqb_neq in Ez.
      destruct (IH inDegree1 queue Hle1) as (added & Hq & Hnd & Hin & Hdeg).
      exists added. split_and!; [done|done| |].
      * intros t. rewrite Hin, elem_of_cons, Hocc.
        destruct (decide (t = x)) as [->|?].
        -- rewrite Hx1. split.
           ++ intros [? ?]. split; [auto|lia].
           ++ intros [_ ?]. split; [|lia]. apply occ_pos. lia.
        -- rewrite Hne1 by done. split.
           ++ intros [? ?]. split; [auto|lia].
           ++ intros [[?|?] ?]; [done|]. split; [done|lia].
      * intros t. rewrite Hdeg, Hocc. destruct (decide (t = x)) as [->|?].
        -- rewrite Hx1. lia.
        -- rewrite Hne1 by done. lia.
Qed.

Lemma length_filter_not_in_snoc (done l : list string) c :
  c ∉ done →
  (length (filter (λ d, d ∉ done ++ [c]) l) + occ c l =
   length (filter (λ d, d ∉ done) l))%nat.
Proof.
  intros Hc. induction l as [|y l IH]; [done|].
  rewrite occ_cons, !filter_cons. destruct (decide (c = y)) as [<-|Hne].
  - rewrite decide_False by set_solver. rewrite decide_True by done.
    simpl. lia.
  - destruct (decide (y ∈ done)).
    + rewrite !decide_False by set_solver. lia.
    + rewrite !decide_True by set_solver. simpl. lia.
Qed.

Lemma processQueue_popNames fuel dependents tableMap queue inDegree done :
  processQueue fuel dependents tableMap queue inDegree (getd zeroTableInfo tableMap <$> done) =
  fmap (M := list) (getd zeroTableInfo tableMap) <$> popNames fuel dependents queue inDegree done.
Proof.
  revert queue inDegree done. induction fuel as [|fuel IH]; intros queue inDegree done;
    destruct queue as [|c rest]; try reflexivity.
  simpl.
  destruct (reduceDependents (getd [] dependents c) inDegree rest) as [inDegree' queue'].
  rewrite <-IH. by rewrite fmap_app.
Qed.

Section kahn.
Context (names : list string).
Context (dependencies dependents : gmap string (list string)).
Local Abbreviation depsOf := (getd [] dependencies).
Context (Hdeps_names : ∀ t d, d ∈ depsOf t → t ∈ names ∧ d ∈ names).
Context (Hdependents : ∀ d t, occ t (getd [] dependents d) = occ d (depsOf t)).

Lemma queue_inv_step current rest inDegree done :
  queue_inv names dependencies (current :: rest) inDegree done →
  queue_inv names dependencies
            (reduceDependents (getd [] dependents current) inDegree rest).2
            (reduceDependents (getd [] dependents current) inDegree rest).1
            (done ++ [current]).
Proof.
  intros [Hnd Hnames Hdeg Hready Hsorted].
  assert (Hcur : current ∉ done).
  { apply NoDup_app in Hnd as (_ & Hdisj & _). intros Hin.
    apply (Hdisj _ Hin). left. }
  assert (Hcn : current ∈ names) by (apply Hnames; set_solver).
  assert (Hle : ∀ t, t ∈ names →
            Z.of_nat (occ t (getd [] dependents current)) ≤ getd 0 inDegree t).
  { intros t Ht. rewrite Hdependents, (Hdeg t Ht).
    pose proof (length_filter_not_in_snoc done (depsOf t) current Hcur). lia. }
  assert (Hdn : ∀ t, t ∈ getd [] dependents current → t ∈ names).
  { intros t Ht%occ_pos. rewrite Hdependents in Ht. apply occ_pos in Ht.
    by apply Hdeps_names in Ht as [? _]. }
  destruct (reduceDependents_spec (getd [] dependents current) inDegree rest)
    as (added & -> & Hndadd & Hadd & Hnew); [by auto|].
  assert (Hdeg' : ∀ t, t ∈ names →
    getd 0 (reduceDependents (getd [] dependents current) inDegree rest).1 t =
    Z.of_nat (length (filter (λ d, d ∉ done ++ [current]) (depsOf t)))).
  { intros t Ht. rewrite Hnew, Hdependents, (Hdeg t Ht).
    pose proof (length_filter_not_in_snoc done (depsOf t) current Hcur). lia. }
  assert (Hfresh : ∀ t, t ∈ added → t ∉ done ++ current :: rest).
  { intros t [Ht Heq]%Hadd Hin. apply (Hready t (Hdn t Ht)) in Hin.
    apply occ_pos in Ht. lia. }
  assert (Hshape : (done ++ [current]) ++ rest ++ added =
                   (done ++ current :: rest) ++ added)
    by (by rewrite <-!app_assoc).
  split.
  - rewrite Hshape. apply NoDup_app. split_and!; [done| |done].
    intros t Hin Hin'. by apply (Hfresh t Hin').
  - intros t. rewrite Hshape, elem_of_app. intros [?|[? _]%Hadd]; auto.
  - done.
  - intros t Ht. rewrite Hnew, Hshape, elem_of_app, Hadd, (Hready t Ht).
    pose proof (Hle t Ht). split.
    + intros [?|[_ ?]]; lia.
    + intros Hz. destruct (decide (t ∈ getd [] dependents current)) as [Hin|Hnin].
      * right. split; [done|lia].
      * left. apply occ_zero in Hnin. lia.
  - intros i t Hi d Hd.
    destruct (decide (i < length done)%nat) as [Hlt|Hge].
    + rewrite lookup_app_l in Hi by done.
      rewrite take_app_le by lia. eauto.
    + apply lookup_lt_Some in Hi as Hlen. rewrite length_app in Hlen. simpl in Hlen.
      assert (i = length done) as -> by lia.
      rewrite lookup_app_r, Nat.sub_diag in Hi by lia. simplify_eq/=.
      rewrite take_app_length.
      assert (Hz : getd 0 inDegree t = 0) by (apply Hready; [done|set_solver]).
      rewrite (Hdeg t Hcn) in Hz.
      destruct (decide (d ∈ done)) as [|Hnin]; [done|].
      assert (Hdf : d ∈ filter (λ d, d ∉ done) (depsOf t))
        by (by apply list_elem_of_filter).
      destruct (filter _ (depsOf t)); [by apply elem_of_nil in Hdf|simpl in Hz; lia].
Qed.

Lemma popNames_inv fuel queue inDegree done :
  queue_inv names dependencies queue inDegree done →
  (length names ≤ fuel + length done)%nat →
  ∃ done' inDegree',
    popNames fuel dependents queue inDegree done = Some done' ∧
    queue_inv names dependencies [] inDegree' done'.
Proof.
  revert queue inDegree done. induction fuel as [|fuel IH];
    intros [|current rest] inDegree done Hinv Hfuel; simpl; eauto.
  - exfalso. destruct Hinv as [Hnd Hnames _ _ _].
    pose proof (submseteq_length _ _ (NoDup_submseteq _ _ Hnd Hnames)) as Hlen.
    rewrite length_app in Hlen. simpl in *. lia.
  - apply queue_inv_step in Hinv.
    destruct (reduceDependents (getd [] dependents current) inDegree rest)
      as [inDegree' queue'].
    apply IH; [done|]. rewrite length_app. simpl. lia.
Qed.
End kahn.

Lemma initQueue_filter tables inDegree :
  initQueue tables inDegree = filter (λ n, getd 0 inDegree n = 0) (Name <$> tables).
Proof.
  unfold initQueue. induction tables as [|t ts IH] using rev_ind; [done|].
  rewrite foldl_app, fmap_app, filter_app, IH. simpl.
  rewrite filter_cons, filter_nil.
  destruct (Z.eqb_spec (getd 0 inDegree (Name t)) 0).
  - by rewrite decide_True.
  - rewrite decide_False by done. by rewrite app_nil_r.
Qed.

Lemma buildTableMap_lookup tables t :
  NoDup (Name <$> tables) → t ∈ tables →
  buildTableMap tables !! Name t = Some t.
Proof.
  unfold buildTableMap. induction tables as [|x ts IH] using rev_ind.
  - by intros _ ?%elem_of_nil.
  - rewrite fmap_app, foldl_app. simpl. intros (Hnd & Hdisj & _)%NoDup_app Hin.
    apply elem_of_app in Hin as [Hin|Hin].
    + rewrite lookup_insert_ne; [by apply IH|].
      intros Heq. apply (Hdisj (Name t)).
      * apply list_elem_of_fmap. eauto.
      * rewrite <-Heq. set_solver.
    + apply list_elem_of_singleton in Hin as ->. by rewrite lookup_insert_eq.
Qed.

Lemma buildTableMap_None tables n :
  n ∉ Name <$> tables → buildTableMap tables !! n = None.
Proof.
  unfold buildTableMap. induction tables as [|x ts IH] using rev_ind; [done|].
  rewrite fmap_app, foldl_app. simpl. intros Hn.
  rewrite lookup_insert_ne by set_solver. apply IH. set_solver.
Qed.

Lemma sortedSet_getd (sorted : list TableInfo) n :
  getd false (foldl (fun s t => <[Name t := true]> s) (∅ : gmap string bool) sorted) n = true
  ↔ n ∈ Name <$> sorted.
Proof.
  induction sorted as [|x l IH] using rev_ind.
  - simpl. rewrite (getd_empty false n). split; [done|by intros ?%elem_of_nil].
  - rewrite foldl_app, fmap_app. simpl. rewrite getd_insert. case_decide.
    + subst. split; [set_solver|done].
    + rewrite IH. set_solver.
Qed.

Lemma appendRemaining_spec tables sorted :
  appendRemaining tables sorted =
  sorted ++ (if decide (length sorted = length tables) then []
             else filter (λ t, Name t ∉ Name <$> sorted) tables).
Proof.
  unfold appendRemaining. case_bool_decide as Hlen.
  - rewrite decide_False by done.
    set (sortedSet := foldl _ ∅ sorted).
    assert (Hset : ∀ n, getd false sortedSet n = true ↔ n ∈ Name <$> sorted)
      by apply sortedSet_getd.
    clearbody sortedSet. clear Hlen.
    induction tables as [|t ts IH] using rev_ind.
    + simpl. by rewrite app_nil_r.
    + rewrite foldl_app, filter_app, IH. simpl. rewrite filter_cons, filter_nil.
      destruct (getd false sortedSet (Name t)) eqn:E; simpl.
      * rewrite decide_False; [by rewrite app_nil_r|]. intros Hn. by apply Hn, Hset.
      * rewrite decide_True; [by rewrite <-app_assoc|].
        intros Hn%Hset. congruence.
  - rewrite decide_True; [by rewrite app_nil_r|].
    by destruct (decide (length sorted = length tables)).
Qed.

Section placed.
Context (tables : list TableInfo) (Hnodup : NoDup (Name <$> tables)).
Local Abbreviation names := (Name <$> tables).
Local Abbreviation tableOf := (getd zeroTableInfo (buildTableMap tables)).

Lemma tableOf_Name n : n ∈ names → Name (tableOf n) = n ∧ tableOf n ∈ tables.
Proof.
  intros (t & -> & Hin)%list_elem_of_fmap. unfold getd.
  by rewrite buildTableMap_lookup.
Qed.

Lemma tableOf_names (done : list string) :
  (∀ n, n ∈ done → n ∈ names) → Name <$> (tableOf <$> done) = done.
Proof.
  intros Hsub. induction done as [|n done IH]; [done|].
  simpl. f_equal.
  - apply tableOf_Name, Hsub. left.
  - apply IH. intros; apply Hsub. by right.
Qed.

Lemma appendRemaining_Permutation (done : list string) :
  NoDup done → (∀ n, n ∈ done → n ∈ names) →
  appendRemaining tables (tableOf <$> done) ≡ₚ tables.
Proof.
  intros Hnd Hsub.
  pose proof (tableOf_names done Hsub) as Hnames.
  assert (Hall : (tableOf <$> done) ++ filter (λ t, Name t ∉ done) tables ≡ₚ tables).
  { apply NoDup_Permutation.
    - apply NoDup_app. split_and!.
      + apply (NoDup_fmap_1 Name). by rewrite Hnames.
      + intros t Ht [Hn _]%list_elem_of_filter. apply Hn.
        rewrite <-Hnames. apply list_elem_of_fmap. eauto.
      + apply NoDup_filter. by apply (NoDup_fmap_1 Name).
    - by apply (NoDup_fmap_1 Name).
    - intros t. rewrite elem_of_app, list_elem_of_filter. split.
      + intros [(n & -> & Hn)%list_elem_of_fmap|[_ ?]]; [|done].
        by apply tableOf_Name, Hsub.
      + intros Ht. destruct (decide (Name t ∈ done)) as [Hin|Hnin]; [left|by right].
        apply list_elem_of_fmap. exists (Name t). split; [|done].
        unfold getd. by rewrite buildTableMap_lookup. }
  rewrite appendRemaining_spec, Hnames. case_decide as Hlen; [|done].
  rewrite app_nil_r.
  pose proof (Permutation_length Hall) as HL. rewrite length_app, Hlen in HL.
  destruct (filter _ tables); [by rewrite app_nil_r in Hall|simpl in HL; lia].
Qed.

Lemma appendRemaining_all_placed (done : list string) :
  NoDup done → (∀ n, n ∈ done → n ∈ names) → (∀ n, n ∈ names → n ∈ done) →
  appendRemaining tables (tableOf <$> done) = tableOf <$> done.
Proof.
  intros Hnd Hsub Hall.
  rewrite appendRemaining_spec, (tableOf_names done Hsub).
  case_decide as Hlen; [by rewrite app_nil_r|]. exfalso. apply Hlen.
  assert (Hperm : done ≡ₚ names) by (apply NoDup_Permutation; [done..|split; auto]).
  apply Permutation_length in Hperm. rewrite !length_fmap in *. done.
Qed.
End placed.

Lemma filter_not_in_nil (l : list string) : filter (λ d, d ∉ @nil string) l = l.
Proof.
  induction l as [|x l IH]; [done|].
  rewrite filter_cons, decide_True by set_solver. by rewrite IH.
Qed.

Section sort.
Context (tables : list TableInfo) (fks : list ForeignKey) (order : list string).
Context (Hnodup : NoDup (Name <$> tables)).
Context (Horder : range_order (buildDependencies tables fks) order).
Local Abbreviation names := (Name <$> tables).
Local Abbreviation dependencies := (buildDependencies tables fks).
Local Abbreviation built :=
  (buildDependents order dependencies (initInDegree tables)).

Lemma built_dependents d t :
  occ t (getd [] built.1 d) = occ d (getd [] dependencies t).
Proof.
  destruct (buildDependents_spec dependencies order (initInDegree tables)
              (range_order_NoDup _ _ Horder)) as [H1 _].
  rewrite H1. case_decide as Hin; [done|].
  rewrite (range_order_elem_of _ _ _ Horder) in Hin.
  unfold getd at 1. destruct (dependencies !! t); [by destruct Hin|done].
Qed.

Lemma built_inDegree t :
  getd 0 built.2 t = Z.of_nat (length (getd [] dependencies t)).
Proof.
  destruct (buildDependents_spec dependencies order (initInDegree tables)
              (range_order_NoDup _ _ Horder)) as [_ H2].
  rewrite H2, initInDegree_getd. case_decide as Hin; [lia|].
  rewrite (range_order_elem_of _ _ _ Horder) in Hin.
  unfold getd at 1. destruct (dependencies !! t); [by destruct Hin|done].
Qed.

Lemma dependencies_names t d :
  d ∈ getd [] dependencies t → t ∈ names ∧ d ∈ names.
Proof. intros (_ & ? & ? & _)%elem_of_buildDependencies. done. Qed.

Lemma queue_inv_init :
  queue_inv names dependencies (initQueue tables built.2) built.2 [].
Proof.
  rewrite initQueue_filter. split; simpl.
  - by apply NoDup_filter.
  - by intros t [_ ?]%list_elem_of_filter.
  - intros t _. by rewrite built_inDegree, filter_not_in_nil.
  - intros t Ht. rewrite list_elem_of_filter. naive_solver.
  - intros i t Hi. by rewrite lookup_nil in Hi.
Qed.

(** What the loop and the cycle branch compute, in terms of the names
    the loop placed. *)
Lemma topologicalSort_done :
  ∃ done inDegree,
    topologicalSort order tables dependencies =
      Some (Ok (appendRemaining tables
                  (getd zeroTableInfo (buildTableMap tables) <$> done))) ∧
    queue_inv names dependencies [] inDegree done.
Proof.
  unfold topologicalSort.
  pose proof queue_inv_init as Hinit. pose proof built_dependents as Hdep.
  destruct built as [dependents inDegree] eqn:Eb. simpl in Hinit, Hdep.
  destruct (popNames_inv names dependencies dependents dependencies_names Hdep
              (length tables + length order) _ _ [] Hinit)
    as (done & inDegree' & Hpop & Hinv).
  { rewrite length_fmap. simpl. lia. }
  exists done, inDegree'. split; [|done].
  pose proof (processQueue_popNames (length tables + length order) dependents
                (buildTableMap tables) (initQueue tables inDegree) inDegree []) as Hpq.
  simpl in Hpq. rewrite Hpq, Hpop. done.
Qed.

Lemma topologicalSort_Permutation :
  ∃ sorted, topologicalSort order tables dependencies = Some (Ok sorted) ∧
            sorted ≡ₚ tables.
Proof.
  destruct topologicalSort_done as (done & inDegree & -> & Hinv).
  eexists. split; [done|].
  destruct Hinv as [Hnd Hnames _ _ _]. rewrite app_nil_r in Hnd, Hnames.
  by apply appendRemaining_Permutation.
Qed.

Lemma acyclic_all_placed inDegree done :
  Irreflexive (tc (dependsOn tables fks)) →
  queue_inv names dependencies [] inDegree done →
  ∀ t, t ∈ names → t ∈ done.
Proof.
  intros Hacyc [_ _ Hdeg Hready _] t.
  assert (Hsn : sn (dependsOn tables fks) t).
  { apply tc_finite_sn; [done|]. exists names. intros y Hy.
    induction Hy as [x y (_ & _ & ? & _)|x y z _ _ IH]; done. }
  induction Hsn as [t _ IH]. intros Ht.
  destruct (decide (t ∈ done)) as [|Hnin]; [done|]. exfalso.
  assert (Hpos : getd 0 inDegree t ≠ 0).
  { intros Hz. apply Hready in Hz; [|done]. by rewrite app_nil_r in Hz. }
  rewrite (Hdeg t Ht) in Hpos.
  destruct (filter (λ d, d ∉ done) (getd [] dependencies t)) as [|d l] eqn:Ef;
    [done|].
  assert (Hd : d ∈ filter (λ d, d ∉ done) (getd [] dependencies t))
    by (rewrite Ef; left).
  apply list_elem_of_filter in Hd as [Hdn Hd].
  apply Hdn, (IH d).
  - by apply elem_of_buildDependencies.
  - by apply dependencies_names in Hd as [_ ?].
Qed.

Lemma topologicalSort_precedes a b :
  Irreflexive (tc (dependsOn tables fks)) →
  dependsOn tables fks a b →
  ∃ sorted i j,
    topologicalSort order tables dependencies = Some (Ok sorted) ∧
    (Name <$> sorted) !! i = Some b ∧ (Name <$> sorted) !! j = Some a ∧
    (i < j)%nat.
Proof.
  intros Hacyc Hab.
  destruct topologicalSort_done as (done & inDegree & -> & Hinv).
  pose proof (acyclic_all_placed _ _ Hacyc Hinv) as Hall.
  destruct Hinv as [Hnd Hnames _ _ Hsorted]. rewrite app_nil_r in Hnd, Hnames.
  rewrite appendRemaining_all_placed by done.
  assert (Ha : a ∈ done) by (apply Hall; by destruct Hab as (_ & ? & _)).
  apply list_elem_of_lookup in Ha as [j Hj].
  assert (Hb : b ∈ take j done).
  { apply (Hsorted j a Hj). by apply elem_of_buildDependencies. }
  apply elem_of_take in Hb as (i & Hi & Hlt).
  eexists _, i, j. split; [done|]. rewrite tableOf_names by done. done.
Qed.
End sort.

Lemma rankDecreasing_acyclic rank tables fks :
  rankDecreasing rank tables fks = true →
  Irreflexive (tc (dependsOn tables fks)).
Proof.
  intros Hrank.
  assert (Hstep : ∀ a b, dependsOn tables fks a b → (rank b < rank a)%nat).
  { intros a b (Hne & Ha & Hb & fk & Hin & <- & <-).
    unfold rankDecreasing in Hrank. rewrite forallb_forall in Hrank.
    apply list_elem_of_In in Hin. specialize (Hrank fk Hin).
    rewrite !bool_decide_eq_true_2 in Hrank by done. simpl in Hrank.
    by apply bool_decide_eq_true in Hrank. }
  assert (Htc : ∀ a b, tc (dependsOn tables fks) a b → (rank b < rank a)%nat).
  { intros a b Hab. induction Hab as [x y H|x y z H _ IH].
    - by apply Hstep.
    - apply Hstep in H. lia. }
  intros a Ha. apply Htc in Ha. lia.
Qed.

(** Termination of the queue loop on every input: the queue length plus
    the number of keys with a positive in-degree drops by one per
    iteration. *)

Lemma posCount_decrement_other keys inDegree x :
  x ∉ keys →
  posCount keys (<[x := getd 0 inDegree x - 1]> inDegree) = posCount keys inDegree.
Proof.
  unfold posCount. induction keys as [|k keys IH]; [done|]. intros Hx.
  rewrite !filter_cons, getd_insert.
  rewrite (decide_False (P := x = k)) by set_solver.
  case_decide; simpl; rewrite IH by set_solver; done.
Qed.

Lemma posCount_decrement keys inDegree x :
  NoDup keys → (0 < getd 0 inDegree x → x ∈ keys) →
  (posCount keys (<[x := (getd 0 inDegree x - 1)%Z]> inDegree) +
   (if Z.eqb (getd 0 inDegree x - 1)%Z 0%Z then 1 else 0) =
   posCount keys inDegree)%nat.
Proof.
  intros Hnd Hin. destruct (decide (x ∈ keys)) as [Hx|Hx].
  2:{ rewrite posCount_decrement_other by done.
      destruct (Z.eqb_spec (getd 0 inDegree x - 1) 0); [|lia].
      exfalso. apply Hx, Hin. lia. }
  clear Hin. induction Hnd as [|k keys Hk Hnd IH]; [by apply elem_of_nil in Hx|].
  destruct (decide (x = k)) as [->|Hne].
  - pose proof (posCount_decrement_other keys inDegree k Hk) as Ho.
    unfold posCount in *. rewrite !filter_cons, getd_insert.
    rewrite (decide_True (P := k = k)) by done.
    destruct (Z.eqb_spec (getd 0 inDegree k - 1) 0);
      repeat case_decide; simpl; lia.
  - assert (Hx' : x ∈ keys) by set_solver. specialize (IH Hx').
    unfold posCount in *. rewrite !filter_cons, getd_insert.
    rewrite (decide_False (P := x = k)) by done.
    case_decide; simpl; lia.
Qed.

Lemma reduceDependents_measure keys ds inDegree queue :
  NoDup keys → (∀ t, 0 < getd 0 inDegree t → t ∈ keys) →
  let r := reduceDependents ds inDegree queue in
  (∀ t, 0 < getd 0 r.1 t → t ∈ keys) ∧
  (length r.2 + posCount keys r.1 = length queue + posCount keys inDegree)%nat.
Proof.
  intros Hnd. revert inDegree queue.
  induction ds as [|x ds IH]; intros inDegree queue Hpos; [done|].
  simpl. set (inDegree1 := <[x := getd 0 inDegree x - 1]> inDegree).
  assert (Hx1 : getd 0 inDegree1 x = getd 0 inDegree x - 1).
  { unfold inDegree1. rewrite getd_insert. by rewrite decide_True. }
  assert (Hpos1 : ∀ t, 0 < getd 0 inDegree1 t → t ∈ keys).
  { intros t. unfold inDegree1. rewrite getd_insert.
    case_decide; subst; intros ?; apply Hpos; lia. }
  pose proof (posCount_decrement keys inDegree x Hnd (Hpos x)) as Hcount.
  fold inDegree1 in Hcount. rewrite Hx1.
  destruct (IH inDegree1
              (if getd 0 inDegree x - 1 =? 0 then queue ++ [x] else queue) Hpos1)
    as [IH1 IH2].
  split; [done|]. rewrite IH2.
  destruct (getd 0 inDegree x - 1 =? 0); rewrite ?length_app; simpl; lia.
Qed.

Lemma processQueue_is_Some keys fuel dependents tableMap queue inDegree sorted :
  NoDup keys → (∀ t, 0 < getd 0 inDegree t → t ∈ keys) →
  (length queue + posCount keys inDegree ≤ fuel)%nat →
  is_Some (processQueue fuel dependents tableMap queue inDegree sorted).
Proof.
  intros Hnd. revert queue inDegree sorted.
  induction fuel as [|fuel IH]; intros [|current rest] inDegree sorted Hpos Hfuel;
    simpl in *; try (by eexists); try lia.
  destruct (reduceDependents_measure keys (getd [] dependents current)
              inDegree rest Hnd Hpos) as [Hpos' Hm].
  destruct (reduceDependents (getd [] dependents current) inDegree rest)
    as [inDegree' queue'].
  simpl in *. apply IH; [done|lia].
Qed.

Lemma addDependents_positive table deps dependents inDegree t :
  0 < getd 0 (addDependents table deps (dependents, inDegree)).2 t →
  0 < getd 0 inDegree t ∨ t = table.
Proof.
  destruct (addDependents_spec table deps dependents inDegree) as [_ H2].
  rewrite H2. case_decide; [auto|]. intros. left. lia.
Qed.

Lemma buildDependents_positive order dependencies tables t :
  0 < getd 0 (buildDependents order dependencies (initInDegree tables)).2 t →
  t ∈ order.
Proof.
  unfold buildDependents. induction order as [|table order IH] using rev_ind.
  - simpl. rewrite initInDegree_getd. lia.
  - rewrite foldl_app. simpl.
    destruct (foldl _ _ order) as [dependents inDegree].
    intros [?|Heq]%addDependents_positive; [|subst t]; set_solver.
Qed.

Lemma initQueue_length tables inDegree :
  (length (initQueue tables inDegree) ≤ length tables)%nat.
Proof.
  rewrite initQueue_filter. etrans; [apply length_filter|]. by rewrite length_fmap.
Qed.

Lemma posCount_le keys inDegree : (posCount keys inDegree ≤ length keys)%nat.
Proof. apply length_filter. Qed.

Lemma posCount_remove_dups_le order inDegree :
  (posCount (remove_dups order) inDegree ≤ length order)%nat.
Proof.
  etrans; [apply posCount_le|].
  apply submseteq_length, NoDup_submseteq; [apply NoDup_remove_dups|].
  intros x. by rewrite elem_of_remove_dups.
Qed.

(** The queue loop of [topologicalSort] always runs to completion within
    the iteration bound of the model, whatever the tables, the dependency
    map and the order of the map traversal. *)
Lemma topologicalSort_terminates order tables dependencies :
  is_Some (topologicalSort order tables dependencies).
Proof.
  unfold topologicalSort.
  pose proof (buildDependents_positive order dependencies tables) as Hpos.
  destruct (buildDependents order dependencies (initInDegree tables))
    as [dependents inDegree]. simpl in Hpos.
  destruct (processQueue_is_Some (remove_dups order)
              (length tables + length order) dependents (buildTableMap tables)
              (initQueue tables inDegree) inDegree []) as [sorted ->].
  - apply NoDup_remove_dups.
  - intros t Ht. apply elem_of_remove_dups. auto.
  - pose proof (initQueue_length tables inDegree).
    pose proof (posCount_remove_dups_le order inDegree). lia.
  - by eexists.
Qed.

Lemma SortTablesByDependency_terminates driver order tables :
  is_Some (SortTablesByDependency driver order tables).
Proof.
  unfold SortTablesByDependency. destruct (GetForeignKeys driver); [|by eexists].
  apply topologicalSort_terminates.
Qed.

(** ** Foreign-key tracker *)

Import Fktracker.

Lemma normalizeValue_VNil v : normalizeValue v = VNil → v = VNil.
Proof. by destruct v. Qed.

Lemma keyEqb_normalizeValue_refl v :
  isNaN v = false → keyEqb (normalizeValue v) (normalizeValue v) = true.
Proof.
  destruct v; simpl; intros Hnan;
    rewrite ?Z.eqb_refl, ?String.eqb_refl, ?Bool.eqb_reflx; try done;
    by apply negb_false_iff in Hnan.
Qed.

Lemma keyEqb_VInt64 y k : keyEqb y (VInt64 k) = true ↔ y = VInt64 k.
Proof.
  destruct y; simpl; try (split; [done|by intros [=]]).
  rewrite Z.eqb_eq. split; [by intros ->|by intros [=]].
Qed.

(** [==] on two floats, on their IEEE 754 readings: equal zeros of either
    sign, equal infinities, or equal finite numbers. *)
Lemma SFeqb_true x y :
  SFeqb x y = true ↔
  match x, y with
  | S754_zero _, S754_zero _ => True
  | S754_infinity s, S754_infinity s' => s = s'
  | S754_finite s m e, S754_finite s' m' e' => s = s' ∧ m = m' ∧ e = e'
  | _, _ => False
  end.
Proof.
  unfold SFeqb, SFcompare.
  destruct x as [s| s| |s m e], y as [s'|s'| |s' m' e']; try (by destruct s);
    try (by destruct s'); try done.
  - by destruct s, s'.
  - change (IntDef.Z.compare e e') with (Z.compare e e').
    change (PosDef.Pos.compare_cont Eq m m') with (Pos.compare m m').
    destruct s, s'; try done;
      (destruct (Z.compare_spec e e') as [->|?|?];
         [|split; [done|intros (_ & _ & ?); exfalso; lia]..]);
      (destruct (Pos.compare_spec m m') as [->|Hm|Hm]; simpl);
      (split;
         [first [done|intros _; by split_and!]
         |first [done|intros (? & Heq & ?);
                      first [done|subst; by apply Pos.lt_irrefl in Hm]]]).
Qed.

Lemma float_eqb_trans (a b x : float) :
  PrimFloat.eqb a x = true → PrimFloat.eqb b x = true → PrimFloat.eqb a b = true.
Proof.
  rewrite !FloatAxioms.eqb_spec, !SFeqb_true.
  destruct (Prim2SF a), (Prim2SF b), (Prim2SF x); try done; naive_solver.
Qed.

(** Two values that [==] holds equal to a third are equal to each other. *)
Lemma keyEqb_trans a b x :
  keyEqb a x = true → keyEqb b x = true → keyEqb a b = true.
Proof.
  destruct a, b, x; simpl; try done;
    rewrite ?Z.eqb_eq, ?String.eqb_eq; try congruence;
    try (by apply float_eqb_trans).
  destruct b0, b1, b; done.
Qed.

Lemma keyEqb_VInt64_l k x : keyEqb (VInt64 k) x = true → x = VInt64 k.
Proof. destruct x; simpl; try done. by intros ->%Z.eqb_eq. Qed.

Lemma elem_of_setInsert_present k s x :
  existsb (keyEqb k) s = true →
  x ∈ setInsert k s ↔ ∃ y, y ∈ s ∧ x = if keyEqb k y then k else y.
Proof.
  intros E. unfold setInsert. rewrite E, list_elem_of_fmap. naive_solver.
Qed.

(** Where [==] with [k] is equality, the set is as it was. *)
Lemma setInsert_present_exact k s :
  (∀ x, keyEqb k x = true → x = k) →
  existsb (keyEqb k) s = true → setInsert k s = s.
Proof.
  intros Hk E. unfold setInsert. rewrite E. clear E.
  induction s as [|x s IH]; [done|]. rewrite fmap_cons, IH. f_equal.
  destruct (keyEqb k x) eqn:Ex; [|done]. symmetry. by apply Hk.
Qed.

Lemma setMember_setInsert_same k s :
  keyEqb k k = true → setMember k (setInsert k s) = true.
Proof.
  intros Hk. unfold setMember.
  destruct (existsb (keyEqb k) s) eqn:E.
  - apply existsb_exists. exists k. split; [|done]. apply list_elem_of_In.
    apply existsb_exists in E as (y & Hy%list_elem_of_In & Hky).
    apply elem_of_setInsert_present; [by apply existsb_exists; exists y;
                                        rewrite <-list_elem_of_In|].
    exists y. by rewrite Hky.
  - unfold setInsert. rewrite E, existsb_app. simpl. rewrite Hk. by rewrite orb_true_r.
Qed.

Lemma setMember_setInsert_mono k k' s :
  setMember k s = true → setMember k (setInsert k' s) = true.
Proof.
  unfold setMember. intros Hk.
  destruct (existsb (keyEqb k') s) eqn:E.
  - apply existsb_exists in Hk as (y & Hy%list_elem_of_In & Hky).
    apply existsb_exists. destruct (keyEqb k' y) eqn:Ey.
    + exists k'. split; [|by apply (keyEqb_trans k k' y)].
      apply list_elem_of_In, elem_of_setInsert_present; [done|].
      exists y. by rewrite Ey.
    + exists y. split; [|done].
      apply list_elem_of_In, elem_of_setInsert_present; [done|].
      exists y. by rewrite Ey.
  - unfold setInsert. rewrite E, existsb_app, Hk. done.
Qed.

Lemma setMember_setInsert_VInt64 y k s :
  setMember y (setInsert (VInt64 k) s) = true ↔ y = VInt64 k ∨ setMember y s = true.
Proof.
  unfold setMember.
  destruct (existsb (keyEqb (VInt64 k)) s) eqn:E.
  - rewrite setInsert_present_exact by (done || apply keyEqb_VInt64_l).
    split; [auto|]. intros [->|?]; done.
  - unfold setInsert. rewrite E, existsb_app. simpl.
    rewrite orb_false_r, orb_true_iff, keyEqb_VInt64. tauto.
Qed.

(** The set a [RecordValue] of a non-nil value leaves under its key. *)
Lemma RecordValue_lookup t table column v :
  v ≠ VNil →
  exportedKeys (RecordValue t table column v) !! makeKey table column =
  Some (setInsert (normalizeValue v) (getd [] (exportedKeys t) (makeKey table column))).
Proof.
  intros Hv. unfold RecordValue.
  destruct v; try done; simpl; rewrite lookup_insert_eq; f_equal; f_equal;
    unfold getd; destruct (exportedKeys t !! makeKey table column) eqn:E;
    rewrite ?E, ?lookup_insert_eq; done.
Qed.

Lemma RecordValue_lookup_ne t table column v key :
  key ≠ makeKey table column →
  exportedKeys (RecordValue t table column v) !! key = exportedKeys t !! key.
Proof.
  intros Hne. unfold RecordValue.
  destruct v; try done; simpl; rewrite lookup_insert_ne by done;
    destruct (exportedKeys t !! makeKey table column);
    rewrite ?lookup_insert_ne by done; done.
Qed.

Lemma RecordValue_getd t table column v :
  v ≠ VNil →
  getd [] (exportedKeys (RecordValue t table column v)) (makeKey table column) =
  setInsert (normalizeValue v) (getd [] (exportedKeys t) (makeKey table column)).
Proof. intros Hv. unfold getd at 1. by rewrite RecordValue_lookup. Qed.

Lemma RecordValue_getd_ne t table column v key :
  key ≠ makeKey table column →
  getd [] (exportedKeys (RecordValue t table column v)) key =
  getd [] (exportedKeys t) key.
Proof. intros Hne. unfold getd. by rewrite RecordValue_lookup_ne. Qed.

Lemma HasValue_unfold t table column w :
  w ≠ VNil →
  HasValue t table column w =
  setMember (normalizeValue w) (getd [] (exportedKeys t) (makeKey table column)).
Proof.
  intros Hw. unfold HasValue, getd.
  destruct w; try done; destruct (exportedKeys t !! makeKey table column); done.
Qed.

Lemma HasValue_VNil t table column : HasValue t table column VNil = true.
Proof. done. Qed.

Lemma HasValue_RecordValue t table column v w :
  v ≠ VNil → isNaN v = false → normalizeValue w = normalizeValue v →
  HasValue (RecordValue t table column v) table column w = true.
Proof.
  intros Hv Hnan Hw.
  assert (Hwn : w ≠ VNil).
  { intros ->. symmetry in Hw. by apply normalizeValue_VNil in Hw. }
  rewrite HasValue_unfold, RecordValue_getd, Hw by done.
  by apply setMember_setInsert_same, keyEqb_normalizeValue_refl.
Qed.

Lemma HasValue_RecordValue_mono t table column w table' column' v :
  HasValue t table column w = true →
  HasValue (RecordValue t table' column' v) table column w = true.
Proof.
  assert (w = VNil ∨ w ≠ VNil) as [->|Hw] by (destruct w; auto); [done|].
  assert (v = VNil ∨ v ≠ VNil) as [->|Hv] by (destruct v; auto); [done|].
  rewrite !HasValue_unfold by done.
  destruct (decide (makeKey table column = makeKey table' column')) as [Heq|Hne].
  - rewrite Heq, RecordValue_getd by done. apply setMember_setInsert_mono.
  - by rewrite RecordValue_getd_ne.
Qed.

Lemma HasValue_recordAll_mono records t table column w :
  HasValue t table column w = true →
  HasValue (recordAll t records) table column w = true.
Proof.
  unfold recordAll. revert t. induction records as [|[[a b] x] records IH]; intros t Ht; [done|].
  simpl. by apply IH, HasValue_RecordValue_mono.
Qed.

Lemma HasValue_recordAll records t table column v w :
  (table, column, v) ∈ records →
  v ≠ VNil → isNaN v = false → normalizeValue w = normalizeValue v →
  HasValue (recordAll t records) table column w = true.
Proof.
  intros Hin Hv Hnan Hw. revert t.
  induction records as [|[[a b] x] records IH]; intros t; [by apply elem_of_nil in Hin|].
  apply elem_of_cons in Hin as [[= <- <- <-]|Hin].
  - apply HasValue_recordAll_mono with (records := records) (t := RecordValue t table column v).
    by apply HasValue_RecordValue.
  - by apply IH.
Qed.

Lemma int64_small u : 0 ≤ u < 2 ^ 63 → int64 u = u.
Proof.
  intros Hu. unfold int64.
  rewrite Z.mod_small by lia. lia.
Qed.

Lemma int64_large u : 2 ^ 63 ≤ u < 2 ^ 64 → int64 u = u - 2 ^ 64.
Proof.
  intros Hu. unfold int64.
  replace (u + 2 ^ 63) with ((u - 2 ^ 63) + 1 * 2 ^ 64) by lia.
  rewrite Z_mod_plus_full, Z.mod_small by lia. lia.
Qed.

Lemma int64_range z : - 2 ^ 63 ≤ int64 z < 2 ^ 63.
Proof.
  unfold int64. pose proof (Z.mod_pos_bound (z + 2 ^ 63) (2 ^ 64)). lia.
Qed.

Lemma int64_uint64_inj u u' :
  0 ≤ u < 2 ^ 64 → 0 ≤ u' < 2 ^ 64 → int64 u = int64 u' → u = u'.
Proof.
  intros Hu Hu'.
  destruct (decide (u < 2 ^ 63)); destruct (decide (u' < 2 ^ 63));
    rewrite ?(int64_small u), ?(int64_small u'), ?(int64_large u), ?(int64_large u') by lia;
    lia.
Qed.

Lemma HasValue_RecordValue_uint64 t table column u x :
  x ≠ VNil →
  HasValue (RecordValue t table column (VUint64 u)) table column x = true ↔
  normalizeValue x = VInt64 (int64 u) ∨ HasValue t table column x = true.
Proof.
  intros Hx. rewrite !HasValue_unfold, RecordValue_getd by done.
  apply setMember_setInsert_VInt64.
Qed.

(** ** Retention dates *)

Import Config ConfigSpec.

Section parse.
Context {Time : Type} (time_Parse : string → string → result Time).

Lemma firstMatch_spec fs s t :
  firstMatch time_Parse fs s = Some t ↔
  ∃ i f, fs !! i = Some f ∧ time_Parse f s = Ok t ∧
         ∀ j g, (j < i)%nat → fs !! j = Some g → ∃ e, time_Parse g s = Err e.
Proof.
  induction fs as [|f fs IH]; simpl.
  - split; [done|]. by intros (i & g & Hi & _).
  - destruct (time_Parse f s) as [t0|e] eqn:E.
    + split.
      * intros [= ->]. exists 0%nat, f. split_and!; [done..|]. intros; lia.
      * intros (i & g & Hi & Hg & Hbefore). destruct i as [|i].
        -- simpl in Hi. simplify_eq. congruence.
        -- destruct (Hbefore 0%nat f) as [e He]; [lia|done|]. congruence.
    + rewrite IH. split.
      * intros (i & g & Hi & Hg & Hbefore). exists (S i), g. split_and!; [done..|].
        intros [|j] h Hj Hh; simpl in Hh; [simplify_eq; eauto|].
        apply (Hbefore j h); [lia|done].
      * intros (i & g & Hi & Hg & Hbefore). destruct i as [|i].
        -- simpl in Hi. simplify_eq. congruence.
        -- exists i, g. split_and!; [done..|].
           intros j h Hj Hh. apply (Hbefore (S j) h); [lia|done].
Qed.

Lemma parseDateWith_firstMatch fs s :
  match firstMatch time_Parse fs s with
  | Some t => parseDateWith time_Parse fs s = Ok t
  | None => ∃ e, parseDateWith time_Parse fs s = Err e
  end.
Proof.
  induction fs as [|f fs IH]; simpl; [by eexists|].
  by destruct (time_Parse f s).
Qed.

Lemma firstMatch_None fs s :
  firstMatch time_Parse fs s = None ↔ ∀ f, f ∈ fs → ∃ e, time_Parse f s = Err e.
Proof.
  induction fs as [|f fs IH]; simpl.
  - split; [|done]. by intros _ f ?%elem_of_nil.
  - destruct (time_Parse f s) as [t0|e] eqn:E.
    + split; [done|]. intros H. destruct (H f) as [e He]; [left|]. congruence.
    + rewrite IH. split.
      * intros H g [->|Hg]%elem_of_cons; eauto.
      * intros H g Hg. apply H. by right.
Qed.
End parse.

(** ** Anonymiser *)

Import Anonymiser AnonymiserSpec.

Lemma FindStringSubmatch_not_null rule f :
  FindStringSubmatch rule = Some f → rule ≠ "null" ∧ rule ≠ "".
Proof. intros H. split; intros ->; vm_compute in H; discriminate. Qed.

Section anonymiser.
Context {Rng : Type} (gofakeit : gofakeitCall → Rng → string * Rng).
Implicit Types (result : row) (cmap : gmap string string) (rng : Rng).
Implicit Types (st : row * gmap string string * Rng).

(** *** One column *)

Lemma anonymiseColumn_cmap_mono col rule st :
  st.1.2 ⊆ (anonymiseColumn gofakeit col rule st).1.2.
Proof.
  destruct st as [[result cmap] rng]. unfold anonymiseColumn. simpl.
  destruct (result !! col); [|done].
  destruct (_ || _); [done|].
  destruct (FindStringSubmatch rule); [|done].
  destruct (cmap !! _) eqn:E; [done|].
  destruct (GenerateFakeValue _ _ _). simpl.
  case_bool_decide; [|done]. by apply insert_subseteq.
Qed.

Lemma anonymiseColumn_frame col rule st c :
  col ≠ c → (anonymiseColumn gofakeit col rule st).1.1 !! c = st.1.1 !! c.
Proof.
  intros Hne. destruct st as [[result cmap] rng]. unfold anonymiseColumn. simpl.
  destruct (result !! col); [|done].
  destruct (_ || _); [simpl; by rewrite lookup_insert_ne|].
  destruct (FindStringSubmatch rule); [|simpl; by rewrite lookup_insert_ne].
  destruct (cmap !! _); [simpl; by rewrite lookup_insert_ne|].
  destruct (GenerateFakeValue _ _ _). simpl. by rewrite lookup_insert_ne.
Qed.

Lemma anonymiseColumn_present col rule st c :
  is_Some ((anonymiseColumn gofakeit col rule st).1.1 !! c) ↔ is_Some (st.1.1 !! c).
Proof.
  destruct (decide (col = c)) as [->|Hne]; [|by rewrite anonymiseColumn_frame].
  destruct st as [[result cmap] rng]. unfold anonymiseColumn. simpl.
  destruct (result !! c) eqn:E; [|simpl; by rewrite ?E].
  destruct (_ || _); [simpl; by rewrite lookup_insert_eq|].
  destruct (FindStringSubmatch rule); [|simpl; by rewrite lookup_insert_eq].
  destruct (cmap !! _); [simpl; by rewrite lookup_insert_eq|].
  destruct (GenerateFakeValue _ _ _). simpl. by rewrite lookup_insert_eq.
Qed.

(** The only entry of the consistency map an iteration can add. *)
Lemma anonymiseColumn_cmap_other col rule st k :
  (∀ v, st.1.1 !! col = Some v → consistencyKey col (originalStrOf v) ≠ k) →
  (anonymiseColumn gofakeit col rule st).1.2 !! k = st.1.2 !! k.
Proof.
  intros Hk. destruct st as [[result cmap] rng]. unfold anonymiseColumn. simpl in *.
  destruct (result !! col) as [v|]; [|done]. specialize (Hk v eq_refl).
  destruct (_ || _); [done|].
  destruct (FindStringSubmatch rule); [|done].
  destruct (cmap !! _); [done|].
  destruct (GenerateFakeValue _ _ _). simpl.
  case_bool_decide; [|done]. by rewrite lookup_insert_ne.
Qed.

Lemma anonymiseColumn_faker c rule f s result cmap rng :
  FindStringSubmatch rule = Some f →
  result !! c = Some (VString s) → s ≠ "" →
  ∃ x, (anonymiseColumn gofakeit c rule (result, cmap, rng)).1.1 !! c = Some (VString x) ∧
       (anonymiseColumn gofakeit c rule (result, cmap, rng)).1.2
         !! consistencyKey c s = Some x.
Proof.
  intros Hf Hc Hs. destruct (FindStringSubmatch_not_null _ _ Hf) as [Hn1 Hn2].
  unfold anonymiseColumn. rewrite Hc, Hf. simpl.
  rewrite !bool_decide_eq_false_2 by done. simpl.
  destruct (cmap !! consistencyKey c s) as [cached|] eqn:E.
  - exists cached. simpl. by rewrite lookup_insert_eq.
  - destruct (GenerateFakeValue gofakeit f rng) as [newVal rng']. simpl.
    exists newVal. rewrite bool_decide_eq_true_2 by done.
    by rewrite !lookup_insert_eq.
Qed.

Lemma anonymiseColumn_unknown c rule f v result cmap rng :
  GetFakerFunc gofakeit f = None →
  FindStringSubmatch rule = Some f →
  result !! c = Some v →
  (anonymiseColumn gofakeit c rule (result, cmap, rng)).1.1 !! c =
  Some (VString (default "" (cmap !! consistencyKey c (originalStrOf v)))).
Proof.
  intros Hg Hf Hc. destruct (FindStringSubmatch_not_null _ _ Hf) as [Hn1 Hn2].
  unfold anonymiseColumn. rewrite Hc, Hf. simpl.
  rewrite !bool_decide_eq_false_2 by done. simpl.
  destruct (cmap !! _) as [cached|] eqn:E; simpl.
  - by rewrite lookup_insert_eq.
  - unfold GenerateFakeValue. rewrite Hg. simpl. by rewrite lookup_insert_eq.
Qed.

Lemma anonymiseColumn_static c rule v result cmap rng :
  rule ≠ "null" → rule ≠ "" → FindStringSubmatch rule = None →
  result !! c = Some v →
  anonymiseColumn gofakeit c rule (result, cmap, rng) =
  (<[c := VString rule]> result, cmap, rng).
Proof.
  intros Hn1 Hn2 Hf Hc. unfold anonymiseColumn. rewrite Hc, Hf.
  by rewrite !bool_decide_eq_false_2 by done.
Qed.

(** *** The loop over the rules *)

Lemma anonymiseColumns_app columns o1 o2 st :
  anonymiseColumns gofakeit columns (o1 ++ o2) st =
  anonymiseColumns gofakeit columns o2 (anonymiseColumns gofakeit columns o1 st).
Proof. unfold anonymiseColumns. apply foldl_app. Qed.

Lemma anonymiseColumns_cmap_mono columns order st :
  st.1.2 ⊆ (anonymiseColumns gofakeit columns order st).1.2.
Proof.
  revert st. induction order as [|col order IH]; intros st; [done|].
  simpl. etrans; [|apply IH].
  destruct (columns !! col); [apply anonymiseColumn_cmap_mono|done].
Qed.

Lemma anonymiseColumns_frame columns order st c :
  (c ∈ order → columns !! c = None) →
  (anonymiseColumns gofakeit columns order st).1.1 !! c = st.1.1 !! c.
Proof.
  revert st. induction order as [|col order IH]; intros st Hc; [done|].
  simpl. rewrite IH by (intros; apply Hc; by right).
  destruct (columns !! col) eqn:E; [|done].
  apply anonymiseColumn_frame. intros ->.
  rewrite Hc in E by left. done.
Qed.

Lemma anonymiseColumns_present columns order st c :
  is_Some ((anonymiseColumns gofakeit columns order st).1.1 !! c) ↔ is_Some (st.1.1 !! c).
Proof.
  revert st. induction order as [|col order IH]; intros st; [done|].
  simpl. rewrite IH. destruct (columns !! col); [|done].
  apply anonymiseColumn_present.
Qed.

Lemma anonymiseColumns_skip columns order st c :
  c ∉ order →
  (anonymiseColumns gofakeit columns order st).1.1 !! c = st.1.1 !! c.
Proof.
  revert st. induction order as [|col order IH]; intros st Hc; [done|].
  simpl. rewrite IH by set_solver.
  destruct (columns !! col); [|done].
  apply anonymiseColumn_frame. set_solver.
Qed.

Lemma anonymiseColumns_cmap_other columns order st k :
  NoDup order →
  (∀ c v, c ∈ order → is_Some (columns !! c) → st.1.1 !! c = Some v →
          consistencyKey c (originalStrOf v) ≠ k) →
  (anonymiseColumns gofakeit columns order st).1.2 !! k = st.1.2 !! k.
Proof.
  intros Hnd. revert st. induction Hnd as [|col order Hnin Hnd IH]; intros st Hk; [done|].
  simpl. destruct (columns !! col) as [rule|] eqn:E.
  - rewrite IH.
    + apply anonymiseColumn_cmap_other. intros v Hv.
      apply (Hk col v); [left|by rewrite E|done].
    + intros c v Hc Hsome Hv. rewrite anonymiseColumn_frame in Hv by set_solver.
      apply (Hk c v); [by right|done..].
  - apply IH. intros c v Hc. apply Hk. by right.
Qed.

(** Where the loop meets [c], which it does once. *)
Lemma anonymiseColumns_split columns order c rule st :
  NoDup order → c ∈ order → columns !! c = Some rule →
  ∃ o1 o2, order = o1 ++ c :: o2 ∧ (c ∉ o1) ∧ (c ∉ o2) ∧
    anonymiseColumns gofakeit columns order st =
    anonymiseColumns gofakeit columns o2
      (anonymiseColumn gofakeit c rule (anonymiseColumns gofakeit columns o1 st)).
Proof.
  intros Hnd (o1 & o2 & ->)%list_elem_of_split Hrule.
  apply NoDup_app in Hnd as (_ & Hdisj & Hnd2). apply NoDup_cons in Hnd2 as [Hc2 _].
  exists o1, o2. split_and!; [done| |done|].
  - intros Hin. apply (Hdisj _ Hin). left.
  - rewrite anonymiseColumns_app. simpl. by rewrite Hrule.
Qed.

Lemma anonymiseColumns_faker columns order c rule f s st :
  NoDup order → c ∈ order → columns !! c = Some rule →
  FindStringSubmatch rule = Some f →
  st.1.1 !! c = Some (VString s) → s ≠ "" →
  ∃ x, (anonymiseColumns gofakeit columns order st).1.1 !! c = Some (VString x) ∧
       (anonymiseColumns gofakeit columns order st).1.2 !! consistencyKey c s = Some x.
Proof.
  intros Hnd Hin Hrule Hf Hc Hs.
  destruct (anonymiseColumns_split columns order c rule st Hnd Hin Hrule)
    as (o1 & o2 & _ & Hc1 & Hc2 & ->).
  pose proof (anonymiseColumns_skip columns o1 st c Hc1) as H1. rewrite Hc in H1.
  destruct (anonymiseColumns gofakeit columns o1 st) as [[result1 cmap1] rng1].
  simpl in H1.
  destruct (anonymiseColumn_faker c rule f s result1 cmap1 rng1 Hf H1 Hs)
    as (x & Hx1 & Hx2).
  exists x. rewrite anonymiseColumns_skip by done. split; [done|].
  eapply lookup_weaken; [done|]. apply anonymiseColumns_cmap_mono.
Qed.

Lemma anonymiseColumns_unknown columns order c rule f v st :
  NoDup order → c ∈ order → columns !! c = Some rule →
  GetFakerFunc gofakeit f = None → FindStringSubmatch rule = Some f →
  st.1.1 !! c = Some v →
  (∀ c' v', c' ∈ order → c' ≠ c → is_Some (columns !! c') → st.1.1 !! c' = Some v' →
            consistencyKey c' (originalStrOf v') ≠ consistencyKey c (originalStrOf v)) →
  (anonymiseColumns gofakeit columns order st).1.1 !! c =
  Some (VString (default "" (st.1.2 !! consistencyKey c (originalStrOf v)))).
Proof.
  intros Hnd Hin Hrule Hg Hf Hc Hclash.
  destruct (anonymiseColumns_split columns order c rule st Hnd Hin Hrule)
    as (o1 & o2 & -> & Hc1 & Hc2 & ->).
  pose proof (anonymiseColumns_skip columns o1 st c Hc1) as H1. rewrite Hc in H1.
  assert (Hk : (anonymiseColumns gofakeit columns o1 st).1.2
                 !! consistencyKey c (originalStrOf v) =
               st.1.2 !! consistencyKey c (originalStrOf v)).
  { apply anonymiseColumns_cmap_other.
    - by apply NoDup_app in Hnd as (? & _ & _).
    - intros c' v' Hc' Hsome Hv'. apply Hclash; [set_solver| |done..].
      intros ->. done. }
  destruct (anonymiseColumns gofakeit columns o1 st) as [[result1 cmap1] rng1].
  simpl in H1, Hk. rewrite anonymiseColumns_skip by done.
  rewrite (anonymiseColumn_unknown c rule f v) by done. by rewrite Hk.
Qed.
End anonymiser.

Section rows.
Context {Rng : Type} (gofakeit : gofakeitCall → Rng → string * Rng).
Context (cfg : Config).

Lemma AnonymiseRow_unconfigured order tableName rowRef (w : world) :
  (∀ tableConfig, GetTableConfig cfg tableName = Some tableConfig →
                  Columns tableConfig = None) →
  AnonymiseRow gofakeit cfg order tableName rowRef w = (rowRef, w).
Proof.
  intros Hnone. unfold AnonymiseRow.
  destruct (GetTableConfig cfg tableName) as [tc|]; [|done].
  by rewrite (Hnone tc eq_refl).
Qed.

Lemma AnonymiseRow_configured order tableName tableConfig columns rowRef (w : world) :
  GetTableConfig cfg tableName = Some tableConfig →
  Columns tableConfig = Some columns →
  let st := anonymiseColumns gofakeit columns order
              (rowAt w rowRef, consistencyMap w, rand w) in
  let resultRef := fresh (dom (heap w)) in
  AnonymiseRow gofakeit cfg order tableName rowRef w =
  (resultRef, {| heap := <[resultRef := st.1.1]> (heap w);
                 consistencyMap := st.1.2; rand := st.2 |}).
Proof.
  intros Htc Hcols. unfold AnonymiseRow. rewrite Htc, Hcols.
  by destruct (anonymiseColumns _ _ _ _) as [[? ?] ?].
Qed.

Lemma fresh_heap (w : world (Rng := Rng)) : heap w !! fresh (dom (heap w)) = None.
Proof. apply not_elem_of_dom, is_fresh. Qed.

Lemma AnonymiseRow_cmap_mono order tableName rowRef (w : world) :
  consistencyMap w ⊆
  consistencyMap (AnonymiseRow gofakeit cfg order tableName rowRef w).2.
Proof.
  destruct (GetTableConfig cfg tableName) as [tc|] eqn:Htc.
  - destruct (Columns tc) as [columns|] eqn:Hc.
    + rewrite (AnonymiseRow_configured _ _ _ _ _ _ Htc Hc). simpl.
      apply (anonymiseColumns_cmap_mono gofakeit columns order
               (rowAt w rowRef, consistencyMap w, rand w)).
    + rewrite AnonymiseRow_unconfigured; [done|]. intros ? ?. congruence.
  - rewrite AnonymiseRow_unconfigured; [done|]. intros ? ?. congruence.
Qed.

Lemma runStep_cmap_mono (w w' : world) :
  rtc (runStep gofakeit cfg) w w' → consistencyMap w ⊆ consistencyMap w'.
Proof.
  induction 1 as [|w1 w2 w3 Hstep _ IH]; [done|].
  etrans; [|exact IH]. destruct Hstep as [? ? ? ?|? ? ->]; [|done].
  apply AnonymiseRow_cmap_mono.
Qed.

(** The row [AnonymiseRow] returns for a configured table. *)
Lemma AnonymiseRow_rowAt order tableName tableConfig columns rowRef (w : world) :
  GetTableConfig cfg tableName = Some tableConfig →
  Columns tableConfig = Some columns →
  let r := AnonymiseRow gofakeit cfg order tableName rowRef w in
  rowAt r.2 r.1 =
  (anonymiseColumns gofakeit columns order
     (rowAt w rowRef, consistencyMap w, rand w)).1.1.
Proof.
  intros Htc Hcols. simpl. rewrite (AnonymiseRow_configured _ _ _ _ _ _ Htc Hcols).
  unfold rowAt. simpl. by rewrite lookup_insert_eq.
Qed.

Lemma AnonymiseRow_faker order tableName tableConfig columns c rule f s rowRef (w : world) :
  GetTableConfig cfg tableName = Some tableConfig →
  Columns tableConfig = Some columns →
  range_order columns order →
  columns !! c = Some rule → FindStringSubmatch rule = Some f →
  rowAt w rowRef !! c = Some (VString s) → s ≠ "" →
  let r := AnonymiseRow gofakeit cfg order tableName rowRef w in
  ∃ x, rowAt r.2 r.1 !! c = Some (VString x) ∧
       consistencyMap r.2 !! consistencyKey c s = Some x.
Proof.
  intros Htc Hcols Ho Hrule Hf Hc Hs. simpl.
  rewrite (AnonymiseRow_rowAt _ _ _ _ _ _ Htc Hcols).
  rewrite (AnonymiseRow_configured _ _ _ _ _ _ Htc Hcols). simpl.
  apply (anonymiseColumns_faker gofakeit columns order c rule f s
           (rowAt w rowRef, consistencyMap w, rand w)); try done.
  - by eapply range_order_NoDup.
  - apply (range_order_elem_of _ _ _ Ho). by rewrite Hrule.
Qed.

(** Two rows of one run that carry the same non-empty string in a column
    with a faker template, in whatever tables. *)
Lemma consistent_substitute
    o1 t1 tc1 cols1 rule1 f1 row1 (w1 : world)
    o2 t2 tc2 cols2 rule2 f2 row2 (w2 : world) c s :
  GetTableConfig cfg t1 = Some tc1 → Columns tc1 = Some cols1 →
  range_order cols1 o1 → cols1 !! c = Some rule1 →
  FindStringSubmatch rule1 = Some f1 →
  GetTableConfig cfg t2 = Some tc2 → Columns tc2 = Some cols2 →
  range_order cols2 o2 → cols2 !! c = Some rule2 →
  FindStringSubmatch rule2 = Some f2 →
  s ≠ "" →
  rowAt w1 row1 !! c = Some (VString s) →
  rowAt w2 row2 !! c = Some (VString s) →
  let r1 := AnonymiseRow gofakeit cfg o1 t1 row1 w1 in
  rtc (runStep gofakeit cfg) r1.2 w2 →
  let r2 := AnonymiseRow gofakeit cfg o2 t2 row2 w2 in
  ∃ x, rowAt r1.2 r1.1 !! c = Some (VString x) ∧
       rowAt r2.2 r2.1 !! c = Some (VString x) ∧
       consistencyMap r2.2 !! consistencyKey c s = Some x.
Proof.
  intros Htc1 Hc1 Ho1 Hr1 Hf1 Htc2 Hc2 Ho2 Hr2 Hf2 Hs Hrow1 Hrow2 r1 Hrun r2.
  destruct (AnonymiseRow_faker o1 t1 tc1 cols1 c rule1 f1 s row1 w1)
    as (x & Hx & Hk); try done.
  destruct (AnonymiseRow_faker o2 t2 tc2 cols2 c rule2 f2 s row2 w2)
    as (x' & Hx' & Hk'); try done.
  fold r1 in Hx, Hk. fold r2 in Hx', Hk'.
  assert (Hk2 : consistencyMap r2.2 !! consistencyKey c s = Some x).
  { eapply lookup_weaken; [exact Hk|].
    etrans; [by apply runStep_cmap_mono|]. apply AnonymiseRow_cmap_mono. }
  exists x. rewrite Hk2 in Hk'. by simplify_eq.
Qed.

(** *** Rules that name no known generator *)

Lemma keyClashFree_spec columns (r : row) c v :
  keyClashFree columns r c = true → r !! c = Some v →
  ∀ c' v', c' ≠ c → is_Some (columns !! c') → r !! c' = Some v' →
    consistencyKey c' (originalStrOf v') ≠ consistencyKey c (originalStrOf v).
Proof.
  unfold keyClashFree. rewrite forallb_forall. intros Hall Hv c' v' Hne [rule Hrule] Hv'.
  specialize (Hall c'). rewrite Hv, Hv' in Hall. simpl in Hall.
  rewrite bool_decide_eq_false_2 in Hall by done. simpl in Hall.
  intros Heq. rewrite Heq, String.eqb_refl in Hall.
  assert (false = true); [|done]. apply Hall.
  apply list_elem_of_In, list_elem_of_fmap. exists (c', rule). split; [done|].
  by apply elem_of_map_to_list.
Qed.

Lemma AnonymiseRow_unknown order tableName tableConfig columns c rule f v rowRef (w : world) :
  GetTableConfig cfg tableName = Some tableConfig →
  Columns tableConfig = Some columns →
  range_order columns order →
  columns !! c = Some rule → FindStringSubmatch rule = Some f →
  GetFakerFunc gofakeit f = None →
  rowAt w rowRef !! c = Some v →
  keyClashFree columns (rowAt w rowRef) c = true →
  let r := AnonymiseRow gofakeit cfg order tableName rowRef w in
  rowAt r.2 r.1 !! c =
  Some (VString (default "" (consistencyMap w !! consistencyKey c (originalStrOf v)))).
Proof.
  intros Htc Hcols Ho Hrule Hf Hg Hv Hfree. simpl.
  rewrite (AnonymiseRow_rowAt _ _ _ _ _ _ Htc Hcols).
  apply (anonymiseColumns_unknown gofakeit columns order c rule f v
           (rowAt w rowRef, consistencyMap w, rand w)); try done.
  - by eapply range_order_NoDup.
  - apply (range_order_elem_of _ _ _ Ho). by rewrite Hrule.
  - intros c' v' _ Hne Hsome Hv'. by eapply keyClashFree_spec.
Qed.

Lemma validateColumns_mono tableName columns order errors e :
  e ∈ errors → e ∈ validateColumns gofakeit tableName columns order errors.
Proof.
  unfold validateColumns. revert errors.
  induction order as [|col order IH]; intros errors He; [done|].
  simpl. apply IH. destruct (columns !! col); [|done].
  destruct (ParseFakerTemplate _) as [funcName [|]]; [|done].
  destruct (GetFakerFunc _ _); [done|]. set_solver.
Qed.

Lemma validateColumns_unknown tableName columns order errors c rule f :
  c ∈ order → columns !! c = Some rule → FindStringSubmatch rule = Some f →
  GetFakerFunc gofakeit f = None →
  unknownFakerMessage f tableName c
    ∈ validateColumns gofakeit tableName columns order errors.
Proof.
  intros Hin Hrule Hf Hg. revert errors.
  induction order as [|col order IH]; intros errors; [by apply elem_of_nil in Hin|].
  apply elem_of_cons in Hin as [<-|Hin].
  - unfold validateColumns. simpl. fold (validateColumns gofakeit tableName columns order).
    apply validateColumns_mono. rewrite Hrule. unfold ParseFakerTemplate.
    rewrite Hf, Hg. set_solver.
  - unfold validateColumns. simpl. by apply IH.
Qed.

Lemma ValidateRules_unknown configuration tableOrder columnOrder
    tableName tableConfig columns c rule f :
  Configuration cfg = Some configuration →
  tableName ∈ tableOrder → c ∈ columnOrder tableName →
  configuration !! tableName = Some (Some tableConfig) →
  Columns tableConfig = Some columns →
  columns !! c = Some rule → FindStringSubmatch rule = Some f →
  GetFakerFunc gofakeit f = None →
  unknownFakerMessage f tableName c ∈ ValidateRules gofakeit cfg tableOrder columnOrder.
Proof.
  intros Hcfg Ht Hc Htc Hcols Hrule Hf Hg. unfold ValidateRules. rewrite Hcfg.
  generalize (@nil string) as errors.
  induction tableOrder as [|t tableOrder IH]; intros errors; [by apply elem_of_nil in Ht|].
  simpl. apply elem_of_cons in Ht as [<-|Ht]; [|by apply IH].
  rewrite Htc, Hcols.
  generalize (validateColumns_unknown tableName columns (columnOrder tableName)
                errors c rule f Hc Hrule Hf Hg).
  generalize (validateColumns gofakeit tableName columns (columnOrder tableName) errors).
  clear -cfg. intros errors' He. revert errors' He.
  induction tableOrder as [|t tableOrder IH]; intros errors' He; [done|].
  simpl. apply IH.
  destruct (configuration !! t) as [[tc|]|]; [|done..].
  destruct (Columns tc); [|done]. by apply validateColumns_mono.
Qed.

(** *** Frame *)

Lemma AnonymiseRow_heap_frame order tableName rowRef (w : world) l :
  is_Some (heap w !! l) →
  heap (AnonymiseRow gofakeit cfg order tableName rowRef w).2 !! l = heap w !! l.
Proof.
  intros Hl.
  destruct (GetTableConfig cfg tableName) as [tc|] eqn:Htc.
  - destruct (Columns tc) as [columns|] eqn:Hc.
    + rewrite (AnonymiseRow_configured _ _ _ _ _ _ Htc Hc). simpl.
      apply lookup_insert_ne. intros <-. rewrite fresh_heap in Hl. by destruct Hl.
    + rewrite AnonymiseRow_unconfigured; [done|]. intros ? ?. congruence.
  - rewrite AnonymiseRow_unconfigured; [done|]. intros ? ?. congruence.
Qed.

Lemma AnonymiseRow_column_frame order tableName rowRef (w : world) c :
  (∀ tableConfig columns, GetTableConfig cfg tableName = Some tableConfig →
     Columns tableConfig = Some columns → columns !! c = None) →
  let r := AnonymiseRow gofakeit cfg order tableName rowRef w in
  rowAt r.2 r.1 !! c = rowAt w rowRef !! c.
Proof.
  intros Hnone. simpl.
  destruct (GetTableConfig cfg tableName) as [tc|] eqn:Htc.
  - destruct (Columns tc) as [columns|] eqn:Hc.
    + rewrite (AnonymiseRow_rowAt _ _ _ _ _ _ Htc Hc).
      apply (anonymiseColumns_frame gofakeit columns order
               (rowAt w rowRef, consistencyMap w, rand w)).
      intros _. eauto.
    + rewrite AnonymiseRow_unconfigured; [done|]. intros ? ?. congruence.
  - rewrite AnonymiseRow_unconfigured; [done|]. intros ? ?. congruence.
Qed.

Lemma AnonymiseRow_present order tableName rowRef (w : world) c :
  let r := AnonymiseRow gofakeit cfg order tableName rowRef w in
  is_Some (rowAt r.2 r.1 !! c) ↔ is_Some (rowAt w rowRef !! c).
Proof.
  simpl.
  destruct (GetTableConfig cfg tableName) as [tc|] eqn:Htc.
  - destruct (Columns tc) as [columns|] eqn:Hc.
    + rewrite (AnonymiseRow_rowAt _ _ _ _ _ _ Htc Hc).
      apply (anonymiseColumns_present gofakeit columns order
               (rowAt w rowRef, consistencyMap w, rand w)).
    + rewrite AnonymiseRow_unconfigured; [done|]. intros ? ?. congruence.
  - rewrite AnonymiseRow_unconfigured; [done|]. intros ? ?. congruence.
Qed.

Lemma AnonymiseRow_fresh order tableName tableConfig columns rowRef (w : world) :
  GetTableConfig cfg tableName = Some tableConfig →
  Columns tableConfig = Some columns →
  heap w !! (AnonymiseRow gofakeit cfg order tableName rowRef w).1 = None.
Proof.
  intros Htc Hc. rewrite (AnonymiseRow_configured _ _ _ _ _ _ Htc Hc). simpl.
  apply fresh_heap.
Qed.
End rows.

(** * The claims of the specification *)

(** Decidable facts about concrete inputs, settled by evaluation. *)
Ltac by_evaluation := refine (bool_decide_unpack _ _); vm_compute; exact I.

(** One case per element of a concrete list. *)
Ltac by_evaluation_exists f Hf :=
  repeat (apply elem_of_cons in Hf as [->|Hf]; [by eexists|]); by apply elem_of_nil in Hf.

(** ** Dependency ordering *)

(** The scenario of the specification: [orders] refers to [users]. *)
Example sort_orders_users :
  sortedNames (SortTablesByDependency
                 (mkDriver (Ok [foreignKey "orders" "users"]))
                 ["orders"; "users"] [table "orders"; table "users"])
  = Some ["users"; "orders"].
Proof. vm_compute. reflexivity. Qed.

(** The driver's error is the only error. *)
Example sort_driver_error order tables :
  SortTablesByDependency (mkDriver (Err "connection lost")) order tables
  = Some (Err "failed to get foreign keys: connection lost").
Proof. reflexivity. Qed.

(** The claim C1 as the specification words it fails on a list that
    names a table twice: the maps of the ordering are keyed by name, the
    queue holds each name once, and the second entry is lost. *)
Lemma repeated_name_loses_a_table :
  range_order (buildDependencies repeatedTables repeatedKeys) ["a"; "b"] ∧
  SortTablesByDependency (mkDriver (Ok repeatedKeys)) ["a"; "b"] repeatedTables
    = Some (Ok [table "a"; table "b"]) ∧
  ¬ ([table "a"; table "b"] ≡ₚ repeatedTables).
Proof.
  split_and!; [by_evaluation|vm_compute; reflexivity|].
  intros Hperm%Permutation_length. discriminate.
Qed.

(** C1 (amended). For every list of tables with pairwise distinct names,
    every list of foreign keys (self-references and cycles included) and
    every order in which Go traverses the dependency map,
    [SortTablesByDependency] returns without error, and what it returns is
    a permutation of the input tables: each table once, none dropped.  The
    only error is the driver's. *)
Theorem SortTablesByDependency_permutation driver fks order tables :
  GetForeignKeys driver = Ok fks →
  NoDup (Name <$> tables) →
  range_order (buildDependencies tables fks) order →
  ∃ sorted,
    SortTablesByDependency driver order tables = Some (Ok sorted) ∧
    sorted ≡ₚ tables.
Proof.
  intros Hfks Hnd Horder. unfold SortTablesByDependency. rewrite Hfks.
  by apply topologicalSort_Permutation.
Qed.

Lemma SortTablesByDependency_permutation_witness :
  ∃ sorted,
    SortTablesByDependency (mkDriver (Ok cyclicKeys)) ["x"; "b"; "a"] cyclicTables
      = Some (Ok sorted) ∧
    sorted ≡ₚ cyclicTables.
Proof.
  apply (SortTablesByDependency_permutation (mkDriver (Ok cyclicKeys)) cyclicKeys).
  - reflexivity.
  - by_evaluation.
  - by_evaluation.
Defined.

(** C2. When the foreign keys between distinct tables of the set form no
    cycle, every table comes after each table it depends on: for an edge
    from [a] to [b], the position of [b] in the result is strictly smaller
    than the position of [a]. *)
Theorem SortTablesByDependency_precedes driver fks order tables a b :
  GetForeignKeys driver = Ok fks →
  NoDup (Name <$> tables) →
  range_order (buildDependencies tables fks) order →
  Irreflexive (tc (dependsOn tables fks)) →
  dependsOn tables fks a b →
  ∃ sorted i j,
    SortTablesByDependency driver order tables = Some (Ok sorted) ∧
    (Name <$> sorted) !! i = Some b ∧
    (Name <$> sorted) !! j = Some a ∧
    (i < j)%nat.
Proof.
  intros Hfks Hnd Horder Hacyc Hab. unfold SortTablesByDependency. rewrite Hfks.
  by apply topologicalSort_precedes.
Qed.

Lemma SortTablesByDependency_precedes_witness :
  ∃ sorted i j,
    SortTablesByDependency (mkDriver (Ok shopKeys))
      ["users"; "order_items"; "products"; "orders"] shopTables = Some (Ok sorted) ∧
    (Name <$> sorted) !! i = Some "orders" ∧
    (Name <$> sorted) !! j = Some "order_items" ∧
    (i < j)%nat.
Proof.
  apply (SortTablesByDependency_precedes (mkDriver (Ok shopKeys)) shopKeys).
  - reflexivity.
  - by_evaluation.
  - by_evaluation.
  - apply (rankDecreasing_acyclic shopRank). vm_compute. reflexivity.
  - split_and!; [done|set_solver..|].
    exists (foreignKey "order_items" "orders"). split; [set_solver|done].
Defined.

(** C6. The order of the tables that become ready together follows the
    order in which Go traverses the dependency map, not the input order:
    on the tables [p; c1; c2], both children depending on [p], one
    traversal order gives [p; c1; c2] and another gives [p; c2; c1]. *)
Theorem tie_break_follows_map_order :
  range_order (buildDependencies familyTables familyKeys) ["c1"; "c2"; "p"] ∧
  range_order (buildDependencies familyTables familyKeys) ["c2"; "c1"; "p"] ∧
  sortedNames (SortTablesByDependency (mkDriver (Ok familyKeys))
                 ["c1"; "c2"; "p"] familyTables) = Some ["p"; "c1"; "c2"] ∧
  sortedNames (SortTablesByDependency (mkDriver (Ok familyKeys))
                 ["c2"; "c1"; "p"] familyTables) = Some ["p"; "c2"; "c1"].
Proof.
  split_and!; [by_evaluation|by_evaluation|vm_compute; reflexivity..].
Qed.

(** ** Foreign-key tracker *)

Lemma GetExportedCount_two table column v1 v2 :
  v1 ≠ VNil → v2 ≠ VNil →
  keyEqb (normalizeValue v2) (normalizeValue v1) = false →
  GetExportedCount
    (RecordValue (RecordValue NewTracker table column v1) table column v2)
    table column = 2.
Proof.
  intros H1 H2 Hne. unfold GetExportedCount.
  rewrite RecordValue_lookup, RecordValue_getd by done.
  unfold getd, NewTracker. simpl. rewrite lookup_empty. simpl.
  unfold setInsert. simpl. by rewrite Hne.
Qed.

(** The claim C5 as the specification words it fails on a float NaN: Go
    compares map keys with [==], and a NaN differs from itself, so the
    recorded value is never found. *)
Lemma tracker_loses_NaN :
  HasValue (RecordValue NewTracker "readings" "value" (VFloat64 nan))
           "readings" "value" (VFloat64 nan) = false.
Proof. vm_compute. reflexivity. Qed.

(** C5 (amended). Every value recorded in the tracker that is not a float
    NaN is found again under its table and column, as is every value with
    the same normal form (the integer types of one number, a byte slice
    and its string), whatever else is recorded before or after.  Recording
    nil changes nothing, the count included, and nil is contained for
    every table and column. *)
Theorem tracker_contains_recorded t records table column v w t' table' column' :
  (table, column, v) ∈ records →
  isNaN v = false →
  normalizeValue w = normalizeValue v →
  HasValue (recordAll t records) table column w = true ∧
  RecordValue t' table' column' VNil = t' ∧
  GetExportedCount (RecordValue t' table' column' VNil) table' column' =
    GetExportedCount t' table' column' ∧
  HasValue t' table' column' VNil = true.
Proof.
  intros Hin Hnan Hw. split; [|done].
  assert (v = VNil ∨ v ≠ VNil) as [->|Hv] by (destruct v; auto).
  - apply normalizeValue_VNil in Hw as ->. apply HasValue_VNil.
  - by apply (HasValue_recordAll records t table column v w).
Qed.

Lemma tracker_contains_recorded_witness :
  HasValue (recordAll NewTracker
              [("users", "id", VInt32 7); ("users", "uuid", VString "abc-123");
               ("users", "id", VNil)])
           "users" "id" (VUint 7) = true ∧
  RecordValue NewTracker "orders" "user_id" VNil = NewTracker ∧
  GetExportedCount (RecordValue NewTracker "orders" "user_id" VNil) "orders" "user_id" =
    GetExportedCount NewTracker "orders" "user_id" ∧
  HasValue NewTracker "orders" "user_id" VNil = true.
Proof.
  apply (tracker_contains_recorded NewTracker _ "users" "id" (VInt32 7) (VUint 7)).
  - set_solver.
  - reflexivity.
  - reflexivity.
Defined.

(** C10. [normalizeValue] sends a [uint64] to the signed 64-bit integer
    with the same low 64 bits: itself below 2^63, negative from 2^63 on.
    On the [uint64] range the map is one-to-one and reaches every [int64],
    so two different [uint64] values take two places in the exported-key
    set, and after recording [u] a non-nil value is contained exactly when
    its normal form is [int64(u)] or it was contained before. *)
Theorem uint64_normalisation_bijective u t table column x :
  0 ≤ u < 2 ^ 64 →
  x ≠ VNil →
  normalizeValue (VUint64 u) = VInt64 (if decide (u < 2 ^ 63) then u else u - 2 ^ 64) ∧
  (2 ^ 63 ≤ u → int64 u < 0) ∧
  (∀ u', 0 ≤ u' < 2 ^ 64 →
         normalizeValue (VUint64 u') = normalizeValue (VUint64 u) → u' = u) ∧
  (∀ k, - 2 ^ 63 ≤ k < 2 ^ 63 →
        ∃ u', 0 ≤ u' < 2 ^ 64 ∧ normalizeValue (VUint64 u') = VInt64 k) ∧
  (∀ u', 0 ≤ u' < 2 ^ 64 → u' ≠ u →
         GetExportedCount
           (RecordValue (RecordValue NewTracker table column (VUint64 u))
                        table column (VUint64 u')) table column = 2) ∧
  (HasValue (RecordValue t table column (VUint64 u)) table column x = true ↔
   normalizeValue x = VInt64 (int64 u) ∨ HasValue t table column x = true) ∧
  (HasValue (RecordValue NewTracker table column (VUint64 u)) table column x = true ↔
   normalizeValue x = VInt64 (int64 u)).
Proof.
  intros Hu Hx. split_and!.
  - simpl. f_equal. case_decide; [apply int64_small|apply int64_large]; lia.
  - intros ?. rewrite int64_large by lia. lia.
  - intros u' Hu' [= Heq]. by apply int64_uint64_inj.
  - intros k Hk. destruct (decide (0 ≤ k)).
    + exists k. split; [lia|]. simpl. by rewrite int64_small by lia.
    + exists (k + 2 ^ 64). split; [lia|]. simpl. rewrite int64_large by lia.
      f_equal. lia.
  - intros u' Hu' Hne. apply GetExportedCount_two; [done..|].
    simpl. apply Z.eqb_neq. intros Heq. by apply Hne, int64_uint64_inj.
  - by apply HasValue_RecordValue_uint64.
  - rewrite HasValue_RecordValue_uint64 by done.
    rewrite (HasValue_unfold NewTracker) by done.
    unfold getd, NewTracker, setMember. simpl. rewrite lookup_empty. simpl.
    split; [by intros [?|?]|auto].
Qed.

Lemma uint64_normalisation_bijective_witness :
  normalizeValue (VUint64 (2 ^ 64 - 1)) = VInt64 (-1) ∧
  HasValue (RecordValue NewTracker "events" "id" (VUint64 (2 ^ 64 - 1)))
           "events" "id" (VInt64 (-1)) = true.
Proof.
  destruct (uint64_normalisation_bijective (2 ^ 64 - 1) NewTracker "events" "id"
              (VInt64 (-1))) as (Hn & _ & _ & _ & _ & _ & Hhas).
  - lia.
  - discriminate.
  - split; [exact Hn|]. apply Hhas. reflexivity.
Defined.

(** ** Retention dates *)

(** C8. [parseDate] tries four layouts, in this order: the date, the date
    and time separated by [T], the date and time separated by a space, and
    RFC 3339 with its zone.  When [time.Parse] accepts the string under
    some layout, the result is that of the first layout that accepts it;
    when it accepts it under none, [parseDate] returns an error, and
    [UnmarshalYAML] and [UnmarshalJSON] return an error and leave the
    retention configuration as it was. *)
Theorem parseDate_first_matching_format {Time : Type}
    (time_Parse : string → string → result Time) (Quote : string → string)
    (s : string) :
  formats = ["2006-01-02"; "2006-01-02T15:04:05"; "2006-01-02 15:04:05";
             "2006-01-02T15:04:05Z07:00"] ∧
  (∀ i f t,
     formats !! i = Some f → time_Parse f s = Ok t →
     (∀ j g, (j < i)%nat → formats !! j = Some g → ∃ e, time_Parse g s = Err e) →
     parseDate time_Parse s = Ok t) ∧
  ((∃ f t, f ∈ formats ∧ time_Parse f s = Ok t) →
   ∃ t, parseDate time_Parse s = Ok t) ∧
  ((∀ f, f ∈ formats → ∃ e, time_Parse f s = Err e) →
   (∃ e, parseDate time_Parse s = Err e) ∧
   ∀ r columnName,
     columnName ≠ "" → s ≠ "" →
     ∃ e, Unmarshal time_Parse Quote r
            (NodeObject {| raw_ColumnName := columnName; raw_AfterDate := s |})
          = (r, Some e)).
Proof.
  pose proof (parseDateWith_firstMatch time_Parse formats s) as Hpd.
  fold (parseDate time_Parse s) in Hpd.
  split_and!.
  - reflexivity.
  - intros i f t Hi Hf Hbefore.
    assert (Hfm : firstMatch time_Parse formats s = Some t)
      by (apply firstMatch_spec; eauto 10).
    by rewrite Hfm in Hpd.
  - intros (f & t & Hin & Hf).
    destruct (firstMatch time_Parse formats s) as [t'|] eqn:Hfm; [eauto|].
    destruct (proj1 (firstMatch_None time_Parse formats s) Hfm f Hin) as [e He].
    congruence.
  - intros Hnone. apply firstMatch_None in Hnone. rewrite Hnone in Hpd.
    split; [done|]. intros r columnName Hc Hs. destruct Hpd as [e He].
    unfold Unmarshal. simpl. rewrite !bool_decide_eq_false_2 by done.
    rewrite He. eauto.
Qed.

Lemma parseDate_first_matching_format_witness :
  parseDate exampleParse "2024-01-01 00:00:00" = Ok 19723 ∧
  ∃ e, parseDate exampleParse "01/01/2024" = Err e.
Proof.
  destruct (parseDate_first_matching_format exampleParse exampleQuote
              "2024-01-01 00:00:00") as (_ & Hfirst & _ & _).
  destruct (parseDate_first_matching_format exampleParse exampleQuote "01/01/2024")
    as (_ & _ & _ & Hnone).
  split.
  - apply (Hfirst 2%nat "2006-01-02 15:04:05").
    + reflexivity.
    + reflexivity.
    + intros [|[|j]] g Hj Hg; [| |lia]; simpl in Hg; simplify_eq; by eexists.
  - apply Hnone. intros f Hf. by_evaluation_exists f Hf.
Defined.

(** ** Anonymiser *)

(** C3. The code misses what the claim says, and what its own comment
    announces, for values that are not strings: [AnonymiseRow] reads every
    such value as the empty string, which the consistency map never
    stores, so two rows with the integer 7 in a column with a faker
    template receive different substitutes. *)
Lemma substitute_differs_for_equal_integers :
  usersColumns !! "id" = Some "{{faker.number}}" ∧
  rowAt integerRows 1 !! "id" = Some (VInt 7) ∧
  rowAt integerCall1.2 2 !! "id" = Some (VInt 7) ∧
  rowAt integerCall1.2 integerCall1.1 !! "id" ≠
  rowAt integerCall2.2 integerCall2.1 !! "id".
Proof. vm_compute. split_and!; [done..|]. discriminate. Qed.

(** Where the consistency map does its work: within one run, all rows
    that carry the same non-empty string in a column with a faker template
    of one table receive the same substitute from [AnonymiseRow], whatever
    happens in between; the substitute is the entry of the consistency map
    under the key [column ++ ":" ++ original string]. *)
Theorem AnonymiseRow_consistent_strings {Rng : Type}
    (gofakeit : gofakeitCall → Rng → string * Rng) cfg tableName tableConfig
    columns c rule f s o1 row1 (w1 : world) o2 row2 (w2 : world) :
  GetTableConfig cfg tableName = Some tableConfig →
  Columns tableConfig = Some columns →
  columns !! c = Some rule →
  FindStringSubmatch rule = Some f →
  range_order columns o1 → range_order columns o2 →
  s ≠ "" →
  rowAt w1 row1 !! c = Some (VString s) →
  rowAt w2 row2 !! c = Some (VString s) →
  let r1 := AnonymiseRow gofakeit cfg o1 tableName row1 w1 in
  rtc (runStep gofakeit cfg) r1.2 w2 →
  let r2 := AnonymiseRow gofakeit cfg o2 tableName row2 w2 in
  ∃ x, rowAt r1.2 r1.1 !! c = Some (VString x) ∧
       rowAt r2.2 r2.1 !! c = Some (VString x) ∧
       consistencyMap r2.2 !! (c +:+ ":" +:+ s) = Some x.
Proof.
  intros Htc Hcols Hrule Hf Ho1 Ho2 Hs Hrow1 Hrow2 r1 Hrun r2.
  by apply (consistent_substitute gofakeit cfg
              o1 tableName tableConfig columns rule f row1 w1
              o2 tableName tableConfig columns rule f row2 w2 c s).
Qed.

Lemma AnonymiseRow_consistent_strings_witness :
  ∃ x, rowAt sameCall1.2 sameCall1.1 !! "email" = Some (VString x) ∧
       rowAt sameCall2.2 sameCall2.1 !! "email" = Some (VString x) ∧
       consistencyMap sameCall2.2 !! "email:same@example.com" = Some x.
Proof.
  apply (AnonymiseRow_consistent_strings exampleFaker exampleConfig "users"
           {| Truncate := false; Columns := Some usersColumns |} usersColumns
           "email" "{{faker.email}}" "email" "same@example.com"
           ["email"; "id"] 1%positive sameRows ["id"; "email"] 2%positive).
  - reflexivity.
  - reflexivity.
  - reflexivity.
  - reflexivity.
  - by_evaluation.
  - by_evaluation.
  - discriminate.
  - reflexivity.
  - reflexivity.
  - apply rtc_refl.
Defined.

(** The claim C7 as the specification words it fails for the empty
    string: an empty original is not entered in the consistency map, so two
    tables with an empty [email] receive two fresh substitutes. *)
Lemma substitute_differs_for_empty_strings :
  usersColumns !! "email" = Some "{{faker.email}}" ∧
  customersColumns !! "email" = Some "{{faker.email}}" ∧
  rowAt emptyRows 1 !! "email" = Some (VString "") ∧
  rowAt emptyCall1.2 2 !! "email" = Some (VString "") ∧
  rowAt emptyCall1.2 emptyCall1.1 !! "email" ≠
  rowAt emptyCall2.2 emptyCall2.1 !! "email".
Proof. vm_compute. split_and!; [done..|]. discriminate. Qed.

(** C7 (amended). The consistency map is keyed by the column name, not by
    the table: when two tables both put a faker template on a column of
    one name, rows of the two tables that carry the same non-empty string
    in that column receive the same substitute within one run. *)
Theorem AnonymiseRow_consistent_across_tables {Rng : Type}
    (gofakeit : gofakeitCall → Rng → string * Rng) cfg c s
    table1 tableConfig1 columns1 rule1 f1 o1 row1 (w1 : world)
    table2 tableConfig2 columns2 rule2 f2 o2 row2 (w2 : world) :
  GetTableConfig cfg table1 = Some tableConfig1 →
  Columns tableConfig1 = Some columns1 →
  columns1 !! c = Some rule1 → FindStringSubmatch rule1 = Some f1 →
  range_order columns1 o1 →
  GetTableConfig cfg table2 = Some tableConfig2 →
  Columns tableConfig2 = Some columns2 →
  columns2 !! c = Some rule2 → FindStringSubmatch rule2 = Some f2 →
  range_order columns2 o2 →
  s ≠ "" →
  rowAt w1 row1 !! c = Some (VString s) →
  rowAt w2 row2 !! c = Some (VString s) →
  let r1 := AnonymiseRow gofakeit cfg o1 table1 row1 w1 in
  rtc (runStep gofakeit cfg) r1.2 w2 →
  let r2 := AnonymiseRow gofakeit cfg o2 table2 row2 w2 in
  ∃ x, rowAt r1.2 r1.1 !! c = Some (VString x) ∧
       rowAt r2.2 r2.1 !! c = Some (VString x).
Proof.
  intros Htc1 Hc1 Hr1 Hf1 Ho1 Htc2 Hc2 Hr2 Hf2 Ho2 Hs Hrow1 Hrow2 r1 Hrun r2.
  destruct (consistent_substitute gofakeit cfg
              o1 table1 tableConfig1 columns1 rule1 f1 row1 w1
              o2 table2 tableConfig2 columns2 rule2 f2 row2 w2 c s)
    as (x & ? & ? & _); eauto.
Qed.

Lemma AnonymiseRow_consistent_across_tables_witness :
  ∃ x, rowAt sameCall1.2 sameCall1.1 !! "email" = Some (VString x) ∧
       rowAt sameCall2'.2 sameCall2'.1 !! "email" = Some (VString x).
Proof.
  apply (AnonymiseRow_consistent_across_tables exampleFaker exampleConfig
           "email" "same@example.com"
           "users" {| Truncate := false; Columns := Some usersColumns |} usersColumns
           "{{faker.email}}" "email" ["email"; "id"] 1%positive sameRows
           "customers" {| Truncate := false; Columns := Some customersColumns |}
           customersColumns "{{faker.email}}" "email" ["email"] 2%positive).
  - reflexivity.
  - reflexivity.
  - reflexivity.
  - reflexivity.
  - by_evaluation.
  - reflexivity.
  - reflexivity.
  - reflexivity.
  - reflexivity.
  - by_evaluation.
  - discriminate.
  - reflexivity.
  - reflexivity.
  - apply rtc_refl.
Defined.

(** The claim C4 as the specification words it fails: under a rule that
    names an unknown generator the value is not left as it was, the empty
    string replaces it. *)
Lemma unknown_generator_empties_value :
  staffColumns !! "email" = Some "{{faker.unknownFunc}}" ∧
  GetFakerFunc exampleFaker "unknownFunc" = None ∧
  rowAt johnRows 1 !! "email" = Some (VString "john@example.com") ∧
  rowAt staffCall.2 staffCall.1 !! "email" ≠ rowAt johnRows 1 !! "email".
Proof. vm_compute. split_and!; [done..|]. discriminate. Qed.

(** C4 (amended). When a rule names a generator that is not in the
    registry, [AnonymiseRow] replaces the value of that column, when the
    row has it, by a string: the substitute the consistency map already
    holds under the key of the column, and the empty string when it holds
    none (no other ruled column of the row sharing that key).
    [ValidateRules] reports the name in a message of the list it returns,
    which is a list of strings and no error. *)
Theorem AnonymiseRow_unknown_generator {Rng : Type}
    (gofakeit : gofakeitCall → Rng → string * Rng) cfg configuration tableName
    tableConfig columns c rule f v order rowRef (w : world) tableOrder columnOrder :
  Configuration cfg = Some configuration →
  configuration !! tableName = Some (Some tableConfig) →
  Columns tableConfig = Some columns →
  columns !! c = Some rule →
  FindStringSubmatch rule = Some f →
  GetFakerFunc gofakeit f = None →
  range_order columns order →
  rowAt w rowRef !! c = Some v →
  keyClashFree columns (rowAt w rowRef) c = true →
  range_order configuration tableOrder →
  range_order columns (columnOrder tableName) →
  let r := AnonymiseRow gofakeit cfg order tableName rowRef w in
  rowAt r.2 r.1 !! c =
    Some (VString (default "" (consistencyMap w !! consistencyKey c (originalStrOf v)))) ∧
  unknownFakerMessage f tableName c ∈ ValidateRules gofakeit cfg tableOrder columnOrder.
Proof.
  intros Hcfg Htable Hcols Hrule Hf Hg Ho Hv Hfree Hto Hco r.
  assert (Htc : GetTableConfig cfg tableName = Some tableConfig).
  { unfold GetTableConfig, getd. by rewrite Hcfg, Htable. }
  split.
  - by apply (AnonymiseRow_unknown gofakeit cfg order tableName tableConfig columns
                c rule f v rowRef w).
  - apply (ValidateRules_unknown gofakeit cfg configuration tableOrder columnOrder
             tableName tableConfig columns c rule f); try done.
    + apply (range_order_elem_of _ _ _ Hto). by rewrite Htable.
    + apply (range_order_elem_of _ _ _ Hco). by rewrite Hrule.
Qed.

Lemma AnonymiseRow_unknown_generator_witness :
  rowAt staffCall.2 staffCall.1 !! "email" = Some (VString "") ∧
  "unknown faker function 'unknownFunc' for staff.email"
    ∈ ValidateRules exampleFaker exampleConfig ["users"; "staff"; "customers"]
        exampleColumnOrder.
Proof.
  apply (AnonymiseRow_unknown_generator exampleFaker exampleConfig exampleConfiguration
           "staff" {| Truncate := false; Columns := Some staffColumns |} staffColumns
           "email" "{{faker.unknownFunc}}" "unknownFunc" (VString "john@example.com")
           ["email"] 1%positive johnRows).
  - reflexivity.
  - reflexivity.
  - reflexivity.
  - reflexivity.
  - reflexivity.
  - reflexivity.
  - by_evaluation.
  - reflexivity.
  - reflexivity.
  - by_evaluation.
  - by_evaluation.
Defined.

(** The claim C9 as the specification words it fails for a table without
    configuration: [AnonymiseRow] returns the map it was given, not a new
    one. *)
Lemma unconfigured_table_returns_input_map :
  GetTableConfig exampleConfig "orders" = None ∧
  heap johnRows !! 1%positive = Some johnRow ∧
  ordersCall.1 = 1%positive.
Proof. vm_compute. done. Qed.

(** A rule map that is empty but not nil does not take the early return:
    the result is a copy of the row in a map of its own. *)
Example empty_rules_return_a_copy :
  GetTableConfig emptyRulesConfig "logs" =
    Some {| Truncate := false; Columns := Some ∅ |} ∧
  heap johnRows !! 1%positive = Some johnRow ∧
  emptyRulesCall.1 ≠ 1%positive ∧
  rowAt emptyRulesCall.2 emptyRulesCall.1 = johnRow.
Proof. vm_compute. split_and!; [done..| |done]. discriminate. Qed.

(** C9 (amended). Given a row that exists, [AnonymiseRow] modifies no map
    that exists when it is called, the input row included.  A column
    without a rule has in the result the value it has in the input, and a
    column the input lacks is not added.  For a table whose [Columns] map
    is not nil, be it empty, the result is a map allocated by the call;
    for a table without configuration, or with a nil [Columns] map, the
    result is the input map itself and nothing changes. *)
Theorem AnonymiseRow_frame {Rng : Type}
    (gofakeit : gofakeitCall → Rng → string * Rng) cfg order tableName rowRef
    (w : world) :
  is_Some (heap w !! rowRef) →
  let r := AnonymiseRow gofakeit cfg order tableName rowRef w in
  (∀ l, is_Some (heap w !! l) → heap r.2 !! l = heap w !! l) ∧
  (∀ c, (∀ tableConfig columns,
           GetTableConfig cfg tableName = Some tableConfig →
           Columns tableConfig = Some columns → columns !! c = None) →
        rowAt r.2 r.1 !! c = rowAt w rowRef !! c) ∧
  (∀ c, rowAt w rowRef !! c = None → rowAt r.2 r.1 !! c = None) ∧
  ((∀ tableConfig, GetTableConfig cfg tableName = Some tableConfig →
                   Columns tableConfig = None) →
   r = (rowRef, w)) ∧
  (∀ tableConfig columns,
     GetTableConfig cfg tableName = Some tableConfig →
     Columns tableConfig = Some columns →
     heap w !! r.1 = None ∧ r.1 ≠ rowRef).
Proof.
  intros Hrow r. split_and!.
  - intros l Hl. by apply AnonymiseRow_heap_frame.
  - intros c Hc. by apply AnonymiseRow_column_frame.
  - intros c Hc.
    pose proof (AnonymiseRow_present gofakeit cfg order tableName rowRef w c) as Hp.
    simpl in Hp. fold r in Hp. rewrite Hc in Hp.
    destruct (rowAt r.2 r.1 !! c); [|done].
    destruct (proj1 Hp) as [? ?]; [by eexists|done].
  - intros Hnone. by apply AnonymiseRow_unconfigured.
  - intros tableConfig columns Htc Hcols.
    pose proof (AnonymiseRow_fresh gofakeit cfg order tableName tableConfig columns
                  rowRef w Htc Hcols) as Hfresh.
    fold r in Hfresh. split; [done|]. intros Heq. rewrite Heq in Hfresh.
    rewrite Hfresh in Hrow. by destruct Hrow.
Qed.

Lemma AnonymiseRow_frame_witness :
  heap customersCall.2 !! 1%positive = Some johnRow ∧
  rowAt customersCall.2 customersCall.1 !! "id" = Some (VInt 1) ∧
  rowAt customersCall.2 customersCall.1 !! "phone" = None ∧
  customersCall.1 ≠ 1%positive.
Proof.
  destruct (AnonymiseRow_frame exampleFaker exampleConfig ["email"] "customers" 1
              johnRows) as (Hheap & Hcol & Habsent & _ & Hnew).
  - by eexists.
  - split_and!.
    + rewrite Hheap; [reflexivity|by eexists].
    + rewrite Hcol; [reflexivity|].
      intros tableConfig columns [= <-] [= <-]. reflexivity.
    + apply Habsent. reflexivity.
    + eapply Hnew; reflexivity.
Defined.

(** * Further properties of the code *)

Import Database Schema SchemaSpec Introspection.

(** ** Package schema *)

Lemma collectTableInfos_Ok driver tables acc infos :
  collectTableInfos driver tables acc = Ok infos ↔
  ∃ new, infos = acc ++ new ∧
    Forall2 (λ table info,
               Name info = table ∧
               GetTableSchema driver table = Ok (CreateStmt info) ∧
               GetColumns driver table = Ok (Columns info) ∧
               GetRowCount driver table = Ok (RowCount info)) tables new.
Proof.
  revert acc. induction tables as [|table tables IH]; intros acc; simpl.
  - split.
    + intros [= <-]. exists []. by rewrite app_nil_r.
    + intros (new & -> & Hall). apply Forall2_nil_inv_l in Hall as ->.
      by rewrite app_nil_r.
  - destruct (GetTableSchema driver table) as [schema|e1] eqn:E1.
    2:{ split; [done|]. intros (new & _ & Hall).
        apply Forall2_cons_inv_l in Hall as (info & ? & (_ & ? & _) & _ & _). congruence. }
    destruct (GetColumns driver table) as [columns|e2] eqn:E2.
    2:{ split; [done|]. intros (new & _ & Hall).
        apply Forall2_cons_inv_l in Hall as (info & ? & (_ & _ & ? & _) & _ & _). congruence. }
    destruct (GetRowCount driver table) as [rowCount|e3] eqn:E3.
    2:{ split; [done|]. intros (new & _ & Hall).
        apply Forall2_cons_inv_l in Hall as (info & ? & (_ & _ & _ & ?) & _ & _). congruence. }
    rewrite IH. split.
    + intros (new & -> & Hall). eexists (_ :: new). rewrite <-app_assoc. split; [done|].
      constructor; [|done]. by rewrite E1, E2, E3.
    + intros (new & -> & Hall).
      apply Forall2_cons_inv_l in Hall as (info & new' & (Hn & H1 & H2 & H3) & Hall & ->).
      exists new'. rewrite <-app_assoc. split; [|done]. simpl. do 2 f_equal.
      destruct info as [n s c r]. simpl in *. congruence.
Qed.

(** X1. [GetAllTables] succeeds exactly when the driver answers every
    query, and then returns one [TableInfo] per table of the driver, in
    the driver's order, each field holding the driver's answer for that
    table. *)
Theorem GetAllTables_Ok driver infos :
  GetAllTables driver = Ok infos ↔
  ∃ tables, GetTables driver = Ok tables ∧
    Forall2 (λ table info,
               Name info = table ∧
               GetTableSchema driver table = Ok (CreateStmt info) ∧
               GetColumns driver table = Ok (Columns info) ∧
               GetRowCount driver table = Ok (RowCount info)) tables infos.
Proof.
  unfold GetAllTables. destruct (GetTables driver) as [tables|e].
  - rewrite collectTableInfos_Ok. split.
    + intros (new & -> & Hall). eauto.
    + intros (tables' & [= <-] & Hall). eauto.
  - split; [done|]. by intros (? & ? & _).
Qed.

Lemma Forall2_Name_fmap (P : string → TableInfo → Prop) tables infos :
  Forall2 (λ table info, Name info = table ∧ P table info) tables infos →
  Name <$> infos = tables.
Proof.
  induction 1 as [|table info tables infos [Hn _] _ IH]; [done|].
  rewrite fmap_cons. by rewrite Hn, IH.
Qed.

(** X2. The names of the table infos [GetAllTables] returns are the names
    the driver listed, in the same order; when the driver lists no name
    twice, [SortTablesByDependency] returns a permutation of them for every
    set of foreign keys. *)
Theorem GetAllTables_then_sort driver fkDriver fks order tables infos :
  GetTables driver = Ok tables →
  NoDup tables →
  GetAllTables driver = Ok infos →
  GetForeignKeys fkDriver = Ok fks →
  range_order (buildDependencies infos fks) order →
  Name <$> infos = tables ∧
  ∃ sorted, SortTablesByDependency fkDriver order infos = Some (Ok sorted) ∧
            sorted ≡ₚ infos.
Proof.
  intros Htables Hnd Hall Hfks Horder.
  unfold GetAllTables in Hall. rewrite Htables in Hall.
  apply collectTableInfos_Ok in Hall as (new & -> & Hall).
  rewrite app_nil_l in *.
  assert (Hnames : Name <$> new = tables)
    by (eapply Forall2_Name_fmap, Hall).
  split; [done|]. unfold SortTablesByDependency. rewrite Hfks.
  apply topologicalSort_Permutation; [by rewrite Hnames|done].
Qed.

Lemma GetAllTables_then_sort_witness :
  Name <$> exampleInfos = ["orders"; "users"] ∧
  ∃ sorted, SortTablesByDependency (mkDriver (Ok exampleKeys)) ["users"; "orders"]
              exampleInfos = Some (Ok sorted) ∧
            sorted ≡ₚ exampleInfos.
Proof.
  apply (GetAllTables_then_sort exampleIntrospector (mkDriver (Ok exampleKeys))
           exampleKeys).
  - reflexivity.
  - by_evaluation.
  - reflexivity.
  - reflexivity.
  - by_evaluation.
Defined.

Lemma foreignKeyMap_getd fks t :
  getd [] (foldl (fun fkMap fk => <[Table fk := getd [] fkMap (Table fk) ++ [fk]]> fkMap)
                 (∅ : gmap string (list ForeignKey)) fks) t =
  filter (λ fk, Table fk = t) fks.
Proof.
  induction fks as [|fk fks IH] using rev_ind; [done|].
  rewrite foldl_app, filter_app. simpl. rewrite getd_insert.
  destruct (decide (Table fk = t)) as [<-|Hne].
  - rewrite filter_cons_True by done. by rewrite IH.
  - rewrite filter_cons_False by done. by rewrite filter_nil, app_nil_r.
Qed.

Lemma foreignKeyMap_lookup_None fks t :
  foldl (fun fkMap fk => <[Table fk := getd [] fkMap (Table fk) ++ [fk]]> fkMap)
        (∅ : gmap string (list ForeignKey)) fks !! t = None ↔
  ∀ fk, fk ∈ fks → Table fk ≠ t.
Proof.
  induction fks as [|fk fks IH] using rev_ind.
  - simpl. rewrite lookup_empty. split; [|done]. by intros _ fk ?%elem_of_nil.
  - rewrite foldl_app. simpl. rewrite lookup_insert. case_decide as Heq.
    + split; [done|]. intros H. destruct (H fk); [set_solver|done].
    + rewrite IH. set_solver.
Qed.

(** X3. [GetForeignKeyMap] groups the foreign keys by the table that
    holds them: under each table are exactly its keys, in the driver's
    order, and a table without foreign key has no entry.  The driver's
    error comes back unchanged. *)
Theorem GetForeignKeyMap_groups driver fks :
  GetForeignKeys driver = Ok fks →
  ∃ fkMap, GetForeignKeyMap driver = Ok fkMap ∧
    (∀ t, getd [] fkMap t = filter (λ fk, Table fk = t) fks) ∧
    (∀ t, fkMap !! t = None ↔ ∀ fk, fk ∈ fks → Table fk ≠ t).
Proof.
  intros Hfks. unfold GetForeignKeyMap. rewrite Hfks. eexists. split; [done|].
  split; [apply foreignKeyMap_getd|apply foreignKeyMap_lookup_None].
Qed.

Lemma GetForeignKeyMap_groups_witness :
  ∃ fkMap, GetForeignKeyMap (mkDriver (Ok shopKeys)) = Ok fkMap ∧
    (∀ t, getd [] fkMap t = filter (λ fk, Table fk = t) shopKeys) ∧
    (∀ t, fkMap !! t = None ↔ ∀ fk, fk ∈ shopKeys → Table fk ≠ t).
Proof. apply (GetForeignKeyMap_groups (mkDriver (Ok shopKeys)) shopKeys). reflexivity. Defined.

Import Database Schema SchemaSpec Introspection.

Lemma reduceDependents_queue_app ds inDegree queue :
  ∃ added, (reduceDependents ds inDegree queue).2 = queue ++ added.
Proof.
  revert inDegree queue. induction ds as [|d ds IH]; intros inDegree queue; simpl.
  - exists []. by rewrite app_nil_r.
  - destruct (_ =? 0).
    + destruct (IH (<[d:=getd 0 inDegree d - 1]> inDegree) (queue ++ [d])) as [added ->].
      exists (d :: added). by rewrite <-app_assoc.
    + apply IH.
Qed.

(** The queue is served first in, first out. *)
Lemma popNames_prefix fuel dependents queue inDegree done done' :
  popNames fuel dependents queue inDegree done = Some done' →
  ∃ rest, done' = done ++ queue ++ rest.
Proof.
  revert queue inDegree done. induction fuel as [|fuel IH];
    intros queue inDegree done; destruct queue as [|current queue]; simpl.
  - intros [= <-]. exists []. by rewrite !app_nil_r.
  - done.
  - intros [= <-]. exists []. by rewrite !app_nil_r.
  - destruct (reduceDependents_queue_app (getd [] dependents current) inDegree queue)
      as [added Hq].
    destruct (reduceDependents (getd [] dependents current) inDegree queue)
      as [inDegree' queue']. simpl in Hq. subst queue'.
    intros (rest & ->)%IH. exists (added ++ rest). by rewrite <-!app_assoc.
Qed.

Lemma filter_none {A} (P : A → Prop) `{!∀ x, Decision (P x)} (l : list A) :
  (∀ x, x ∈ l → ¬ P x) → filter P l = [].
Proof.
  induction l as [|x l IH]; [done|]. intros Hno.
  rewrite filter_cons_False by (apply Hno; left). apply IH. intros; apply Hno. by right.
Qed.

Lemma filter_all {A} (P : A → Prop) `{!∀ x, Decision (P x)} (l : list A) :
  (∀ x, x ∈ l → P x) → filter P l = l.
Proof.
  induction l as [|x l IH]; [done|]. intros Hall.
  rewrite filter_cons_True by (apply Hall; left). f_equal. apply IH.
  intros; apply Hall. by right.
Qed.

Lemma filter_fmap_Name (done : list string) (tables : list TableInfo) :
  Name <$> filter (λ t, Name t ∉ done) tables =
  filter (λ n, n ∉ done) (Name <$> tables).
Proof.
  induction tables as [|t tables IH]; [done|].
  rewrite fmap_cons, !filter_cons. case_decide; [rewrite fmap_cons|]; by rewrite IH.
Qed.

Section order.
Context (tables : list TableInfo) (fks : list ForeignKey) (order : list string).
Context (Hnodup : NoDup (Name <$> tables)).
Context (Horder : range_order (buildDependencies tables fks) order).
Local Abbreviation names := (Name <$> tables).
Local Abbreviation dependencies := (buildDependencies tables fks).
Local Abbreviation tableOf := (getd zeroTableInfo (buildTableMap tables)).

(** The run of [topologicalSort] in terms of the names the loop placed. *)
Lemma topologicalSort_run :
  ∃ done inDegree,
    popNames (length tables + length order)
      (buildDependents order dependencies (initInDegree tables)).1
      (initQueue tables (buildDependents order dependencies (initInDegree tables)).2)
      (buildDependents order dependencies (initInDegree tables)).2 [] = Some done ∧
    topologicalSort order tables dependencies =
      Some (Ok (appendRemaining tables (tableOf <$> done))) ∧
    queue_inv names dependencies [] inDegree done.
Proof.
  unfold topologicalSort.
  pose proof (queue_inv_init tables fks order Hnodup Horder) as Hinit.
  pose proof (built_dependents tables fks order Horder) as Hdep.
  destruct (buildDependents order dependencies (initInDegree tables))
    as [dependents inDegree] eqn:Eb. simpl in Hinit, Hdep |- *.
  destruct (popNames_inv names dependencies dependents
              (dependencies_names tables fks) Hdep
              (length tables + length order) _ _ [] Hinit)
    as (done & inDegree' & Hpop & Hinv).
  { rewrite length_fmap. simpl. lia. }
  exists done, inDegree'. split_and!; [done| |done].
  pose proof (processQueue_popNames (length tables + length order) dependents
                (buildTableMap tables) (initQueue tables inDegree) inDegree []) as Hpq.
  simpl in Hpq. rewrite Hpq, Hpop. done.
Qed.

Lemma appendRemaining_names (done : list string) :
  NoDup done → (∀ n, n ∈ done → n ∈ names) →
  Name <$> appendRemaining tables (tableOf <$> done) =
  done ++ filter (λ n, n ∉ done) names.
Proof.
  intros Hnd Hsub.
  pose proof (tableOf_names tables Hnodup done Hsub) as Hnames.
  rewrite appendRemaining_spec, fmap_app, Hnames. f_equal.
  case_decide as Hlen.
  - rewrite !length_fmap in Hlen. symmetry. apply filter_none.
    assert (Hperm : done ≡ₚ names).
    { apply submseteq_length_Permutation; [by apply NoDup_submseteq|].
      rewrite length_fmap. lia. }
    intros n Hn Hnin. apply Hnin. by rewrite Hperm.
  - apply filter_fmap_Name.
Qed.

Lemma tableOf_all : tableOf <$> names = tables.
Proof.
  apply list_eq. intros i. rewrite !list_lookup_fmap.
  destruct (tables !! i) as [t|] eqn:E; [|done]. simpl. f_equal.
  unfold getd. rewrite buildTableMap_lookup; [done..|].
  by eapply list_elem_of_lookup_2.
Qed.

Lemma dependencies_nil n :
  getd [] dependencies n = [] ↔ ∀ b, ¬ dependsOn tables fks n b.
Proof.
  split.
  - intros Hnil b Hb%elem_of_buildDependencies. rewrite Hnil in Hb.
    by apply elem_of_nil in Hb.
  - intros Hno. destruct (getd [] dependencies n) as [|b l] eqn:E; [done|].
    destruct (Hno b). apply elem_of_buildDependencies. rewrite E. left.
Qed.
End order.

Import Database Schema SchemaSpec Introspection.

(** X4. The tables that depend on no other table of the set come first
    in the result of [SortTablesByDependency], in the order of the input,
    whatever the other tables and the order of the map traversal. *)
Theorem SortTablesByDependency_ready_first driver fks order tables :
  GetForeignKeys driver = Ok fks →
  NoDup (Name <$> tables) →
  range_order (buildDependencies tables fks) order →
  ∃ sorted rest,
    SortTablesByDependency driver order tables = Some (Ok sorted) ∧
    Name <$> sorted =
      filter (λ n, getd [] (buildDependencies tables fks) n = []) (Name <$> tables)
      ++ rest ∧
    ∀ n, getd [] (buildDependencies tables fks) n = [] ↔
         ∀ b, ¬ dependsOn tables fks n b.
Proof.
  intros Hfks Hnd Horder. unfold SortTablesByDependency. rewrite Hfks.
  destruct (topologicalSort_run tables fks order Hnd Horder)
    as (done & inDegree & Hpop & -> & Hinv).
  apply popNames_prefix in Hpop as (rest & Hdone). simpl in Hdone.
  destruct Hinv as [Hnd' Hnames _ _ _]. rewrite app_nil_r in Hnd', Hnames.
  eexists _, (rest ++ filter (λ n, n ∉ done) (Name <$> tables)).
  split_and!; [done| |apply dependencies_nil].
  rewrite appendRemaining_names by done. rewrite Hdone at 1.
  rewrite initQueue_filter, <-app_assoc. f_equal.
  apply list_filter_iff. intros n.
  rewrite (built_inDegree tables fks order Horder).
  destruct (getd [] (buildDependencies tables fks) n); simpl; split; (done || lia).
Qed.

Lemma SortTablesByDependency_ready_first_witness :
  ∃ sorted rest,
    SortTablesByDependency (mkDriver (Ok shopKeys))
      ["products"; "orders"; "users"; "order_items"] shopTables
      = Some (Ok sorted) ∧
    Name <$> sorted =
      filter (λ n, getd [] (buildDependencies shopTables shopKeys) n = [])
             (Name <$> shopTables) ++ rest ∧
    ∀ n, getd [] (buildDependencies shopTables shopKeys) n = [] ↔
         ∀ b, ¬ dependsOn shopTables shopKeys n b.
Proof.
  apply (SortTablesByDependency_ready_first (mkDriver (Ok shopKeys)) shopKeys).
  - reflexivity.
  - by_evaluation.
  - by_evaluation.
Defined.

(** X5. When no foreign key relates two different tables of the set,
    [SortTablesByDependency] returns the tables as they were given. *)
Theorem SortTablesByDependency_unrelated driver fks order tables :
  GetForeignKeys driver = Ok fks →
  NoDup (Name <$> tables) →
  range_order (buildDependencies tables fks) order →
  (∀ a b, ¬ dependsOn tables fks a b) →
  SortTablesByDependency driver order tables = Some (Ok tables).
Proof.
  intros Hfks Hnd Horder Hno. unfold SortTablesByDependency. rewrite Hfks.
  destruct (topologicalSort_run tables fks order Hnd Horder)
    as (done & inDegree & Hpop & -> & Hinv).
  apply popNames_prefix in Hpop as (rest & Hdone). simpl in Hdone.
  destruct Hinv as [Hnd' Hnames _ _ _]. rewrite app_nil_r in Hnd', Hnames.
  rewrite initQueue_filter in Hdone.
  rewrite filter_all in Hdone.
  2:{ intros n _. rewrite (built_inDegree tables fks order Horder).
      rewrite (proj2 (dependencies_nil tables fks n)); [done|]. intros b. apply Hno. }
  assert (Hrest : rest = []).
  { pose proof (submseteq_length _ _ (NoDup_submseteq _ _ Hnd' Hnames)) as Hlen.
    rewrite Hdone, length_app in Hlen. destruct rest; [done|simpl in Hlen; lia]. }
  subst rest. rewrite app_nil_r in Hdone. subst done.
  rewrite appendRemaining_all_placed by done.
  by rewrite tableOf_all.
Qed.

Lemma SortTablesByDependency_unrelated_witness :
  SortTablesByDependency (mkDriver (Ok [foreignKey "users" "users"])) ["c2"; "p"; "c1"]
                         familyTables
    = Some (Ok familyTables).
Proof.
  apply (SortTablesByDependency_unrelated _ [foreignKey "users" "users"]).
  - reflexivity.
  - by_evaluation.
  - by_evaluation.
  - intros a b (Hne & _ & _ & fk & Hfk & <- & <-).
    apply list_elem_of_singleton in Hfk as ->. by apply Hne.
Defined.

(** X6. With or without cycles, the result of [SortTablesByDependency]
    is the list of the tables the queue loop placed, followed by the others
    in the order of the input.  A placed table comes after every table it
    depends on, and each of the others depends on another of the others:
    the only foreign keys the result does not respect lie among tables on
    or behind a cycle. *)
Theorem SortTablesByDependency_cycles_last driver fks order tables :
  GetForeignKeys driver = Ok fks →
  NoDup (Name <$> tables) →
  range_order (buildDependencies tables fks) order →
  ∃ sorted placed,
    SortTablesByDependency driver order tables = Some (Ok sorted) ∧
    Name <$> sorted = placed ++ filter (λ n, n ∉ placed) (Name <$> tables) ∧
    (∀ a b i, dependsOn tables fks a b → placed !! i = Some a → b ∈ take i placed) ∧
    (∀ a, a ∈ Name <$> tables → a ∉ placed →
          ∃ b, dependsOn tables fks a b ∧ b ∉ placed).
Proof.
  intros Hfks Hnd Horder. unfold SortTablesByDependency. rewrite Hfks.
  destruct (topologicalSort_run tables fks order Hnd Horder)
    as (done & inDegree & _ & -> & Hinv).
  destruct Hinv as [Hnd' Hnames Hdeg Hready Hsorted].
  rewrite app_nil_r in Hnd', Hnames.
  eexists _, done. split_and!; [done|by apply appendRemaining_names| |].
  - intros a b i Hab Hi. apply (Hsorted i a Hi). by apply elem_of_buildDependencies.
  - intros a Ha Hnin.
    assert (Hpos : getd 0 inDegree a ≠ 0).
    { intros Hz. apply Hready in Hz; [|done]. by rewrite app_nil_r in Hz. }
    rewrite (Hdeg a Ha) in Hpos.
    destruct (filter (λ d, d ∉ done) (getd [] (buildDependencies tables fks) a))
      as [|b l] eqn:Ef; [done|].
    assert (Hb : b ∈ filter (λ d, d ∉ done) (getd [] (buildDependencies tables fks) a))
      by (rewrite Ef; left).
    apply list_elem_of_filter in Hb as [Hbn Hb].
    exists b. split; [by apply elem_of_buildDependencies|done].
Qed.

Lemma SortTablesByDependency_cycles_last_witness :
  ∃ sorted placed,
    SortTablesByDependency (mkDriver (Ok cyclicKeys)) ["b"; "x"; "a"] cyclicTables
      = Some (Ok sorted) ∧
    Name <$> sorted = placed ++ filter (λ n, n ∉ placed) (Name <$> cyclicTables) ∧
    (∀ a b i, dependsOn cyclicTables cyclicKeys a b → placed !! i = Some a →
              b ∈ take i placed) ∧
    (∀ a, a ∈ Name <$> cyclicTables → a ∉ placed →
          ∃ b, dependsOn cyclicTables cyclicKeys a b ∧ b ∉ placed).
Proof.
  apply (SortTablesByDependency_cycles_last (mkDriver (Ok cyclicKeys)) cyclicKeys).
  - reflexivity.
  - by_evaluation.
  - by_evaluation.
Defined.

Lemma buildDependencies_relevant tables fks :
  buildDependencies tables (filter (relevantKey tables) fks) =
  buildDependencies tables fks.
Proof.
  apply map_eq. intros t. rewrite !buildDependencies_lookup.
  case_decide as Ht; [|done]. do 2 f_equal.
  rewrite list_filter_filter. apply list_filter_iff.
  intros fk. unfold relevantKey. split; [tauto|]. intros (<- & ? & ?). tauto.
Qed.

(** X7. Self-references and foreign keys that leave the table set have
    no influence on the order: [SortTablesByDependency] returns the same
    result when they are removed from the driver's answer. *)
Theorem SortTablesByDependency_ignores_irrelevant_keys fks order tables :
  SortTablesByDependency (mkDriver (Ok (filter (relevantKey tables) fks))) order tables =
  SortTablesByDependency (mkDriver (Ok fks)) order tables.
Proof.
  unfold SortTablesByDependency. simpl. by rewrite buildDependencies_relevant.
Qed.

Import Fktracker TrackerOps.

(** ** Package fktracker *)

Lemma setInsert_elem_of k s x : x ∈ setInsert k s → x ∈ s ∨ x = k.
Proof.
  unfold setInsert. destruct (existsb _ s).
  - intros (y & -> & Hy)%list_elem_of_fmap. destruct (keyEqb k y); auto.
  - set_solver.
Qed.

Lemma RecordValue_elem_of t table column v key x :
  x ∈ getd [] (exportedKeys (RecordValue t table column v)) key →
  x ∈ getd [] (exportedKeys t) key ∨
  (v ≠ VNil ∧ makeKey table column = key ∧ x = normalizeValue v).
Proof.
  assert (v = VNil ∨ v ≠ VNil) as [->|Hv] by (destruct v; auto); [auto|].
  destruct (decide (key = makeKey table column)) as [->|Hne].
  - rewrite RecordValue_getd by done. intros [?|?]%setInsert_elem_of; auto.
  - rewrite RecordValue_getd_ne by done. auto.
Qed.

Lemma recordAll_elem_of records t key x :
  x ∈ getd [] (exportedKeys (recordAll t records)) key →
  x ∈ getd [] (exportedKeys t) key ∨
  ∃ table column v, (table, column, v) ∈ records ∧ v ≠ VNil ∧
                    makeKey table column = key ∧ x = normalizeValue v.
Proof.
  unfold recordAll. revert t.
  induction records as [|[[a b] v] records IH]; intros t; simpl; [auto|].
  intros [Hx|(table & column & v' & Hin & ?)]%IH.
  - apply RecordValue_elem_of in Hx as [?|(? & ? & ?)]; [auto|].
    right. exists a, b, v. split; [left|done].
  - right. exists table, column, v'. split; [by right|done].
Qed.

(** X8. [HasValue] reports no value that was not recorded: when it
    answers true for a non-nil value on a tracker filled from empty, some
    non-nil value was recorded under the same key, and the two have normal
    forms that Go's [==] holds equal. *)
Theorem HasValue_only_recorded records table column w :
  w ≠ VNil →
  HasValue (recordAll NewTracker records) table column w = true →
  ∃ table' column' v,
    (table', column', v) ∈ records ∧ v ≠ VNil ∧
    makeKey table' column' = makeKey table column ∧
    keyEqb (normalizeValue w) (normalizeValue v) = true.
Proof.
  intros Hw. rewrite HasValue_unfold by done. unfold setMember.
  intros (x & Hx & Heq)%existsb_exists. apply list_elem_of_In in Hx.
  apply recordAll_elem_of in Hx as [Hx|(table' & column' & v & ? & ? & ? & ->)].
  - unfold getd, NewTracker in Hx. simpl in Hx. rewrite lookup_empty in Hx.
    by apply elem_of_nil in Hx.
  - eauto 10.
Qed.

Lemma HasValue_only_recorded_witness :
  ∃ table' column' v,
    (table', column', v) ∈ exampleRecords ∧ v ≠ VNil ∧
    makeKey table' column' = makeKey "users" "id" ∧
    keyEqb (normalizeValue (VUint 7)) (normalizeValue v) = true.
Proof.
  apply (HasValue_only_recorded exampleRecords "users" "id" (VUint 7)).
  - discriminate.
  - reflexivity.
Defined.

Lemma append_dot_inj t t' c c' :
  dotFree t = true → dotFree t' = true →
  t +:+ "." +:+ c = t' +:+ "." +:+ c' → t = t' ∧ c = c'.
Proof.
  revert t'. induction t as [|x t IH]; intros [|y t'] Ht Ht' Heq; simpl in *.
  - split; [done|]. by injection Heq.
  - injection Heq as Hy _. subst y. done.
  - injection Heq as Hx _. subst x. done.
  - injection Heq as -> Heq.
    apply andb_prop in Ht as [_ Ht]. apply andb_prop in Ht' as [_ Ht'].
    destruct (IH t' Ht Ht' Heq) as [-> ->]. done.
Qed.

(** X9. The key of the tracker tells two pairs of table and column apart
    as long as the table names hold no dot: then a value is contained
    under a table and column only if it was recorded under that very table
    and column. *)
Theorem HasValue_only_same_column records table column w :
  w ≠ VNil →
  dotFree table = true →
  (∀ table' column' v, (table', column', v) ∈ records → dotFree table' = true) →
  HasValue (recordAll NewTracker records) table column w = true →
  ∃ v, (table, column, v) ∈ records ∧ v ≠ VNil ∧
       keyEqb (normalizeValue w) (normalizeValue v) = true.
Proof.
  intros Hw Hdot Hdots. rewrite HasValue_unfold by done. unfold setMember.
  intros (x & Hx & Heq)%existsb_exists. apply list_elem_of_In in Hx.
  apply recordAll_elem_of in Hx as [Hx|(table' & column' & v & Hin & Hv & Hkey & ->)].
  - unfold getd, NewTracker in Hx. simpl in Hx. rewrite lookup_empty in Hx.
    by apply elem_of_nil in Hx.
  - unfold makeKey in Hkey.
    apply append_dot_inj in Hkey as [-> ->]; [eauto|by eapply Hdots|done].
Qed.

Lemma HasValue_only_same_column_witness :
  ∃ v, ("users", "uuid", v) ∈ exampleRecords ∧ v ≠ VNil ∧
       keyEqb (normalizeValue (VString "ab")) (normalizeValue v) = true.
Proof.
  apply (HasValue_only_same_column exampleRecords "users" "uuid" (VString "ab")).
  - discriminate.
  - reflexivity.
  - intros table' column' v Hin.
    repeat (apply elem_of_cons in Hin as [[= -> -> ->]|Hin]; [reflexivity|]).
    by apply elem_of_nil in Hin.
  - reflexivity.
Defined.

Lemma setInsert_member k s :
  setMember k s = true → length (setInsert k s) = length s.
Proof. unfold setMember, setInsert. intros ->. apply length_fmap. Qed.

Lemma setInsert_length k s :
  (length s ≤ length (setInsert k s) ≤ length s + 1)%nat.
Proof.
  unfold setInsert. destruct (existsb _ s); [rewrite length_fmap; lia|].
  rewrite length_app. simpl. lia.
Qed.

Lemma GetExportedCount_getd t table column :
  GetExportedCount t table column =
  Z.of_nat (length (getd [] (exportedKeys t) (makeKey table column))).
Proof.
  unfold GetExportedCount, getd. by destruct (exportedKeys t !! makeKey table column).
Qed.

(** X10. The exported keys are a set.  Recording a value that
    [HasValue] already reports leaves the count of its column unchanged,
    recording any value raises that count by one at most and never lowers
    it, and the count of every other key stays as it is. *)
Theorem RecordValue_count t table column v table' column' :
  (v ≠ VNil → HasValue t table column v = true →
   GetExportedCount (RecordValue t table column v) table column =
   GetExportedCount t table column) ∧
  GetExportedCount t table column ≤
    GetExportedCount (RecordValue t table column v) table column ≤
    GetExportedCount t table column + 1 ∧
  (makeKey table' column' ≠ makeKey table column →
   GetExportedCount (RecordValue t table column v) table' column' =
   GetExportedCount t table' column').
Proof.
  rewrite !GetExportedCount_getd. split_and!.
  - intros Hv Hhas. rewrite HasValue_unfold in Hhas by done.
    rewrite RecordValue_getd by done. by rewrite setInsert_member.
  - assert (v = VNil ∨ v ≠ VNil) as [->|Hv] by (destruct v; auto); [simpl; lia|].
    rewrite RecordValue_getd by done.
    pose proof (setInsert_length (normalizeValue v)
                  (getd [] (exportedKeys t) (makeKey table column))). lia.
  - assert (v = VNil ∨ v ≠ VNil) as [->|Hv] by (destruct v; auto); [simpl; lia|].
    rewrite RecordValue_getd by done.
    pose proof (setInsert_length (normalizeValue v)
                  (getd [] (exportedKeys t) (makeKey table column))). lia.
  - intros Hne. by rewrite RecordValue_getd_ne.
Qed.

Lemma RecordValue_count_witness :
  GetExportedCount (RecordValue exampleTracker "users" "id" (VUint 7)) "users" "id" =
  GetExportedCount exampleTracker "users" "id".
Proof.
  destruct (RecordValue_count exampleTracker "users" "id" (VUint 7) "users" "uuid")
    as (Hsame & _ & _).
  apply Hsame.
  - discriminate.
  - reflexivity.
Defined.

Lemma normalizeValue_idemp v : normalizeValue (normalizeValue v) = normalizeValue v.
Proof. by destruct v. Qed.

(** The key stored is the one recorded last: after [+0] and then [-0],
    which [==] holds equal, the set holds [-0] alone. *)
Example exported_key_is_overwritten :
  GetExportedValues (recordAll NewTracker [("readings", "value", VFloat64 0%float);
                                           ("readings", "value", VFloat64 (-0)%float)])
                    "readings" "value" = Some [VFloat64 (-0)%float] ∧
  VFloat64 (-0)%float ≠ VFloat64 0%float.
Proof.
  split; [vm_compute; reflexivity|].
  intros H.
  apply (f_equal (λ v, match v with
                       | VFloat64 f => PrimFloat.is_zero f && PrimFloat.ltb (1 / f) 0
                       | _ => false
                       end)) in H.
  vm_compute in H. discriminate.
Qed.

(** X11. On a tracker filled from empty, [GetExportedValues] returns nil
    exactly when [GetExportedCount] is 0; otherwise it returns as many
    values as the count says, each the normal form of a non-nil value
    recorded under the key, and a normal form is left unchanged by
    [normalizeValue]. *)
Theorem GetExportedValues_recorded records table column r :
  exportedValuesResult (recordAll NewTracker records) table column r →
  (r = None ↔ GetExportedCount (recordAll NewTracker records) table column = 0) ∧
  ∀ result, r = Some result →
    Z.of_nat (length result) =
      GetExportedCount (recordAll NewTracker records) table column ∧
    ∀ x, x ∈ result →
      normalizeValue x = x ∧
      ∃ table' column' v,
        (table', column', v) ∈ records ∧ v ≠ VNil ∧
        makeKey table' column' = makeKey table column ∧ x = normalizeValue v.
Proof.
  unfold exportedValuesResult. rewrite GetExportedCount_getd.
  pose proof (recordAll_elem_of records NewTracker (makeKey table column)) as Helem.
  unfold getd in *.
  destruct (exportedKeys (recordAll NewTracker records) !! makeKey table column)
    as [values|] eqn:E; simpl in *.
  - case_bool_decide as Hlen.
    + intros ->. split; [split; [lia|done]|done].
    + intros (result & -> & Hperm). split; [split; [done|lia]|].
      intros ? [= <-]. split; [by rewrite Hperm|].
      intros x Hx. rewrite Hperm in Hx.
      destruct (Helem x Hx) as [Hemp|(table' & column' & v & ? & ? & ? & ->)].
      * rewrite lookup_empty in Hemp. by apply elem_of_nil in Hemp.
      * split; [apply normalizeValue_idemp|eauto 10].
  - intros ->. split; [done|done].
Qed.

Lemma GetExportedValues_recorded_witness :
  (GetExportedValues exampleTracker "users" "id" = None ↔
   GetExportedCount (recordAll NewTracker exampleRecords) "users" "id" = 0) ∧
  ∀ result, GetExportedValues exampleTracker "users" "id" = Some result →
    Z.of_nat (length result) =
      GetExportedCount (recordAll NewTracker exampleRecords) "users" "id" ∧
    ∀ x, x ∈ result →
      normalizeValue x = x ∧
      ∃ table' column' v,
        (table', column', v) ∈ exampleRecords ∧ v ≠ VNil ∧
        makeKey table' column' = makeKey "users" "id" ∧ x = normalizeValue v.
Proof.
  apply (GetExportedValues_recorded exampleRecords "users" "id").
  vm_compute. eexists. split; reflexivity.
Defined.

Lemma GetExportedValues_result t table column :
  exportedValuesResult t table column (GetExportedValues t table column).
Proof.
  unfold exportedValuesResult, GetExportedValues.
  destruct (exportedKeys t !! makeKey table column) as [values|]; [|done].
  case_bool_decide; [done|]. by exists values.
Qed.

(** X12. [HasValue] and [GetExportedValues] agree on every tracker: a
    non-nil value is contained exactly when the exported values of its
    table and column hold a value that Go's [==] holds equal to its
    normal form. *)
Theorem HasValue_iff_exported t table column w r :
  w ≠ VNil →
  exportedValuesResult t table column r →
  HasValue t table column w = true ↔
  ∃ result x, r = Some result ∧ x ∈ result ∧ keyEqb (normalizeValue w) x = true.
Proof.
  intros Hw. unfold exportedValuesResult.
  assert (HasValue t table column w =
          match exportedKeys t !! makeKey table column with
          | None => false
          | Some values => setMember (normalizeValue w) values
          end) as -> by (by destruct w).
  destruct (exportedKeys t !! makeKey table column) as [values|].
  - case_bool_decide as Hlen.
    + intros ->. destruct values; [|done]. simpl. split; [done|].
      by intros (? & ? & ? & _).
    + intros (result & -> & Hperm). unfold setMember. rewrite existsb_exists. split.
      * intros (x & Hx%list_elem_of_In & Heq). exists result, x.
        split_and!; [done| |done].
        eapply elem_of_Permutation_proper; [exact Hperm|done].
      * intros (? & x & [= <-] & Hx & Heq). exists x. split; [|done].
        apply list_elem_of_In.
        eapply elem_of_Permutation_proper; [symmetry; exact Hperm|done].
  - intros ->. split; [done|]. by intros (? & ? & ? & _).
Qed.

Lemma HasValue_iff_exported_witness :
  HasValue exampleTracker "users" "uuid" (VString "ab") = true ↔
  ∃ result x, GetExportedValues exampleTracker "users" "uuid" = Some result ∧
              x ∈ result ∧ keyEqb (normalizeValue (VString "ab")) x = true.
Proof.
  apply (HasValue_iff_exported exampleTracker "users" "uuid" (VString "ab")).
  - discriminate.
  - vm_compute. eexists. split; reflexivity.
Defined.

Import Config Drivers ConfigOps.

(** ** Package database: the drivers *)

(** X13. [NewDriver] succeeds on the three type names and on nothing
    else, the driver it returns reports the type it was made for, and the
    error names the type that was asked for. *)
Theorem NewDriver_GetDatabaseType dbType :
  (∀ d, NewDriver dbType = Ok d ↔ GetDatabaseType d = dbType) ∧
  ((∀ d, GetDatabaseType d ≠ dbType) →
   NewDriver dbType = Err ("unsupported database type: " +:+ dbType)).
Proof.
  unfold NewDriver. split.
  - intros d. repeat case_bool_decide; subst; destruct d; simpl; split; congruence.
  - intros Hno. repeat case_bool_decide; subst; try done.
    + by destruct (Hno MySQLDriver).
    + by destruct (Hno PostgresDriver).
    + by destruct (Hno SQLiteDriver).
Qed.

Lemma NewDriver_GetDatabaseType_witness :
  NewDriver "oracle" = Err ("unsupported database type: " +:+ "oracle").
Proof.
  destruct (NewDriver_GetDatabaseType "oracle") as [_ Hunknown].
  apply Hunknown. intros []; discriminate.
Defined.

Lemma append_nil_l (s : string) : "" +:+ s = s.
Proof. reflexivity. Qed.

Lemma append_cons (c : ascii) (s t : string) : String c s +:+ t = String c (s +:+ t).
Proof. reflexivity. Qed.

Lemma readQuotedBody_ReplaceAll q name rest :
  startsWith q rest = false →
  readQuotedBody q (ReplaceAll name q (String q (String q EmptyString))
                    +:+ String q rest) = Some (name, rest).
Proof.
  intros Hrest. induction name as [|c name IH]; cbn [ReplaceAll].
  - rewrite ?append_nil_l, ?append_cons, ?append_nil_l. simpl.
    rewrite Ascii.eqb_refl. destruct rest as [|c' rest]; [done|].
    simpl in Hrest. by rewrite Hrest.
  - destruct (Ascii.eqb c q) eqn:E.
    + apply Ascii.eqb_eq in E as ->.
      rewrite ?append_cons, ?append_nil_l, ?append_cons. simpl.
      rewrite !Ascii.eqb_refl. by rewrite IH.
    + rewrite ?append_cons. simpl. rewrite E. by rewrite IH.
Qed.

Lemma string_app_assoc (a b c : string) : (a +:+ b) +:+ c = a +:+ (b +:+ c).
Proof. induction a as [|x a IH]; [done|]. by rewrite !append_cons, IH. Qed.

(** X14. Quoting an identifier is safe for every name: who reads the
    quoted text as SQL does, a doubled quote standing for one, gets the
    name back and stops exactly at its end, whatever follows that does not
    begin with the quote character.  So two different names never have the
    same quoted form. *)
Theorem QuoteIdentifier_read_back d name rest :
  startsWith (quoteChar d) rest = false →
  readQuoted (quoteChar d) (QuoteIdentifier d name +:+ rest) = Some (name, rest) ∧
  ∀ name', QuoteIdentifier d name' = QuoteIdentifier d name → name' = name.
Proof.
  intros Hrest.
  assert (∀ n r, startsWith (quoteChar d) r = false →
                 readQuoted (quoteChar d) (QuoteIdentifier d n +:+ r) = Some (n, r))
    as Hread.
  { intros n r Hr. unfold QuoteIdentifier, readQuoted. rewrite append_cons.
    rewrite Ascii.eqb_refl, string_app_assoc, append_cons, append_nil_l.
    by apply readQuotedBody_ReplaceAll. }
  split; [by apply Hread|].
  intros name' Heq.
  pose proof (Hread name' rest Hrest) as H1.
  rewrite Heq, (Hread name rest Hrest) in H1. congruence.
Qed.

Lemma QuoteIdentifier_read_back_witness :
  readQuoted (quoteChar MySQLDriver) (QuoteIdentifier MySQLDriver "odd`name" +:+ " LIMIT 5")
    = Some ("odd`name", " LIMIT 5") ∧
  ∀ name', QuoteIdentifier MySQLDriver name' = QuoteIdentifier MySQLDriver "odd`name" →
           name' = "odd`name".
Proof.
  apply (QuoteIdentifier_read_back MySQLDriver "odd`name" " LIMIT 5"). reflexivity.
Defined.

(** ** Package config: connection and table registry *)

Lemma bool_decide_is_Some {A} (o : option A) :
  bool_decide (is_Some o) = match o with Some _ => true | None => false end.
Proof.
  destruct o; [by apply bool_decide_eq_true_2|].
  apply bool_decide_eq_false_2. by intros [? ?].
Qed.

Lemma HasTable_tablesOf c n : HasTable c n = bool_decide (is_Some (tablesOf c !! n)).
Proof.
  unfold HasTable, tablesOf. destruct (Configuration c); simpl; [done|].
  rewrite lookup_empty. symmetry. apply bool_decide_eq_false. by intros [? ?].
Qed.

Lemma GetTableConfig_tablesOf c n : GetTableConfig c n = getd None (tablesOf c) n.
Proof.
  unfold GetTableConfig, tablesOf, getd. destruct (Configuration c); simpl; [done|].
  by rewrite lookup_empty.
Qed.

Lemma AddTable_tablesOf c n tc :
  tablesOf (AddTable c n tc).2 =
  if HasTable c n then tablesOf c else <[n := tc]> (tablesOf c).
Proof.
  rewrite HasTable_tablesOf. unfold AddTable, tablesOf.
  destruct (Configuration c) as [m|]; simpl.
  - case_bool_decide as Hhas.
    + destruct Hhas as [x ->]. done.
    + destruct (m !! n) eqn:E; [|done]. destruct Hhas. by eexists.
  - rewrite lookup_empty. case_bool_decide as Hhas; [|done]. by destruct Hhas.
Qed.

Lemma AddTable_fst c n tc : (AddTable c n tc).1 = negb (HasTable c n).
Proof.
  rewrite HasTable_tablesOf. unfold AddTable, tablesOf.
  destruct (Configuration c) as [m|]; simpl.
  - case_bool_decide as Hhas.
    + destruct Hhas as [x ->]. done.
    + destruct (m !! n) eqn:E; [|done]. destruct Hhas. by eexists.
  - rewrite lookup_empty. case_bool_decide as Hhas; [|done]. by destruct Hhas.
Qed.

(** X15. [AddTable] reports true exactly when the table was absent, the
    table is present afterwards, an entry that existed is never
    overwritten (a new one holds the given pointer), and no other table
    is touched. *)
Theorem AddTable_adds_when_absent c tableName tableConfig tableName' :
  (AddTable c tableName tableConfig).1 = negb (HasTable c tableName) ∧
  HasTable (AddTable c tableName tableConfig).2 tableName = true ∧
  GetTableConfig (AddTable c tableName tableConfig).2 tableName =
    (if HasTable c tableName then GetTableConfig c tableName else tableConfig) ∧
  (tableName' ≠ tableName →
   HasTable (AddTable c tableName tableConfig).2 tableName' = HasTable c tableName' ∧
   GetTableConfig (AddTable c tableName tableConfig).2 tableName' =
     GetTableConfig c tableName').
Proof.
  rewrite AddTable_fst, !HasTable_tablesOf, !GetTableConfig_tablesOf, AddTable_tablesOf.
  rewrite HasTable_tablesOf. unfold getd.
  case_bool_decide as Hhas; split_and!; try done.
  - by apply bool_decide_eq_true_2.
  - apply bool_decide_eq_true_2. by rewrite lookup_insert_eq.
  - by rewrite lookup_insert_eq.
  - intros Hne. by rewrite lookup_insert_ne.
Qed.

Lemma AddTable_adds_when_absent_witness :
  HasTable (AddTable AnonymiserSpec.exampleConfig "orders" None).2 "staff" =
    HasTable AnonymiserSpec.exampleConfig "staff" ∧
  GetTableConfig (AddTable AnonymiserSpec.exampleConfig "orders" None).2 "staff" =
    GetTableConfig AnonymiserSpec.exampleConfig "staff".
Proof.
  destruct (AddTable_adds_when_absent AnonymiserSpec.exampleConfig "orders" None "staff")
    as (_ & _ & _ & Hother).
  apply Hother. discriminate.
Defined.

Lemma newTables_filter cfg dbTables :
  newTables cfg dbTables = filter (λ table, HasTable cfg table = false) dbTables.
Proof.
  unfold newTables.
  assert (∀ acc, foldl (λ newTables table,
                          if negb (HasTable cfg table) then newTables ++ [table]
                          else newTables) acc dbTables =
                 acc ++ filter (λ table, HasTable cfg table = false) dbTables) as H.
  { induction dbTables as [|t l IH]; intros acc; simpl.
    - by rewrite app_nil_r.
    - rewrite IH, filter_cons. case_decide as Hhas.
      + rewrite Hhas. simpl. by rewrite <-app_assoc.
      + by destruct (HasTable cfg t). }
  by rewrite H.
Qed.

Lemma addNewTables_lookup tables cfg syncTruncate n :
  tablesOf (addNewTables cfg tables syncTruncate) !! n =
  match tablesOf cfg !! n with
  | Some entry => Some entry
  | None => if decide (n ∈ tables) then Some (Some (syncEntry syncTruncate)) else None
  end.
Proof.
  unfold addNewTables. revert cfg.
  induction tables as [|t l IH]; intros cfg; simpl.
  - by destruct (tablesOf cfg !! n).
  - rewrite IH, AddTable_tablesOf, HasTable_tablesOf.
    assert ((if syncTruncate then {| Truncate := true; Columns := None |}
             else {| Truncate := false; Columns := None |}) = syncEntry syncTruncate)
      as -> by (by destruct syncTruncate).
    case_bool_decide as Hhas.
    + destruct (tablesOf cfg !! n) eqn:E; [done|].
      assert (n ≠ t) by (intros ->; rewrite E in Hhas; by destruct Hhas).
      destruct (decide (n ∈ l)).
      * rewrite decide_True; [done|set_solver].
      * rewrite decide_False; [done|set_solver].
    + destruct (decide (n = t)) as [->|Hne].
      * rewrite lookup_insert_eq.
        assert (tablesOf cfg !! t = None) as ->.
        { destruct (tablesOf cfg !! t) eqn:E; [|done]. by destruct Hhas. }
        rewrite decide_True; [done|set_solver].
      * rewrite lookup_insert_ne by done.
        destruct (tablesOf cfg !! n); [done|].
        destruct (decide (n ∈ l)).
        -- rewrite decide_True; [done|set_solver].
        -- rewrite decide_False; [done|set_solver].
Qed.

(** X16. The sync command completes the configuration and changes
    nothing else: after its two loops every table of the database is in
    the configuration, a table is in the configuration exactly when it was
    there before or the database has it, every entry that existed is as it
    was, every new entry is a table without column rules whose truncate
    flag is the command's flag, and a second run finds no new table. *)
Theorem sync_adds_missing_tables cfg dbTables syncTruncate table :
  HasTable (addNewTables cfg (newTables cfg dbTables) syncTruncate) table =
    HasTable cfg table || bool_decide (table ∈ dbTables) ∧
  GetTableConfig (addNewTables cfg (newTables cfg dbTables) syncTruncate) table =
    (if HasTable cfg table then GetTableConfig cfg table
     else if bool_decide (table ∈ dbTables)
          then Some {| Truncate := syncTruncate; Columns := None |}
          else None) ∧
  newTables (addNewTables cfg (newTables cfg dbTables) syncTruncate) dbTables = [].
Proof.
  assert (∀ n, n ∈ newTables cfg dbTables ↔ n ∈ dbTables ∧ HasTable cfg n = false)
    as Hnew.
  { intros n. rewrite newTables_filter. by rewrite list_elem_of_filter, (comm and). }
  assert (∀ n, HasTable (addNewTables cfg (newTables cfg dbTables) syncTruncate) n =
               HasTable cfg n || bool_decide (n ∈ dbTables)) as Hhas.
  { intros n. pose proof (Hnew n) as Hn. revert Hn.
    rewrite !HasTable_tablesOf, addNewTables_lookup, !bool_decide_is_Some.
    destruct (tablesOf cfg !! n) eqn:E; simpl; [done|]. intros Hn.
    case_decide as Hin; case_bool_decide as Hdb; try done.
    - destruct Hdb. by apply Hn.
    - destruct Hin. by apply Hn. }
  split_and!.
  - apply Hhas.
  - pose proof (Hnew table) as Hn. revert Hn.
    rewrite !GetTableConfig_tablesOf. unfold getd.
    rewrite addNewTables_lookup, HasTable_tablesOf, bool_decide_is_Some.
    destruct (tablesOf cfg !! table) eqn:E; simpl; [done|]. intros Hn.
    case_decide as Hin; case_bool_decide as Hdb; try done.
    + destruct Hdb. by apply Hn.
    + destruct Hin. by apply Hn.
  - rewrite newTables_filter. apply filter_none. intros n Hin.
    rewrite Hhas. rewrite (bool_decide_eq_true_2 (n ∈ dbTables)) by done.
    by rewrite orb_true_r.
Qed.

Lemma foldl_present_keys {V} (m : gmap string V) (order acc : list string) :
  foldl (fun tables name =>
           match m !! name with
           | Some _ => tables ++ [name]
           | None => tables
           end) acc order =
  acc ++ filter (λ name, is_Some (m !! name)) order.
Proof.
  revert acc. induction order as [|k order IH]; intros acc; simpl.
  - by rewrite app_nil_r.
  - rewrite IH, filter_cons. case_decide as Hk.
    + destruct Hk as [x ->]. by rewrite <-app_assoc.
    + destruct (m !! k) eqn:E; [|done]. destruct Hk. by eexists.
Qed.

Lemma foldl_present_keys_range {V} (m : gmap string V) (order : list string) :
  range_order m order →
  foldl (fun tables name =>
           match m !! name with
           | Some _ => tables ++ [name]
           | None => tables
           end) [] order = order.
Proof.
  intros Horder. rewrite foldl_present_keys. simpl. apply filter_all.
  intros k Hk. by apply (range_order_elem_of _ _ _ Horder).
Qed.

(** X17. [ListTables] returns nil for a nil configuration, and
    otherwise every table of the configuration exactly once, in the order
    the map is traversed: its answers are the names for which [HasTable]
    holds. *)
Theorem ListTables_lists_configured c order configuration :
  Configuration c = Some configuration →
  range_order configuration order →
  ListTables c order = Some order ∧
  NoDup order ∧
  (∀ tableName, tableName ∈ order ↔ HasTable c tableName = true) ∧
  ListTables {| Configuration := None |} order = None.
Proof.
  intros Hc Horder. unfold ListTables, HasTable. rewrite Hc. split_and!.
  - by rewrite foldl_present_keys_range.
  - by eapply range_order_NoDup.
  - intros n. rewrite (range_order_elem_of _ _ _ Horder). by rewrite bool_decide_eq_true.
  - done.
Qed.

Lemma ListTables_lists_configured_witness :
  ListTables AnonymiserSpec.exampleConfig ["staff"; "users"; "customers"]
    = Some ["staff"; "users"; "customers"] ∧
  NoDup ["staff"; "users"; "customers"] ∧
  (∀ tableName, tableName ∈ ["staff"; "users"; "customers"] ↔
                HasTable AnonymiserSpec.exampleConfig tableName = true) ∧
  ListTables {| Configuration := None |} ["staff"; "users"; "customers"] = None.
Proof.
  apply (ListTables_lists_configured AnonymiserSpec.exampleConfig _
           AnonymiserSpec.exampleConfiguration).
  - reflexivity.
  - by_evaluation.
Defined.

Lemma append_nil_inv (a b : string) : a +:+ b = "" → a = "" ∧ b = "".
Proof. destruct a; [done|]. by rewrite append_cons. Qed.

(** X18. A connection that [Validate] accepts is one the rest of the
    program can use: [NewDriver] returns a driver for its type, the driver
    reports that type, and the DSN is not empty. *)
Theorem Validate_accepts_usable_connection (Quote : string → string) c :
  Validate Quote c = None →
  (∃ d, NewDriver (Type_ c) = Ok d ∧ GetDatabaseType d = Type_ c) ∧
  DSN c ≠ "".
Proof.
  unfold Validate, NewDriver, DSN. destruct c as [ty host port user pw db file]. simpl.
  repeat case_bool_decide; subst; simpl; try done; intros _.
  all: split; [eexists; split; reflexivity|].
  all: first [done | by intros (_ & [=])%append_nil_inv
              | by intros ([=] & _)%append_nil_inv].
Qed.

Lemma Validate_accepts_usable_connection_witness :
  (∃ d, NewDriver (Type_ exampleConnection) = Ok d ∧
        GetDatabaseType d = Type_ exampleConnection) ∧
  DSN exampleConnection ≠ "".
Proof.
  apply (Validate_accepts_usable_connection ConfigSpec.exampleQuote exampleConnection). reflexivity.
Defined.

Section retain.
Context {Time : Type} (IsZero : Time → bool) (zeroTime : Time).
Context (time_Parse : string → string → result Time) (Quote : string → string).
Context (Format : Time → string → string).

(** X19. A retain setting decoded into a fresh [RetainConfig] has one
    mode at most.  An integer gives the count and no date filter; an
    object gives a column that is not empty and the date [parseDate]
    found, no count, and is never empty.  An empty setting is neither
    count-based nor date-based. *)
Theorem Unmarshal_fresh_modes value r :
  IsZero zeroTime = true →
  Unmarshal time_Parse Quote {| Count := 0; ColumnName := ""; AfterDate := zeroTime |} value
    = (r, None) →
  IsCountBased r && IsDateBased IsZero r = false ∧
  (IsEmpty IsZero r = true → IsCountBased r = false ∧ IsDateBased IsZero r = false) ∧
  match value with
  | NodeInt n => Count r = n ∧ IsDateBased IsZero r = false
  | NodeObject raw =>
      ColumnName r = raw_ColumnName raw ∧ ColumnName r ≠ "" ∧
      parseDate time_Parse (raw_AfterDate raw) = Ok (AfterDate r) ∧
      IsCountBased r = false ∧ IsEmpty IsZero r = false
  | NodeInvalid _ => False
  end.
Proof.
  intros Hzero. unfold Unmarshal, IsCountBased, IsDateBased, IsEmpty.
  destruct value as [n|raw|err]; simpl.
  - intros [= <-]. simpl. rewrite Hzero. simpl. rewrite andb_false_r.
    split_and!; try done. rewrite !andb_true_r.
    intros ->%bool_decide_eq_true. done.
  - case_bool_decide as Hcol; [done|]. case_bool_decide as Hdate; [done|].
    destruct (parseDate time_Parse (raw_AfterDate raw)) as [parsedDate|err]; [|done].
    intros [= <-]. simpl.
    rewrite (bool_decide_eq_false_2 (raw_ColumnName raw = "")) by done.
    simpl. split_and!; done.
  - done.
Qed.

(** X20. What a configuration file keeps of a retain setting when it is
    loaded into a fresh [RetainConfig] and saved again: a positive count
    as it is, a count of zero or below nothing, and an object the column
    with the date in the layout [2006-01-02], unless the date parsed is
    the zero time, in which case nothing. *)
Theorem Marshal_after_Unmarshal value r :
  IsZero zeroTime = true →
  Unmarshal time_Parse Quote {| Count := 0; ColumnName := ""; AfterDate := zeroTime |} value
    = (r, None) →
  Marshal IsZero Format r =
  match value with
  | NodeInt n => if bool_decide (0 < n) then MarshalInt n else MarshalNil
  | NodeObject raw =>
      if IsZero (AfterDate r) then MarshalNil
      else MarshalObject (raw_ColumnName raw) (Format (AfterDate r) "2006-01-02")
  | NodeInvalid _ => MarshalNil
  end.
Proof.
  intros Hzero. unfold Unmarshal, Marshal, IsDateBased.
  destruct value as [n|raw|err]; simpl.
  - intros [= <-]. simpl. by rewrite ?Hzero.
  - case_bool_decide as Hcol; [done|]. case_bool_decide as Hdate; [done|].
    destruct (parseDate time_Parse (raw_AfterDate raw)) as [parsedDate|err]; [|done].
    intros [= <-]. simpl.
    rewrite (bool_decide_eq_false_2 (raw_ColumnName raw = "")) by done. simpl.
    destruct (IsZero parsedDate); done.
  - done.
Qed.
End retain.

Lemma Unmarshal_fresh_modes_witness :
  IsCountBased exampleRetained && IsDateBased exampleIsZero exampleRetained = false ∧
  (IsEmpty exampleIsZero exampleRetained = true →
   IsCountBased exampleRetained = false ∧
   IsDateBased exampleIsZero exampleRetained = false) ∧
  ColumnName exampleRetained = "created_at" ∧
  ColumnName exampleRetained ≠ "" ∧
  parseDate ConfigSpec.exampleParse "2024-01-01 00:00:00" = Ok (AfterDate exampleRetained) ∧
  IsCountBased exampleRetained = false ∧
  IsEmpty exampleIsZero exampleRetained = false.
Proof.
  apply (Unmarshal_fresh_modes exampleIsZero 0 ConfigSpec.exampleParse
           ConfigSpec.exampleQuote exampleRetain exampleRetained).
  - reflexivity.
  - reflexivity.
Defined.

Lemma Marshal_after_Unmarshal_witness :
  Marshal exampleIsZero exampleFormat exampleRetained = MarshalObject "created_at" "19723".
Proof.
  apply (Marshal_after_Unmarshal exampleIsZero 0 ConfigSpec.exampleParse
           ConfigSpec.exampleQuote exampleFormat exampleRetain exampleRetained).
  - reflexivity.
  - reflexivity.
Defined.

Import Config Anonymiser AnonymiserSpec AnonymiserOps.

(** ** Package anonymiser: templates *)

Lemma stripPrefix_app p s : stripPrefix p (p +:+ s) = Some s.
Proof.
  induction p as [|c p IH]; [done|].
  rewrite append_cons. simpl. by rewrite Ascii.eqb_refl.
Qed.

Lemma stripPrefix_Some p s r : stripPrefix p s = Some r → s = p +:+ r.
Proof.
  revert s. induction p as [|c p IH]; intros s; simpl.
  - by intros [= ->].
  - destruct s as [|d s]; [done|].
    destruct (Ascii.eqb c d) eqn:E; [|done].
    apply Ascii.eqb_eq in E as ->. intros ->%IH. by rewrite append_cons.
Qed.

Lemma spanWord_spec s w rest :
  spanWord s = (w, rest) → s = w +:+ rest ∧ wordChars w = true.
Proof.
  revert w rest. induction s as [|c s IH]; intros w rest; simpl.
  - by intros [= <- <-].
  - destruct (isWordChar c) eqn:E.
    + destruct (spanWord s) as [w' rest'] eqn:Es. intros [= <- <-].
      destruct (IH w' rest' eq_refl) as [-> Hw]. rewrite append_cons. simpl.
      by rewrite E, Hw.
    + by intros [= <- <-].
Qed.

Lemma spanWord_app w rest :
  wordChars w = true →
  spanWord (w +:+ String "}" rest) = (w, String "}" rest).
Proof.
  induction w as [|c w IH]; [done|].
  intros H. simpl in H. apply andb_prop in H as [Hc Hw].
  rewrite append_cons. simpl. by rewrite Hc, (IH Hw).
Qed.

Lemma matchHere_template w post :
  isWord w = true → matchHere (template w +:+ post) = Some w.
Proof.
  intros Hw. unfold matchHere, template.
  rewrite !string_app_assoc, stripPrefix_app.
  assert (wordChars w = true) as Hchars by (by destruct w).
  change ("}}" +:+ post) with (String "}" (String "}" post)).
  rewrite (spanWord_app w _ Hchars). by destruct w.
Qed.

Lemma matchHere_Some s w :
  matchHere s = Some w → isWord w = true ∧ ∃ post, s = template w +:+ post.
Proof.
  unfold matchHere.
  destruct (stripPrefix "{{faker." s) as [s1|] eqn:E1; [|done].
  apply stripPrefix_Some in E1 as ->.
  destruct (spanWord s1) as [w' rest] eqn:E2.
  apply spanWord_spec in E2 as [-> Hw].
  destruct w' as [|c w']; [done|].
  destruct (stripPrefix "}}" rest) as [post|] eqn:E3; [|done].
  apply stripPrefix_Some in E3 as ->. intros [= <-].
  split; [done|]. exists post. unfold template. by rewrite !string_app_assoc.
Qed.

Lemma FindStringSubmatch_Some s w :
  FindStringSubmatch s = Some w →
  isWord w = true ∧ ∃ pre post, s = pre +:+ template w +:+ post.
Proof.
  induction s as [|c s IH].
  - intros H. vm_compute in H. discriminate.
  - cbn [FindStringSubmatch]. destruct (matchHere (String c s)) eqn:E.
    + intros [= ->]. apply matchHere_Some in E as [? [post ?]].
      split; [done|]. by exists "", post.
    + intros [? (pre & post & ->)]%IH. split; [done|].
      exists (String c pre), post. by rewrite append_cons.
Qed.

Lemma FindStringSubmatch_matchHere s w :
  matchHere s = Some w → FindStringSubmatch s = Some w.
Proof.
  destruct s as [|c s].
  - intros H. vm_compute in H. discriminate.
  - cbn [FindStringSubmatch]. by intros ->.
Qed.

Lemma FindStringSubmatch_is_Some pre w post :
  isWord w = true → is_Some (FindStringSubmatch (pre +:+ template w +:+ post)).
Proof.
  intros Hw. induction pre as [|c pre IH].
  - rewrite append_nil_l.
    rewrite (FindStringSubmatch_matchHere _ w); [by eexists|].
    by apply matchHere_template.
  - rewrite append_cons. cbn [FindStringSubmatch].
    by destruct (matchHere _).
Qed.

(** X21. The matcher finds the pattern wherever it occurs: a string is
    a faker template exactly when it holds the text of a template, two
    opening braces, [faker.], a non-empty run of letters, digits and
    underscores, two closing braces, anywhere in it.  The name
    [ParseFakerTemplate] returns is such a run that occurs so, and from a
    string that begins with a template it is the name of that template.
    [IsFakerTemplate] and [ParseFakerTemplate] agree. *)
Theorem ParseFakerTemplate_finds_template s :
  (IsFakerTemplate s = true ↔
   ∃ pre w post, isWord w = true ∧ s = pre +:+ template w +:+ post) ∧
  (∀ w, ParseFakerTemplate s = (w, true) →
        isWord w = true ∧ ∃ pre post, s = pre +:+ template w +:+ post) ∧
  (∀ w post, isWord w = true → ParseFakerTemplate (template w +:+ post) = (w, true)) ∧
  IsFakerTemplate s = (ParseFakerTemplate s).2.
Proof.
  unfold IsFakerTemplate, ParseFakerTemplate. split_and!.
  - split.
    + destruct (FindStringSubmatch s) as [w|] eqn:E; [|done]. intros _.
      apply FindStringSubmatch_Some in E as [? (pre & post & ->)]. by exists pre, w, post.
    + intros (pre & w & post & Hw & ->).
      by destruct (FindStringSubmatch_is_Some pre w post Hw) as [? ->].
  - intros w. destruct (FindStringSubmatch s) as [w'|] eqn:E; [|done].
    intros [= <-]. by apply FindStringSubmatch_Some.
  - intros w post Hw.
    rewrite (FindStringSubmatch_matchHere _ w); [done|].
    by apply matchHere_template.
  - by destruct (FindStringSubmatch s).
Qed.

Lemma ParseFakerTemplate_finds_template_witness :
  ParseFakerTemplate (template "email" +:+ " (fake)") = ("email", true).
Proof.
  destruct (ParseFakerTemplate_finds_template "") as (_ & _ & Hback & _).
  apply (Hback "email" " (fake)"). reflexivity.
Defined.

(** ** Package anonymiser: rules *)

Section rules.
Context {Rng : Type} (gofakeit : gofakeitCall → Rng → string * Rng).
Context (cfg : Config).

Lemma validateColumns_elem_of tableName columns order errors e :
  e ∈ validateColumns gofakeit tableName columns order errors →
  e ∈ errors ∨
  ∃ c rule f, c ∈ order ∧ columns !! c = Some rule ∧
              FindStringSubmatch rule = Some f ∧ GetFakerFunc gofakeit f = None ∧
              e = unknownFakerMessage f tableName c.
Proof.
  unfold validateColumns. revert errors.
  induction order as [|col order IH]; intros errors; simpl; [auto|].
  intros [He|(c & rule & f & Hc & ?)]%IH.
  - destruct (columns !! col) as [rule|] eqn:Hrule; [|auto].
    unfold ParseFakerTemplate in He.
    destruct (FindStringSubmatch rule) as [f|] eqn:Hf; [|auto].
    destruct (GetFakerFunc gofakeit f) eqn:Hg; [auto|].
    apply elem_of_app in He as [He|He]; [auto|].
    apply list_elem_of_singleton in He. right. exists col, rule, f.
    split_and!; [left|done..].
  - right. exists c, rule, f. split; [by right|done].
Qed.

Lemma ValidateRules_elem_of configuration tableOrder columnOrder e :
  Configuration cfg = Some configuration →
  e ∈ ValidateRules gofakeit cfg tableOrder columnOrder →
  ∃ tableName tableConfig columns c rule f,
    tableName ∈ tableOrder ∧ c ∈ columnOrder tableName ∧
    configuration !! tableName = Some (Some tableConfig) ∧
    Columns tableConfig = Some columns ∧ columns !! c = Some rule ∧
    FindStringSubmatch rule = Some f ∧ GetFakerFunc gofakeit f = None ∧
    e = unknownFakerMessage f tableName c.
Proof.
  intros Hcfg. unfold ValidateRules. rewrite Hcfg.
  assert (∀ errors,
    e ∈ foldl (λ errors tableName,
                 match configuration !! tableName with
                 | Some (Some tableConfig) =>
                     match Columns tableConfig with
                     | Some columns =>
                         validateColumns gofakeit tableName columns
                           (columnOrder tableName) errors
                     | None => errors
                     end
                 | _ => errors
                 end) errors tableOrder →
    e ∈ errors ∨
    ∃ tableName tableConfig columns c rule f,
      tableName ∈ tableOrder ∧ c ∈ columnOrder tableName ∧
      configuration !! tableName = Some (Some tableConfig) ∧
      Columns tableConfig = Some columns ∧ columns !! c = Some rule ∧
      FindStringSubmatch rule = Some f ∧ GetFakerFunc gofakeit f = None ∧
      e = unknownFakerMessage f tableName c) as H.
  { induction tableOrder as [|t tableOrder IH]; intros errors; simpl; [auto|].
    intros [He|(t' & tc & columns & c & rule & f & Ht' & ?)]%IH.
    - destruct (configuration !! t) as [[tc|]|] eqn:Htc; [|auto..].
      destruct (Columns tc) as [columns|] eqn:Hcols; [|auto].
      apply validateColumns_elem_of in He as [?|(c & rule & f & ? & ? & ? & ? & ?)];
        [auto|].
      right. exists t, tc, columns, c, rule, f. split_and!; [left|done..].
    - right. exists t', tc, columns, c, rule, f. split; [by right|done]. }
  intros [He|?]%H; [by apply elem_of_nil in He|done].
Qed.

(** A template further to the right in a rule is not looked at. *)
Example later_template_is_not_validated :
  ParseFakerTemplate "{{faker.email}} {{faker.bogus}}" = ("email", true) ∧
  GetFakerFunc exampleFaker "bogus" = None ∧
  ValidateRules exampleFaker twoTemplatesConfig ["notes"] (λ _, ["body"]) = [].
Proof. vm_compute. done. Qed.

(** X22. [ValidateRules] reads of each rule the first template, the one
    [ParseFakerTemplate] returns and [AnonymiseRow] uses: a message is in
    its result exactly when some table of the configuration has a column
    whose rule has a first template that names a generator outside the
    registry, and the message names that generator, table and column.  So
    the result is empty exactly when the first template of every rule
    that has one names a known generator. *)
Theorem ValidateRules_reports_unknown configuration tableOrder columnOrder e :
  Configuration cfg = Some configuration →
  range_order configuration tableOrder →
  (∀ tableName tableConfig columns,
     configuration !! tableName = Some (Some tableConfig) →
     Columns tableConfig = Some columns →
     range_order columns (columnOrder tableName)) →
  (e ∈ ValidateRules gofakeit cfg tableOrder columnOrder ↔
   ∃ tableName tableConfig columns c rule f,
     configuration !! tableName = Some (Some tableConfig) ∧
     Columns tableConfig = Some columns ∧ columns !! c = Some rule ∧
     ParseFakerTemplate rule = (f, true) ∧ GetFakerFunc gofakeit f = None ∧
     e = "unknown faker function '" +:+ f +:+ "' for " +:+ tableName +:+ "." +:+ c) ∧
  (ValidateRules gofakeit cfg tableOrder columnOrder = [] ↔
   ∀ tableName tableConfig columns c rule f,
     configuration !! tableName = Some (Some tableConfig) →
     Columns tableConfig = Some columns → columns !! c = Some rule →
     ParseFakerTemplate rule = (f, true) → is_Some (GetFakerFunc gofakeit f)).
Proof.
  intros Hcfg Htables Hcolumns.
  assert (∀ rule f, ParseFakerTemplate rule = (f, true) ↔
                    FindStringSubmatch rule = Some f) as Hparse.
  { intros rule f. unfold ParseFakerTemplate.
    destruct (FindStringSubmatch rule); split; congruence. }
  assert (∀ e', e' ∈ ValidateRules gofakeit cfg tableOrder columnOrder ↔
   ∃ tableName tableConfig columns c rule f,
     configuration !! tableName = Some (Some tableConfig) ∧
     Columns tableConfig = Some columns ∧ columns !! c = Some rule ∧
     ParseFakerTemplate rule = (f, true) ∧ GetFakerFunc gofakeit f = None ∧
     e' = "unknown faker function '" +:+ f +:+ "' for " +:+ tableName +:+ "." +:+ c)
    as Hiff.
  { intros e'. split.
    - intros He'.
      apply (ValidateRules_elem_of configuration) in He'
        as (t & tc & columns & c & rule & f & _ & _ & ? & ? & ? & ? & ? & ->); [|done].
      exists t, tc, columns, c, rule, f. by rewrite Hparse.
    - intros (t & tc & columns & c & rule & f & Htc & Hcols & Hrule & Hf & Hg & ->).
      apply Hparse in Hf.
      apply (ValidateRules_unknown gofakeit cfg configuration tableOrder columnOrder
               t tc columns c rule f); try done.
      + apply (range_order_elem_of _ _ _ Htables). by rewrite Htc.
      + apply (range_order_elem_of _ _ _ (Hcolumns t tc columns Htc Hcols)).
        by rewrite Hrule. }
  split; [apply Hiff|]. split.
  - intros Hnil t tc columns c rule f Htc Hcols Hrule Hf.
    destruct (GetFakerFunc gofakeit f) eqn:Hg; [by eexists|].
    assert (("unknown faker function '" +:+ f +:+ "' for " +:+ t +:+ "." +:+ c)
              ∈ ValidateRules gofakeit cfg tableOrder columnOrder) as Hin.
    { apply Hiff. by exists t, tc, columns, c, rule, f. }
    rewrite Hnil in Hin. by apply elem_of_nil in Hin.
  - intros Hall.
    destruct (ValidateRules gofakeit cfg tableOrder columnOrder) as [|e' l] eqn:E; [done|].
    assert (e' ∈ e' :: l) as Hin by left.
    apply Hiff in Hin as (t & tc & columns & c & rule & f & Htc & Hcols & Hrule & Hf & Hg & _).
    destruct (Hall t tc columns c rule f Htc Hcols Hrule Hf) as [x Hx]. congruence.
Qed.

Lemma anonymiseColumn_literal col rule result cmap rng :
  IsFakerTemplate rule = false →
  anonymiseColumn gofakeit col rule (result, cmap, rng) =
  (match result !! col with
   | Some _ => <[col := literalRule rule]> result
   | None => result
   end, cmap, rng).
Proof.
  unfold IsFakerTemplate, anonymiseColumn, literalRule. intros Hrule.
  destruct (result !! col); [|done].
  destruct (bool_decide (rule = "null") || bool_decide (rule = "")); [done|].
  by destruct (FindStringSubmatch rule).
Qed.

Lemma anonymiseColumns_literal columns order result cmap rng :
  (∀ c rule, columns !! c = Some rule → IsFakerTemplate rule = false) →
  ∃ result',
    anonymiseColumns gofakeit columns order (result, cmap, rng) = (result', cmap, rng) ∧
    ∀ c, result' !! c =
         match columns !! c with
         | Some rule => if decide (c ∈ order)
                        then (λ _, literalRule rule) <$> result !! c
                        else result !! c
         | None => result !! c
         end.
Proof.
  intros Hlit. unfold anonymiseColumns. revert result.
  induction order as [|col order IH]; intros result; cbn [foldl].
  - exists result. split; [done|]. intros c. by destruct (columns !! c).
  - destruct (columns !! col) as [rule|] eqn:Hrule.
    + rewrite anonymiseColumn_literal by eauto.
      destruct (IH (match result !! col with
                    | Some _ => <[col := literalRule rule]> result
                    | None => result
                    end)) as (result' & -> & Hres).
      exists result'. split; [done|]. intros c. rewrite Hres.
      destruct (columns !! c) as [rule'|] eqn:Hrule'.
      * destruct (decide (c = col)) as [->|Hne].
        -- rewrite (decide_True (P := col ∈ col :: order)) by left.
           assert (rule' = rule) as -> by congruence.
           destruct (result !! col) eqn:Hcol.
           ++ rewrite lookup_insert_eq. simpl. by case_decide.
           ++ rewrite Hcol. simpl. by case_decide.
        -- assert (match result !! col with
                   | Some _ => <[col := literalRule rule]> result
                   | None => result
                   end !! c = result !! c) as ->.
           { destruct (result !! col); [|done]. by rewrite lookup_insert_ne. }
           destruct (decide (c ∈ order)).
           ++ rewrite decide_True; [done|by right].
           ++ rewrite decide_False; [done|]. by intros [?|?]%elem_of_cons.
      * destruct (decide (c = col)) as [->|Hne]; [congruence|].
        destruct (result !! col); [|done]. by rewrite lookup_insert_ne.
    + destruct (IH result) as (result' & -> & Hres).
      exists result'. split; [done|]. intros c. rewrite Hres.
      destruct (columns !! c) as [rule'|] eqn:Hrule'; [|done].
      assert (c ≠ col) by congruence.
      destruct (decide (c ∈ order)).
      * rewrite decide_True; [done|by right].
      * rewrite decide_False; [done|]. by intros [?|?]%elem_of_cons.
Qed.

(** X23. A table whose rules hold no template is anonymised without the
    random source and without the consistency map: both are as before the
    call, and the result has, for every column the row has, nil where the
    rule is [null] or empty, the rule's own text where there is any other
    rule, and the original value without a rule.  The order in which the
    rules are visited makes no difference. *)
Theorem AnonymiseRow_literal_rules order tableName tableConfig columns rowRef
    (w : world (Rng := Rng)) :
  GetTableConfig cfg tableName = Some tableConfig →
  Columns tableConfig = Some columns →
  range_order columns order →
  (∀ c rule, columns !! c = Some rule → IsFakerTemplate rule = false) →
  consistencyMap (AnonymiseRow gofakeit cfg order tableName rowRef w).2 = consistencyMap w ∧
  rand (AnonymiseRow gofakeit cfg order tableName rowRef w).2 = rand w ∧
  ∀ c, rowAt (AnonymiseRow gofakeit cfg order tableName rowRef w).2
             (AnonymiseRow gofakeit cfg order tableName rowRef w).1 !! c =
       match columns !! c with
       | Some rule => (λ _, literalRule rule) <$> rowAt w rowRef !! c
       | None => rowAt w rowRef !! c
       end.
Proof.
  intros Htc Hcols Horder Hlit. unfold AnonymiseRow. rewrite Htc, Hcols.
  destruct (anonymiseColumns_literal columns order (rowAt w rowRef)
              (consistencyMap w) (rand w) Hlit) as (result' & -> & Hres).
  simpl. split_and!; [done..|]. intros c.
  unfold rowAt at 1. simpl. rewrite lookup_insert_eq. simpl. rewrite Hres.
  destruct (columns !! c) as [rule|] eqn:Hrule; [|done].
  rewrite decide_True; [done|].
  apply (range_order_elem_of _ _ _ Horder). by rewrite Hrule.
Qed.

Lemma anonymiseColumns_empty order st :
  anonymiseColumns gofakeit ∅ order st = st.
Proof.
  unfold anonymiseColumns. induction order as [|col order IH]; [done|].
  simpl. by rewrite lookup_empty.
Qed.

(** X24. A table for which [HasAnonymisation] is false passes through
    [AnonymiseRow] with its rows as they are: the result has the contents
    of the input row, and the consistency map and the random source are
    untouched. *)
Theorem AnonymiseRow_without_anonymisation order tableName rowRef (w : world (Rng := Rng)) :
  HasAnonymisation cfg tableName = false →
  rowAt (AnonymiseRow gofakeit cfg order tableName rowRef w).2
        (AnonymiseRow gofakeit cfg order tableName rowRef w).1 = rowAt w rowRef ∧
  consistencyMap (AnonymiseRow gofakeit cfg order tableName rowRef w).2 = consistencyMap w ∧
  rand (AnonymiseRow gofakeit cfg order tableName rowRef w).2 = rand w.
Proof.
  unfold HasAnonymisation, AnonymiseRow.
  destruct (GetTableConfig cfg tableName) as [tc|]; [|done].
  destruct (Columns tc) as [columns|]; [|done].
  intros Hsize%bool_decide_eq_false.
  assert (columns = ∅) as -> by (apply map_size_empty_iff; lia).
  rewrite anonymiseColumns_empty. simpl. split_and!; [|done..].
  unfold rowAt at 1. simpl. by rewrite lookup_insert_eq.
Qed.

(** X25. [GetAnonymisedColumns] returns the ruled columns of the table,
    each once, and [HasAnonymisation] is true exactly when that list is
    not empty. *)
Theorem GetAnonymisedColumns_lists_rules order tableName tableConfig columns :
  GetTableConfig cfg tableName = Some tableConfig →
  Columns tableConfig = Some columns →
  range_order columns order →
  GetAnonymisedColumns cfg order tableName = Some order ∧
  NoDup order ∧
  (∀ c, c ∈ order ↔ is_Some (columns !! c)) ∧
  HasAnonymisation cfg tableName = bool_decide (order ≠ []).
Proof.
  intros Htc Hcols Horder. unfold GetAnonymisedColumns, HasAnonymisation.
  rewrite Htc, Hcols. split_and!.
  - by rewrite foldl_present_keys_range.
  - by eapply range_order_NoDup.
  - intros c. apply (range_order_elem_of _ _ _ Horder).
  - assert (size columns = length order) as ->.
    { unfold range_order in Horder. rewrite Horder, length_fmap.
      symmetry. apply length_map_to_list. }
    destruct order; repeat case_bool_decide; simpl in *; try done; lia.
Qed.
End rules.

Lemma ValidateRules_reports_unknown_witness :
  ("unknown faker function 'unknownFunc' for staff.email"
     ∈ ValidateRules exampleFaker staffConfig ["staff"] exampleColumnOrder ↔
   ∃ tableName tableConfig columns c rule f,
     staffConfiguration !! tableName = Some (Some tableConfig) ∧
     Columns tableConfig = Some columns ∧ columns !! c = Some rule ∧
     ParseFakerTemplate rule = (f, true) ∧ GetFakerFunc exampleFaker f = None ∧
     "unknown faker function 'unknownFunc' for staff.email" =
       "unknown faker function '" +:+ f +:+ "' for " +:+ tableName +:+ "." +:+ c) ∧
  (ValidateRules exampleFaker staffConfig ["staff"] exampleColumnOrder = [] ↔
   ∀ tableName tableConfig columns c rule f,
     staffConfiguration !! tableName = Some (Some tableConfig) →
     Columns tableConfig = Some columns → columns !! c = Some rule →
     ParseFakerTemplate rule = (f, true) → is_Some (GetFakerFunc exampleFaker f)).
Proof.
  apply (ValidateRules_reports_unknown exampleFaker staffConfig staffConfiguration).
  - reflexivity.
  - by_evaluation.
  - intros tableName tableConfig columns Htable Hcolumns.
    unfold staffConfiguration in Htable.
    apply lookup_singleton_Some in Htable as [<- [= <-]].
    injection Hcolumns as <-. by_evaluation.
Defined.

Lemma AnonymiseRow_literal_rules_witness :
  consistencyMap (AnonymiseRow exampleFaker auditConfig ["note"; "ip"] "audit" 1
                    auditWorld).2 = consistencyMap auditWorld ∧
  rand (AnonymiseRow exampleFaker auditConfig ["note"; "ip"] "audit" 1 auditWorld).2
    = rand auditWorld ∧
  ∀ c, rowAt (AnonymiseRow exampleFaker auditConfig ["note"; "ip"] "audit" 1 auditWorld).2
             (AnonymiseRow exampleFaker auditConfig ["note"; "ip"] "audit" 1 auditWorld).1
         !! c =
       match auditColumns !! c with
       | Some rule => (λ _, literalRule rule) <$> rowAt auditWorld 1 !! c
       | None => rowAt auditWorld 1 !! c
       end.
Proof.
  apply (AnonymiseRow_literal_rules exampleFaker auditConfig ["note"; "ip"] "audit"
           {| Truncate := false; Columns := Some auditColumns |} auditColumns).
  - reflexivity.
  - reflexivity.
  - by_evaluation.
  - intros c rule Hrule. unfold auditColumns in Hrule.
    apply lookup_insert_Some in Hrule as [[<- <-]|[_ Hrule]]; [reflexivity|].
    apply lookup_singleton_Some in Hrule as [<- <-]. reflexivity.
Defined.

Lemma AnonymiseRow_without_anonymisation_witness :
  rowAt (AnonymiseRow exampleFaker exampleConfig [] "orders" 1 johnRows).2
        (AnonymiseRow exampleFaker exampleConfig [] "orders" 1 johnRows).1
    = rowAt johnRows 1 ∧
  consistencyMap (AnonymiseRow exampleFaker exampleConfig [] "orders" 1 johnRows).2
    = consistencyMap johnRows ∧
  rand (AnonymiseRow exampleFaker exampleConfig [] "orders" 1 johnRows).2 = rand johnRows.
Proof.
  apply (AnonymiseRow_without_anonymisation exampleFaker exampleConfig [] "orders" 1
           johnRows).
  reflexivity.
Defined.

Lemma GetAnonymisedColumns_lists_rules_witness :
  GetAnonymisedColumns exampleConfig ["id"; "email"] "users" = Some ["id"; "email"] ∧
  NoDup ["id"; "email"] ∧
  (∀ c, c ∈ ["id"; "email"] ↔ is_Some (usersColumns !! c)) ∧
  HasAnonymisation exampleConfig "users" = bool_decide (["id"; "email"] ≠ []).
Proof.
  apply (GetAnonymisedColumns_lists_rules exampleConfig ["id"; "email"] "users"
           {| Truncate := false; Columns := Some usersColumns |} usersColumns).
  - reflexivity.
  - reflexivity.
  - by_evaluation.
Defined.

Lemma assoc_is_Some {A} name (l : list (string * A)) :
  is_Some (assoc name l) ↔ name ∈ l.*1.
Proof.
  induction l as [|[k a] l IH]; simpl.
  - split; [by intros [? ?]|by intros ?%elem_of_nil].
  - destruct (String.eqb name k) eqn:E.
    + apply String.eqb_eq in E as ->. split; [left|by eexists].
    + apply String.eqb_neq in E. rewrite IH. split; [by right|].
      by intros [?|?]%elem_of_cons.
Qed.

Lemma append_nil_r (s : string) : s +:+ "" = s.
Proof. induction s as [|c s IH]; [done|]. by rewrite append_cons, IH. Qed.

(** X26. The registry can be used as it lists itself: [ListFakerFunctions]
    returns its sixteen names, each once; these are the names for which
    [GetFakerFunc] has a generator; and each of them, written as a
    template, is read back as that name by [ParseFakerTemplate]. *)
Theorem ListFakerFunctions_usable {Rng : Type}
    (gofakeit : gofakeitCall → Rng → string * Rng) order name :
  order ≡ₚ fakerFunctions.*1 →
  ListFakerFunctions order = order ∧
  length order = 16%nat ∧
  NoDup order ∧
  (name ∈ order ↔ is_Some (GetFakerFunc gofakeit name)) ∧
  (name ∈ order → ParseFakerTemplate (template name) = (name, true)).
Proof.
  intros Horder.
  assert (∀ n, n ∈ order ↔ is_Some (assoc n fakerFunctions)) as Hin.
  { intros n. by rewrite assoc_is_Some, Horder. }
  split_and!.
  - unfold ListFakerFunctions.
    assert (∀ n, n ∈ order → is_Some (assoc n fakerFunctions)) as Hall
      by (intros n; apply Hin).
    assert (∀ acc, foldl (λ names n,
                            match assoc n fakerFunctions with
                            | Some _ => names ++ [n]
                            | None => names
                            end) acc order = acc ++ order) as H; [|apply H].
    clear Horder Hin. induction order as [|n order IH]; intros acc; cbn [foldl].
    + by rewrite app_nil_r.
    + destruct (Hall n) as [x ->]; [left|].
      rewrite IH; [by rewrite <-app_assoc|].
      intros n' ?. apply Hall. by right.
  - by rewrite Horder.
  - rewrite Horder. refine (bool_decide_unpack _ _). vm_compute. exact I.
  - rewrite Hin. unfold GetFakerFunc. by rewrite fmap_is_Some.
  - rewrite Horder. intros Hname.
    assert (isWord name = true) as Hw.
    { assert (Forall (λ n, isWord n = true) fakerFunctions.*1) as Hall
        by (simpl; repeat constructor).
      by apply (proj1 (Forall_forall _ _) Hall). }
    unfold ParseFakerTemplate.
    rewrite (FindStringSubmatch_matchHere _ name); [done|].
    rewrite <-(append_nil_r (template name)). by apply matchHere_template.
Qed.

Lemma ListFakerFunctions_usable_witness :
  ListFakerFunctions (reverse fakerFunctions.*1) = reverse fakerFunctions.*1 ∧
  length (reverse fakerFunctions.*1) = 16%nat ∧
  NoDup (reverse fakerFunctions.*1) ∧
  ("email" ∈ reverse fakerFunctions.*1 ↔ is_Some (GetFakerFunc exampleFaker "email")) ∧
  ("email" ∈ reverse fakerFunctions.*1 →
   ParseFakerTemplate (template "email") = ("email", true)).
Proof.
  apply (ListFakerFunctions_usable exampleFaker (reverse fakerFunctions.*1) "email").
  by_evaluation.
Defined.

Import Fktracker Stream.

(** ** Package database: streaming the rows *)

Lemma foldl_insert_lookup (l : list (string * any)) (m : gmap string any) col v :
  foldl (fun row '(col, val) => <[col := scanned val]> row) m l !! col = Some v ↔
  (∃ i val, l !! i = Some (col, val) ∧ v = scanned val ∧
            ∀ j val', (i < j)%nat → l !! j ≠ Some (col, val')) ∨
  (m !! col = Some v ∧ ∀ j val', l !! j ≠ Some (col, val')).
Proof.
  revert m. induction l as [|[c x] l IH]; intros m; simpl.
  - split; [intros ?; right; by split|]. intros [(i & val & ? & _)|[? _]]; done.
  - rewrite IH. split.
    + intros [(i & val & Hi & -> & Hlast)|[Hm Hno]].
      * left. exists (S i), val. split_and!; [done..|].
        intros [|j] val' Hj; [lia|]. simpl. apply Hlast. lia.
      * destruct (decide (c = col)) as [->|Hne].
        -- rewrite lookup_insert_eq in Hm. injection Hm as <-.
           left. exists 0%nat, x. split_and!; [done..|].
           intros [|j] val' Hj; [lia|]. simpl. apply Hno.
        -- rewrite lookup_insert_ne in Hm by done. right. split; [done|].
           intros [|j] val'; simpl; [congruence|apply Hno].
    + intros [(i & val & Hi & -> & Hlast)|[Hm Hno]].
      * destruct i as [|i]; simpl in Hi.
        -- injection Hi as -> ->. right. rewrite lookup_insert_eq. split; [done|].
           intros j val'. apply (Hlast (S j)). lia.
        -- left. exists i, val. split_and!; [done..|].
           intros j val' Hj. apply (Hlast (S j)). lia.
      * right. split.
        -- rewrite lookup_insert_ne; [done|]. intros ->. by apply (Hno 0%nat x).
        -- intros j val'. apply (Hno (S j)).
Qed.

Lemma scanned_not_bytes val b : scanned val ≠ VBytes b.
Proof. by destruct val. Qed.

(** X27. The map of a scanned row has the columns of the result set
    and no others; each holds the scanned value at the last position that
    carries the column's name, a byte slice turned into its string, so no
    value of the row is a byte slice; and the conversion changes neither
    the normal form the tracker compares nor whether the value is nil. *)
Theorem toRow_columns colNames values col :
  length values = length colNames →
  (is_Some (toRow colNames values !! col) ↔ col ∈ colNames) ∧
  (∀ v, toRow colNames values !! col = Some v ↔
        ∃ i val, colNames !! i = Some col ∧ values !! i = Some val ∧ v = scanned val ∧
                 ∀ j, (i < j)%nat → colNames !! j ≠ Some col) ∧
  (∀ v, toRow colNames values !! col = Some v → ∀ b, v ≠ VBytes b) ∧
  (∀ val, normalizeValue (scanned val) = normalizeValue val ∧
          (scanned val = VNil ↔ val = VNil)).
Proof.
  intros Hlen.
  assert (∀ v, toRow colNames values !! col = Some v ↔
        ∃ i val, colNames !! i = Some col ∧ values !! i = Some val ∧ v = scanned val ∧
                 ∀ j, (i < j)%nat → colNames !! j ≠ Some col) as Hlookup.
  { intros v. unfold toRow. rewrite foldl_insert_lookup. split.
    - intros [(i & val & Hi & -> & Hlast)|[Hm _]];
        [|by rewrite lookup_empty in Hm].
      apply lookup_zip_Some in Hi as [Hc Hv].
      exists i, val. split_and!; [done..|].
      intros j Hj Hcj.
      destruct (lookup_lt_is_Some_2 values j) as [val' Hval'].
      { rewrite Hlen. by eapply lookup_lt_Some. }
      apply (Hlast j val' Hj). by apply lookup_zip_Some.
    - intros (i & val & Hc & Hv & -> & Hlast). left.
      exists i, val. split_and!; [by apply lookup_zip_Some|done|].
      intros j val' Hj [Hcj _]%lookup_zip_Some. by apply (Hlast j). }
  split_and!.
  - split.
    + intros [v (i & val & Hc & _)%Hlookup]. by eapply list_elem_of_lookup_2.
    + intros Hin.
      assert (∃ i, colNames !! i = Some col ∧ ∀ j, (i < j)%nat → colNames !! j ≠ Some col)
        as (i & Hi & Hlast).
      { clear -Hin. induction colNames as [|c l IH]; [by apply elem_of_nil in Hin|].
        destruct (decide (col ∈ l)) as [Hl|Hl].
        - destruct (IH Hl) as (i & Hi & Hlast). exists (S i). split; [done|].
          intros [|j] Hj; [lia|]. simpl. apply Hlast. lia.
        - apply elem_of_cons in Hin as [->|?]; [|done]. exists 0%nat. split; [done|].
          intros [|j] Hj; [lia|]. simpl. intros Hc. apply Hl.
          by eapply list_elem_of_lookup_2. }
      destruct (lookup_lt_is_Some_2 values i) as [val Hval].
      { rewrite Hlen. by eapply lookup_lt_Some. }
      exists (scanned val). apply Hlookup. by exists i, val.
  - apply Hlookup.
  - intros v (i & val & _ & _ & -> & _)%Hlookup b. apply scanned_not_bytes.
  - intros val. split; [by destruct val|]. by destruct val.
Qed.

Lemma toRow_columns_witness :
  (is_Some (toRow exampleColumns [VInt64 1; VBytes ["A"%char]] !! "name") ↔
   "name" ∈ exampleColumns) ∧
  (∀ v, toRow exampleColumns [VInt64 1; VBytes ["A"%char]] !! "name" = Some v ↔
        ∃ i val, exampleColumns !! i = Some "name" ∧
                 [VInt64 1; VBytes ["A"%char]] !! i = Some val ∧ v = scanned val ∧
                 ∀ j, (i < j)%nat → exampleColumns !! j ≠ Some "name") ∧
  (∀ v, toRow exampleColumns [VInt64 1; VBytes ["A"%char]] !! "name" = Some v →
        ∀ b, v ≠ VBytes b) ∧
  (∀ val, normalizeValue (scanned val) = normalizeValue val ∧
          (scanned val = VNil ↔ val = VNil)).
Proof.
  apply (toRow_columns exampleColumns [VInt64 1; VBytes ["A"%char]] "name").
  reflexivity.
Defined.

Section callback.
Context {S : Type} (callback : list (gmap string any) → S → S * option string).

Lemma streamLoop_record_log colNames scans rowsErr batchSize batch log :
  streamLoop record colNames scans rowsErr batchSize batch log =
  (log ++ (streamLoop record colNames scans rowsErr batchSize batch []).1,
   (streamLoop record colNames scans rowsErr batchSize batch []).2).
Proof.
  revert batch log. induction scans as [|[values|err] scans IH]; intros batch log; simpl.
  - case_bool_decide; simpl; [done|]. by rewrite app_nil_r.
  - case_bool_decide; [|apply IH].
    rewrite (IH [] (log ++ _)), (IH [] [_]). simpl. by rewrite <-app_assoc.
  - by rewrite app_nil_r.
Qed.

Lemma streamLoop_deliver colNames scans rowsErr batchSize batch s :
  streamLoop callback colNames scans rowsErr batchSize batch s =
  deliver callback (streamLoop record colNames scans rowsErr batchSize batch []).1
          (streamLoop record colNames scans rowsErr batchSize batch []).2 s.
Proof.
  revert batch s. induction scans as [|[values|err] scans IH]; intros batch s; simpl.
  - case_bool_decide; simpl; [|done]. by destruct (callback batch s) as [s' [e|]].
  - case_bool_decide; [|apply IH].
    rewrite streamLoop_record_log. simpl.
    destruct (callback _ s) as [s' [e|]]; [done|]. apply IH.
  - done.
Qed.

(** X28. [StreamRows] cuts the result set into batches without regard
    to the callback, and calls the callback on one batch after the other
    up to its first error: run with any callback, it returns what the
    delivery of the batches that a logging callback records returns, the
    callback's first error or else the error the recorded run ends with.
    A negative batch size panics. *)
Theorem streamBatches_delivers colNames scans rowsErr batchSize s :
  (batchSize < 0 → streamBatches callback colNames scans rowsErr batchSize s = None) ∧
  (0 ≤ batchSize →
   ∃ batches final,
     streamBatches record colNames scans rowsErr batchSize [] = Some (batches, final) ∧
     streamBatches callback colNames scans rowsErr batchSize s =
       Some (deliver callback batches final s)).
Proof.
  unfold streamBatches. split.
  - intros H. by rewrite bool_decide_eq_true_2.
  - intros H. rewrite !bool_decide_eq_false_2 by lia.
    eexists _, _. split; [apply f_equal, surjective_pairing|].
    by rewrite streamLoop_deliver.
Qed.
End callback.

Lemma streamBatches_delivers_witness :
  ∃ batches final,
    streamBatches record exampleColumns (Ok <$> exampleValues) None 2 [] =
      Some (batches, final) ∧
    streamBatches record exampleColumns (Ok <$> exampleValues) None 2 [[]] =
      Some (deliver record batches final [[]]).
Proof.
  destruct (streamBatches_delivers record exampleColumns (Ok <$> exampleValues) None 2
              [[]]) as [_ Hdeliver].
  apply Hdeliver. lia.
Defined.

Lemma chunked_nil {A} size : chunked (A := A) size [].
Proof. intros i b Hi. done. Qed.

Lemma chunked_singleton {A} size (b : list A) :
  (0 < length b ≤ size)%nat → chunked size [b].
Proof.
  intros Hb [|i] b' Hi; simpl in *; [|done]. injection Hi as <-.
  split; [done|lia].
Qed.

Lemma chunked_cons {A} size (b : list A) batches :
  length b = size → (0 < size)%nat → chunked size batches → chunked size (b :: batches).
Proof.
  intros Hb Hsize Hrest [|i] b' Hi; simpl in *.
  - injection Hi as <-. split; [lia|done].
  - destruct (Hrest i b' Hi) as [? Hfull]. split; [done|]. intros ?. apply Hfull. lia.
Qed.

Lemma streamLoop_chunks colNames valuess rowsErr batchSize batch :
  (length batch < Z.to_nat (Z.max 1 batchSize))%nat →
  ∃ batches,
    streamLoop record colNames (Ok <$> valuess) rowsErr batchSize batch [] =
      (batches, rowsErr) ∧
    concat batches = batch ++ (toRow colNames <$> valuess) ∧
    chunked (Z.to_nat (Z.max 1 batchSize)) batches.
Proof.
  revert batch. induction valuess as [|values valuess IH]; intros batch Hbatch.
  - simpl. case_bool_decide as Hlen.
    + eexists. split; [done|]. simpl. rewrite !app_nil_r. split; [done|].
      apply chunked_singleton. lia.
    + exists []. split; [done|]. destruct batch; [|simpl in Hlen; lia].
      split; [done|apply chunked_nil].
  - rewrite !fmap_cons. cbn [streamLoop record]. case_bool_decide as Hfull.
    + rewrite streamLoop_record_log. cbn [record fst snd app].
      destruct (IH []) as (batches & -> & Hconcat & Hchunked); [simpl; lia|].
      eexists. split; [done|]. cbn [fst concat]. rewrite Hconcat. simpl.
      split; [by rewrite <-app_assoc|].
      rewrite length_app in Hfull. simpl in Hfull.
      apply chunked_cons; [rewrite length_app; simpl; lia|lia|done].
    + destruct (IH (batch ++ [toRow colNames values])) as (batches & -> & Hconcat & Hchunked).
      { rewrite length_app in *. simpl in *. lia. }
      exists batches. split; [done|]. split; [|done].
      by rewrite Hconcat, <-app_assoc.
Qed.

(** X29. When every row scans, the batches the callback is given are the
    rows of the result set in their order, cut into batches of
    [batchSize] rows (of one row for a batch size of 0), the last batch
    holding what remains; no batch is empty, and the function returns
    what [rows.Err] reports. *)
Theorem streamBatches_partition colNames valuess rowsErr batchSize :
  0 ≤ batchSize →
  ∃ batches,
    streamBatches record colNames (Ok <$> valuess) rowsErr batchSize [] =
      Some (batches, rowsErr) ∧
    concat batches = toRow colNames <$> valuess ∧
    ∀ i b, batches !! i = Some b →
      (0 < length b ≤ Z.to_nat (Z.max 1 batchSize))%nat ∧
      ((i + 1 < length batches)%nat → length b = Z.to_nat (Z.max 1 batchSize)).
Proof.
  intros Hsize. unfold streamBatches. rewrite bool_decide_eq_false_2 by lia.
  destruct (streamLoop_chunks colNames valuess rowsErr batchSize [])
    as (batches & -> & Hconcat & Hchunked); [simpl; lia|].
  by exists batches.
Qed.

Lemma streamBatches_partition_witness :
  ∃ batches,
    streamBatches record exampleColumns (Ok <$> exampleValues) None 2 [] =
      Some (batches, None) ∧
    concat batches = toRow exampleColumns <$> exampleValues ∧
    ∀ i b, batches !! i = Some b →
      (0 < length b ≤ Z.to_nat (Z.max 1 2))%nat ∧
      ((i + 1 < length batches)%nat → length b = Z.to_nat (Z.max 1 2)).
Proof. apply (streamBatches_partition exampleColumns exampleValues None 2). lia. Defined.

Lemma streamLoop_scan_error colNames valuess err rest rowsErr batchSize batch :
  (length batch < Z.to_nat (Z.max 1 batchSize))%nat →
  ∃ batches pending,
    streamLoop record colNames ((Ok <$> valuess) ++ Err err :: rest) rowsErr batchSize
               batch [] = (batches, Some ("failed to scan row: " +:+ err)) ∧
    concat batches ++ pending = batch ++ (toRow colNames <$> valuess) ∧
    (length pending < Z.to_nat (Z.max 1 batchSize))%nat ∧
    Forall (λ b, length b = Z.to_nat (Z.max 1 batchSize)) batches.
Proof.
  revert batch. induction valuess as [|values valuess IH]; intros batch Hbatch.
  - exists [], batch. simpl. by rewrite app_nil_r.
  - rewrite !fmap_cons, <-app_comm_cons. cbn [streamLoop record]. case_bool_decide as Hfull.
    + rewrite streamLoop_record_log. cbn [record fst snd app].
      destruct (IH []) as (batches & pending & -> & Hconcat & Hpending & Hall);
        [simpl; lia|].
      eexists _, pending. split; [done|]. cbn [fst concat].
      rewrite <-!app_assoc, Hconcat. simpl.
      split_and!; [done..|].
      rewrite length_app in Hfull. simpl in Hfull.
      constructor; [rewrite length_app; simpl; lia|done].
    + destruct (IH (batch ++ [toRow colNames values]))
        as (batches & pending & -> & Hconcat & Hpending & Hall).
      { rewrite length_app in *. simpl in *. lia. }
      exists batches, pending. split; [done|]. split; [|done].
      by rewrite Hconcat, <-app_assoc.
Qed.

(** X30. A row that fails to scan ends the stream with the error
    [failed to scan row]: the callback has been given full batches only,
    the rows before the failure in their order, and the rows of the batch
    that was being filled, fewer than a batch, are never delivered. *)
Theorem streamBatches_scan_error colNames valuess err rest rowsErr batchSize :
  0 ≤ batchSize →
  ∃ batches pending,
    streamBatches record colNames ((Ok <$> valuess) ++ Err err :: rest) rowsErr
                  batchSize [] =
      Some (batches, Some ("failed to scan row: " +:+ err)) ∧
    concat batches ++ pending = toRow colNames <$> valuess ∧
    (length pending < Z.to_nat (Z.max 1 batchSize))%nat ∧
    Forall (λ b, length b = Z.to_nat (Z.max 1 batchSize)) batches.
Proof.
  intros Hsize. unfold streamBatches. rewrite bool_decide_eq_false_2 by lia.
  destruct (streamLoop_scan_error colNames valuess err rest rowsErr batchSize [])
    as (batches & pending & -> & Hconcat & Hpending & Hall); [simpl; lia|].
  by exists batches, pending.
Qed.

Lemma streamBatches_scan_error_witness :
  ∃ batches pending,
    streamBatches record exampleColumns ((Ok <$> exampleValues) ++ [Err "bad row"]) None
                  2 [] =
      Some (batches, Some ("failed to scan row: " +:+ "bad row")) ∧
    concat batches ++ pending = toRow exampleColumns <$> exampleValues ∧
    (length pending < Z.to_nat (Z.max 1 2))%nat ∧
    Forall (λ b, length b = Z.to_nat (Z.max 1 2)) batches.
Proof.
  apply (streamBatches_scan_error exampleColumns exampleValues "bad row" [] None 2). lia.
Defined.
